(** * Bebop host side: memory access adapter, socket session, instruction hook

    A shallow embedding of
      - host/spike/customext/src/bebop.cc   (memory adapter, instruction hook)
      - host/ipc/src/socket/socket.cc       (three-channel session, command path,
                                             DMA responder loops)
      - customext/src/socket/socket.cc      (the earlier single-socket client)
      - host/gem5/test/spmm/inst.c          (instruction encoders)
      - host/gem5/BebopInOCPU/coprocessor.cc (instruction queue, decoding)
      - host/gem5/BebopInOCPU/probe/signal_collector.cc (signal registry, history)
      - host/gem5/test/spmm/sp_matrix.c     (coordinate list to CSR)
    Fixed-width C++ integers are [Z] with the wrap-around written out. *)

From stdpp Require Import base functions gmap list strings.
From Stdlib Require Import ZArith Lia Bool.
Open Scope Z_scope.

(** ** Machine integers *)

(** Truncation to an unsigned integer of [bits] bits. *)
Definition wrap (bits : Z) (x : Z) : Z := x mod 2 ^ bits.

Definition u8 (x : Z) : Z := wrap 8 x.
Definition u16 (x : Z) : Z := wrap 16 x.
Definition u32 (x : Z) : Z := wrap 32 x.
Definition u64 (x : Z) : Z := wrap 64 x.

(** ** Memory access adapter (bebop.cc) *)

Module Adapter.

(** The simulator's memory as seen through [p->get_mmu()]: one byte per
    64-bit address. *)
Abbreviation mmu_t := (Z → Z).

(** [p->get_mmu()->load<uint8_t>(addr)], the address taken as a [reg_t]. *)
Definition load_u8 (m : mmu_t) (addr : Z) : Z := u8 (m (u64 addr)).

(** [p->get_mmu()->store<uint8_t>(addr, v)]. *)
Definition store_u8 (m : mmu_t) (addr : Z) (v : Z) : mmu_t :=
  <[u64 addr := u8 v]> m.

(** One round of the loop of [read_from_dram<T>], [sz = sizeof(T)]:
    [value |= ((T)byte_val) << (byte_idx * 8)], the result stored in a [T]. *)
Definition read_step (sz : nat) (m : mmu_t) (addr : Z) (value : Z) (byte_idx : nat) : Z :=
  let byte_val := load_u8 m (addr + Z.of_nat byte_idx) in
  wrap (8 * Z.of_nat sz) (Z.lor value (Z.shiftl byte_val (Z.of_nat byte_idx * 8))).

(** [template <class T> T bebop_t::read_from_dram(reg_t addr)]. *)
Definition read_from_dram (sz : nat) (m : mmu_t) (addr : Z) : Z :=
  fold_left (read_step sz m addr) (seq 0 sz) 0.

(** One round of the loop of [write_to_dram<T>]:
    [store<uint8_t>(addr + byte_idx, (data >> (byte_idx * 8)) & 0xFF)]. *)
Definition write_step (addr : Z) (data : Z) (m : mmu_t) (byte_idx : nat) : mmu_t :=
  store_u8 m (addr + Z.of_nat byte_idx)
    (Z.land (Z.shiftr data (Z.of_nat byte_idx * 8)) 255).

(** [template <class T> void bebop_t::write_to_dram(reg_t addr, T data)]. *)
Definition write_to_dram (sz : nat) (m : mmu_t) (addr : Z) (data : Z) : mmu_t :=
  fold_left (write_step addr data) (seq 0 sz) m.

(** [dma_data_128_t]: the two 64-bit halves of a value of up to 128 bits. *)
Record dma_data_128_t : Type := Dma128 { lo : Z; hi : Z }.

(** The [read_cb] lambda of [bebop_t::CUSTOMFN]. [None] is [abort()]. *)
Definition read_cb (m : mmu_t) (addr : Z) (size : Z) : option dma_data_128_t :=
  match size with
  | 1 => Some (Dma128 (read_from_dram 1 m addr) 0)
  | 2 => Some (Dma128 (read_from_dram 2 m addr) 0)
  | 4 => Some (Dma128 (read_from_dram 4 m addr) 0)
  | 8 => Some (Dma128 (read_from_dram 8 m addr) 0)
  | 16 => Some (Dma128 (read_from_dram 8 m addr)
                       (read_from_dram 8 m (u64 (addr + 8))))
  | _ => None
  end.

(** The [write_cb] lambda of [bebop_t::CUSTOMFN]. [None] is [abort()]. *)
Definition write_cb (m : mmu_t) (addr : Z) (data : dma_data_128_t) (size : Z)
  : option mmu_t :=
  match size with
  | 1 => Some (write_to_dram 1 m addr (u8 (lo data)))
  | 2 => Some (write_to_dram 2 m addr (u16 (lo data)))
  | 4 => Some (write_to_dram 4 m addr (u32 (lo data)))
  | 8 => Some (write_to_dram 8 m addr (lo data))
  | 16 => Some (write_to_dram 8 (write_to_dram 8 m addr (lo data))
                              (u64 (addr + 8)) (hi data))
  | _ => None
  end.

(** The access widths of the protocol. *)
Definition supported_width (size : Z) : bool :=
  (size =? 1) || (size =? 2) || (size =? 4) || (size =? 8) || (size =? 16).

(** The bytes [addr .. addr+n-1] of memory read as a little-endian number:
    byte [i] weighs [2^(8*i)]. *)
Fixpoint le_value (m : mmu_t) (addr : Z) (n : nat) : Z :=
  match n with
  | O => 0
  | S k => le_value m addr k + load_u8 m (addr + Z.of_nat k) * 2 ^ (8 * Z.of_nat k)
  end.

(** A value that fits an access of [size] bytes. *)
Definition representable (size : Z) (v : dma_data_128_t) : Prop :=
  if size =? 16 then 0 ≤ lo v < 2 ^ 64 ∧ 0 ≤ hi v < 2 ^ 64
  else 0 ≤ lo v < 2 ^ (8 * size) ∧ hi v = 0.

End Adapter.

(** ** Wire records and the operating-system interface *)

Module Wire.
Import Adapter.

(** Modelled from the spec: the message-kind tag of [ipc/socket.h], which is
    not part of the sources at hand. Only the tags the client writes are
    named. *)
Inductive msg_type_t : Type :=
  | MSG_TYPE_CMD_REQ
  | MSG_TYPE_DMA_READ_RESP
  | MSG_TYPE_DMA_WRITE_RESP.

(** Modelled from the spec: the three logical ports of [ipc/socket.h], one
    per channel; [SOCKET_PORT] is the single port of the earlier client
    (customext/include/socket.h). *)
Inductive port_t : Type :=
  | SOCKET_CMD_PORT
  | SOCKET_DMA_READ_PORT
  | SOCKET_DMA_WRITE_PORT
  | SOCKET_PORT.

Record msg_header_t : Type := MsgHeader { msg_type : msg_type_t; reserved : Z }.

Record cmd_req_t : Type := CmdReq
  { cq_header : msg_header_t; cq_funct : Z; cq_padding : Z; cq_xs1 : Z; cq_xs2 : Z }.

Record cmd_resp_t : Type := CmdResp { result : Z }.

Record dma_read_req_t : Type := DmaReadReq { rq_addr : Z; rq_size : Z }.

Record dma_read_resp_t : Type := DmaReadResp
  { rr_header : msg_header_t; rr_data_lo : Z; rr_data_hi : Z }.

Record dma_write_req_t : Type := DmaWriteReq
  { wq_addr : Z; wq_data_lo : Z; wq_data_hi : Z; wq_size : Z }.

Record dma_write_resp_t : Type := DmaWriteResp
  { wr_header : msg_header_t; wr_reserved : Z }.

(** [sizeof(cmd_resp_t)]: one 64-bit field. *)
Definition sizeof_cmd_resp_t : Z := 8.

(** What a [send] carries. *)
Inductive sent_t : Type :=
  | SentCmdReq (req : cmd_req_t)
  | SentDmaReadResp (resp : dma_read_resp_t)
  | SentDmaWriteResp (resp : dma_write_resp_t)
  | SentSocketMsg (funct xs1 xs2 : Z).

Inductive thread_t : Type := DmaReadThread | DmaWriteThread.

(** One observable action of the process, with the value the system call
    returned. *)
Inductive event : Type :=
  | EvSocket (ret : Z)
  | EvInetPton (ret : Z)
  | EvConnect (fd : Z) (port : port_t) (ret : Z)
  | EvClose (fd : Z)
  | EvSend (fd : Z) (msg : sent_t) (ret : Z)
  | EvRecv (fd : Z) (len : Z) (peek : bool) (ret : Z)
  | EvThread (t : thread_t)
  | EvReadCb (addr size : Z)
  | EvWriteCb (addr : Z) (data : dma_data_128_t) (size : Z).

(** The other side of the sockets: what the [n]-th system call returns and
    which record the accelerator delivers with it. *)
Record peer_t : Type := Peer
  { os_ret : nat → Z;
    peer_cmd_resp : nat → cmd_resp_t;
    peer_read_req : nat → dma_read_req_t;
    peer_write_req : nat → dma_write_req_t }.

(** Everything outside the client object: the peer, the number of system
    calls made so far, the actions so far (oldest first) and the simulated
    memory. *)
Record env_t : Type := Env
  { peer : peer_t; tick : nat; trace : list event; mem : mmu_t }.

(** A system call whose return value the code looks at. *)
Definition os_call (ev : Z → event) (e : env_t) : Z * env_t :=
  let r := os_ret (peer e) (tick e) in
  (r, Env (peer e) (S (tick e)) (trace e ++ [ev r]) (mem e)).

(** An action whose outcome the code ignores ([::close], thread start,
    callback entry). *)
Definition os_log (ev : event) (e : env_t) : env_t :=
  Env (peer e) (tick e) (trace e ++ [ev]) (mem e).

Definition set_mem (m : mmu_t) (e : env_t) : env_t :=
  Env (peer e) (tick e) (trace e) m.

End Wire.

(** ** The three-channel client (host/ipc/src/socket/socket.cc) *)

Module Ipc.
Import Adapter Wire.

Definition dma_read_cb_t : Type := mmu_t → Z → Z → option dma_data_128_t.
Definition dma_write_cb_t : Type := mmu_t → Z → dma_data_128_t → Z → option mmu_t.

(** The data members of [class SocketClient]. An empty [std::function] is
    [None]. *)
Record SocketClient : Type := Client
  { cmd_sock_fd : Z;
    dma_read_sock_fd : Z;
    dma_write_sock_fd : Z;
    socket_initialized : bool;
    dma_handler_running : bool;
    dma_read_cb : option dma_read_cb_t;
    dma_write_cb : option dma_write_cb_t }.

Record world : Type := World { client : SocketClient; env : env_t }.

Definition set_cmd_sock_fd (v : Z) (c : SocketClient) : SocketClient :=
  Client v (dma_read_sock_fd c) (dma_write_sock_fd c) (socket_initialized c)
         (dma_handler_running c) (dma_read_cb c) (dma_write_cb c).
Definition set_dma_read_sock_fd (v : Z) (c : SocketClient) : SocketClient :=
  Client (cmd_sock_fd c) v (dma_write_sock_fd c) (socket_initialized c)
         (dma_handler_running c) (dma_read_cb c) (dma_write_cb c).
Definition set_dma_write_sock_fd (v : Z) (c : SocketClient) : SocketClient :=
  Client (cmd_sock_fd c) (dma_read_sock_fd c) v (socket_initialized c)
         (dma_handler_running c) (dma_read_cb c) (dma_write_cb c).
Definition set_socket_initialized (v : bool) (c : SocketClient) : SocketClient :=
  Client (cmd_sock_fd c) (dma_read_sock_fd c) (dma_write_sock_fd c) v
         (dma_handler_running c) (dma_read_cb c) (dma_write_cb c).
Definition set_dma_handler_running (v : bool) (c : SocketClient) : SocketClient :=
  Client (cmd_sock_fd c) (dma_read_sock_fd c) (dma_write_sock_fd c)
         (socket_initialized c) v (dma_read_cb c) (dma_write_cb c).

(** Update of the client object, the environment untouched. *)
Definition upd (f : SocketClient → SocketClient) (w : world) : world :=
  World (f (client w)) (env w).

Definition sys (ev : Z → event) (w : world) : Z * world :=
  let '(r, e) := os_call ev (env w) in (r, World (client w) e).

Definition sys_close (fd : Z) (w : world) : world :=
  World (client w) (os_log (EvClose fd) (env w)).

Definition sys_thread (t : thread_t) (w : world) : world :=
  World (client w) (os_log (EvThread t) (env w)).

(** [SocketClient::SocketClient()]. *)
Definition SocketClient_new : SocketClient :=
  Client (-1) (-1) (-1) false false None None.

(** [void SocketClient::start_dma_handler()]: the two loops are started
    detached, once. *)
Definition start_dma_handler (w : world) : world :=
  if dma_handler_running (client w) then w
  else
    let w := upd (set_dma_handler_running true) w in
    let w := sys_thread DmaReadThread w in
    sys_thread DmaWriteThread w.

(** [bool SocketClient::init()]. The diagnostics printed on the way are
    left out. *)
Definition init (w : world) : bool * world :=
  if socket_initialized (client w) then (true, w)
  else
    let '(fd, w) := sys EvSocket w in
    let w := upd (set_cmd_sock_fd fd) w in
    if cmd_sock_fd (client w) <? 0 then (false, w)
    else
    let '(r, w) := sys EvInetPton w in
    if r <=? 0 then
      let w := sys_close (cmd_sock_fd (client w)) w in
      (false, upd (set_cmd_sock_fd (-1)) w)
    else
    let '(r, w) := sys (EvConnect (cmd_sock_fd (client w)) SOCKET_CMD_PORT) w in
    if r <? 0 then
      let w := sys_close (cmd_sock_fd (client w)) w in
      (false, upd (set_cmd_sock_fd (-1)) w)
    else
    let '(fd, w) := sys EvSocket w in
    let w := upd (set_dma_read_sock_fd fd) w in
    if dma_read_sock_fd (client w) <? 0 then
      let w := sys_close (cmd_sock_fd (client w)) w in
      (false, upd (set_cmd_sock_fd (-1)) w)
    else
    let '(r, w) :=
      sys (EvConnect (dma_read_sock_fd (client w)) SOCKET_DMA_READ_PORT) w in
    if r <? 0 then
      let w := sys_close (cmd_sock_fd (client w)) w in
      let w := sys_close (dma_read_sock_fd (client w)) w in
      let w := upd (set_cmd_sock_fd (-1)) w in
      (false, upd (set_dma_read_sock_fd (-1)) w)
    else
    let '(fd, w) := sys EvSocket w in
    let w := upd (set_dma_write_sock_fd fd) w in
    if dma_write_sock_fd (client w) <? 0 then
      let w := sys_close (cmd_sock_fd (client w)) w in
      let w := sys_close (dma_read_sock_fd (client w)) w in
      let w := upd (set_cmd_sock_fd (-1)) w in
      (false, upd (set_dma_read_sock_fd (-1)) w)
    else
    let '(r, w) :=
      sys (EvConnect (dma_write_sock_fd (client w)) SOCKET_DMA_WRITE_PORT) w in
    if r <? 0 then
      let w := sys_close (cmd_sock_fd (client w)) w in
      let w := sys_close (dma_read_sock_fd (client w)) w in
      let w := sys_close (dma_write_sock_fd (client w)) w in
      let w := upd (set_cmd_sock_fd (-1)) w in
      let w := upd (set_dma_read_sock_fd (-1)) w in
      (false, upd (set_dma_write_sock_fd (-1)) w)
    else
    let w := upd (set_socket_initialized true) w in
    let w := start_dma_handler w in
    (true, w).

(** [void SocketClient::close()]. *)
Definition close (w : world) : world :=
  let w := upd (set_dma_handler_running false) w in
  let w :=
    if 0 <=? cmd_sock_fd (client w) then
      upd (set_cmd_sock_fd (-1)) (sys_close (cmd_sock_fd (client w)) w)
    else w in
  let w :=
    if 0 <=? dma_read_sock_fd (client w) then
      upd (set_dma_read_sock_fd (-1)) (sys_close (dma_read_sock_fd (client w)) w)
    else w in
  let w :=
    if 0 <=? dma_write_sock_fd (client w) then
      upd (set_dma_write_sock_fd (-1)) (sys_close (dma_write_sock_fd (client w)) w)
    else w in
  upd (set_socket_initialized false) w.

(** [void SocketClient::set_dma_callbacks(read_cb, write_cb)]. *)
Definition set_dma_callbacks (read_cb : dma_read_cb_t) (write_cb : dma_write_cb_t)
  (w : world) : world :=
  upd (fun c =>
         Client (cmd_sock_fd c) (dma_read_sock_fd c) (dma_write_sock_fd c)
                (socket_initialized c) (dma_handler_running c)
                (Some read_cb) (Some write_cb)) w.

(** [bool SocketClient::send_cmd_request(const cmd_req_t &req)]. *)
Definition send_cmd_request (req : cmd_req_t) (w : world) : bool * world :=
  if cmd_sock_fd (client w) <? 0 then (false, w)
  else
    let '(sent, w) := sys (EvSend (cmd_sock_fd (client w)) (SentCmdReq req)) w in
    if sent <? 0 then (false, close w) else (true, w).

(** [bool SocketClient::recv_cmd_response(cmd_resp_t &resp)]: the flag
    returned and the contents of [resp]. *)
Definition recv_cmd_response (w : world) : bool * cmd_resp_t * world :=
  let resp := peer_cmd_resp (peer (env w)) (tick (env w)) in
  if cmd_sock_fd (client w) <? 0 then (false, resp, w)
  else
    let '(received, w) :=
      sys (EvRecv (cmd_sock_fd (client w)) sizeof_cmd_resp_t false) w in
    if received <? 0 then (false, resp, close w)
    else if received =? 0 then (false, resp, close w)
    else if received <? sizeof_cmd_resp_t then (false, resp, close w)
    else (true, resp, w).

Section RecvHeader.

(** [sizeof(msg_header_t)], fixed by [ipc/socket.h]. *)
Variable sizeof_msg_header_t : Z.

(** [bool SocketClient::recv_header(msg_header_t &header)]: the header is
    peeked at ([MSG_PEEK]), not consumed. *)
Definition recv_header (w : world) : bool * world :=
  if cmd_sock_fd (client w) <? 0 then (false, w)
  else
    let '(received, w) :=
      sys (EvRecv (cmd_sock_fd (client w)) sizeof_msg_header_t true) w in
    if received <? 0 then (false, close w)
    else if received =? 0 then (false, close w)
    else (true, w).

End RecvHeader.

(** [uint64_t SocketClient::send_and_wait(uint32_t funct, uint64_t xs1,
    uint64_t xs2)]. *)
Definition send_and_wait (funct xs1 xs2 : Z) (w : world) : Z * world :=
  let '(connected, w) :=
    if socket_initialized (client w) then (true, w) else init w in
  if negb connected then (0, w)
  else
    let cmd_req := CmdReq (MsgHeader MSG_TYPE_CMD_REQ 0) funct 0 xs1 xs2 in
    let '(ok, w) := send_cmd_request cmd_req w in
    if negb ok then (0, w)
    else
      let '(ok, cmd_resp, w) := recv_cmd_response w in
      if negb ok then (0, w) else (result cmd_resp, w).

(** The session is ready and its three connection handles are valid. *)
Definition session_ready (c : SocketClient) : Prop :=
  socket_initialized c = true ∧
  0 ≤ cmd_sock_fd c ∧ 0 ≤ dma_read_sock_fd c ∧ 0 ≤ dma_write_sock_fd c.

(** The session is not ready and none of its handles is valid. *)
Definition session_closed (c : SocketClient) : Prop :=
  socket_initialized c = false ∧
  cmd_sock_fd c < 0 ∧ dma_read_sock_fd c < 0 ∧ dma_write_sock_fd c < 0.

(** All or nothing. *)
Definition session_inv (c : SocketClient) : Prop :=
  session_ready c ∨ session_closed c.

(** The two lifecycle operations a caller can issue. *)
Inductive op : Type := OpInit | OpClose.

Definition run_op (o : op) (w : world) : world :=
  match o with
  | OpInit => snd (init w)
  | OpClose => close w
  end.

Definition run_ops (ops : list op) (w : world) : world :=
  fold_left (λ w o, run_op o w) ops w.

(** A freshly constructed client in front of a peer. *)
Definition new_world (p : peer_t) (m : mmu_t) : world :=
  World SocketClient_new (Env p 0 [] m).

(** The system calls that open or connect a socket. *)
Definition is_connect_attempt (e : event) : bool :=
  match e with
  | EvSocket _ | EvInetPton _ | EvConnect _ _ _ => true
  | _ => false
  end.

Definition is_send (e : event) : bool :=
  match e with EvSend _ _ _ => true | _ => false end.

Definition is_close (e : event) : bool :=
  match e with EvClose _ => true | _ => false end.

(** A connection step that failed, by the test [init] applies to its
    result: [socket(...) < 0], [inet_pton(...) <= 0], [connect(...) < 0]. *)
Definition is_failed_step (e : event) : bool :=
  match e with
  | EvSocket ret => ret <? 0
  | EvInetPton ret => ret <=? 0
  | EvConnect _ _ ret => ret <? 0
  | _ => false
  end.

Definition is_thread_start (e : event) : bool :=
  match e with EvThread _ => true | _ => false end.

(** The [::close] calls of [SocketClient::close()]: one per valid handle. *)
Definition close_events (c : SocketClient) : list event :=
  (if 0 <=? cmd_sock_fd c then [EvClose (cmd_sock_fd c)] else []) ++
  (if 0 <=? dma_read_sock_fd c then [EvClose (dma_read_sock_fd c)] else []) ++
  (if 0 <=? dma_write_sock_fd c then [EvClose (dma_write_sock_fd c)] else []).

(** A peer that accepts the command and the DMA-read connection and
    refuses the DMA-write connection. *)
Definition refusing_peer : peer_t :=
  Peer (λ n, match n with
             | 0%nat => 3 | 1%nat => 1 | 2%nat => 0
             | 3%nat => 4 | 4%nat => 0
             | 5%nat => 5
             | _ => -1
             end)
       (λ _, CmdResp 0)
       (λ _, DmaReadReq 0 8)
       (λ _, DmaWriteReq 0 0 0 8).

(** A peer that accepts the three connections of a fresh client, takes the
    whole request and answers the command with [answer] in one complete
    record. *)
Definition willing_peer (answer : Z) : peer_t :=
  Peer (λ n, match n with
             | 0%nat => 3 | 1%nat => 1 | 2%nat => 0
             | 3%nat => 4 | 4%nat => 0
             | 5%nat => 5 | 6%nat => 0
             | 7%nat => 32
             | _ => 8
             end)
       (λ _, CmdResp answer)
       (λ _, DmaReadReq 4096 8)
       (λ _, DmaWriteReq 4096 0 0 8).

End Ipc.

(** ** The DMA path of the three-channel client *)

Module Dma.
Import Adapter Wire Ipc.

(** How a responder loop ended: it returned, the process was aborted inside
    the callback, or the model ran out of rounds. *)
Inductive loop_exit : Type := LoopReturned | LoopAborted | LoopFuel.

Section DmaPath.

(** [sizeof(dma_read_req_t)] and [sizeof(dma_write_req_t)]; the layout of the
    two records is fixed by [ipc/socket.h]. *)
Variable sizeof_dma_read_req_t : Z.
Variable sizeof_dma_write_req_t : Z.

(** Modelled from the spec: [SocketClient::recv_dma_read_request] is not
    among the sources. A zero-length, negative-length or short receive is a
    transport failure and closes the whole session, as on the command
    channel. *)
Definition recv_dma_read_request (w : world) : bool * dma_read_req_t * world :=
  let req := peer_read_req (peer (env w)) (tick (env w)) in
  if dma_read_sock_fd (client w) <? 0 then (false, req, w)
  else
    let '(received, w) :=
      sys (EvRecv (dma_read_sock_fd (client w)) sizeof_dma_read_req_t false) w in
    if received <? 0 then (false, req, close w)
    else if received =? 0 then (false, req, close w)
    else if received <? sizeof_dma_read_req_t then (false, req, close w)
    else (true, req, w).

(** Modelled from the spec: [SocketClient::recv_dma_write_request]. *)
Definition recv_dma_write_request (w : world) : bool * dma_write_req_t * world :=
  let req := peer_write_req (peer (env w)) (tick (env w)) in
  if dma_write_sock_fd (client w) <? 0 then (false, req, w)
  else
    let '(received, w) :=
      sys (EvRecv (dma_write_sock_fd (client w)) sizeof_dma_write_req_t false) w in
    if received <? 0 then (false, req, close w)
    else if received =? 0 then (false, req, close w)
    else if received <? sizeof_dma_write_req_t then (false, req, close w)
    else (true, req, w).

(** Modelled from the spec: [SocketClient::send_dma_read_response]; a failed
    send closes the whole session. *)
Definition send_dma_read_response (resp : dma_read_resp_t) (w : world)
  : bool * world :=
  if dma_read_sock_fd (client w) <? 0 then (false, w)
  else
    let '(sent, w) :=
      sys (EvSend (dma_read_sock_fd (client w)) (SentDmaReadResp resp)) w in
    if sent <? 0 then (false, close w) else (true, w).

(** Modelled from the spec: [SocketClient::send_dma_write_response]. *)
Definition send_dma_write_response (resp : dma_write_resp_t) (w : world)
  : bool * world :=
  if dma_write_sock_fd (client w) <? 0 then (false, w)
  else
    let '(sent, w) :=
      sys (EvSend (dma_write_sock_fd (client w)) (SentDmaWriteResp resp)) w in
    if sent <? 0 then (false, close w) else (true, w).

(** Modelled from the spec: [SocketClient::handle_dma_read] invokes the
    installed read callback on the simulated memory. [None] is the end of
    the process (the callback aborted, or no callback is installed). *)
Definition handle_dma_read (addr size : Z) (w : world)
  : option dma_data_128_t * world :=
  let w := World (client w) (os_log (EvReadCb addr size) (env w)) in
  match dma_read_cb (client w) with
  | Some cb => (cb (mem (env w)) addr size, w)
  | None => (None, w)
  end.

(** Modelled from the spec: [SocketClient::handle_dma_write] invokes the
    installed write callback, which updates the simulated memory. [false]
    is the end of the process. *)
Definition handle_dma_write (addr : Z) (data : dma_data_128_t) (size : Z)
  (w : world) : bool * world :=
  let w := World (client w) (os_log (EvWriteCb addr data size) (env w)) in
  match dma_write_cb (client w) with
  | Some cb =>
      match cb (mem (env w)) addr data size with
      | Some m => (true, World (client w) (set_mem m (env w)))
      | None => (false, w)
      end
  | None => (false, w)
  end.

(** [void SocketClient::dma_read_handler_thread()], at most [fuel] rounds
    of the [while] loop. *)
Fixpoint dma_read_handler_thread (fuel : nat) (w : world) : loop_exit * world :=
  match fuel with
  | O => (LoopFuel, w)
  | S fuel =>
      if dma_handler_running (client w) && socket_initialized (client w)
         && (0 <=? dma_read_sock_fd (client w))
      then
        let '(ok, dma_read_req, w) := recv_dma_read_request w in
        if negb ok then (LoopReturned, w)
        else
          match handle_dma_read (rq_addr dma_read_req) (rq_size dma_read_req) w with
          | (None, w) => (LoopAborted, w)
          | (Some read_data, w) =>
              let dma_read_resp :=
                DmaReadResp (MsgHeader MSG_TYPE_DMA_READ_RESP 0)
                            (lo read_data) (hi read_data) in
              let '(ok, w) := send_dma_read_response dma_read_resp w in
              if negb ok then (LoopReturned, w)
              else dma_read_handler_thread fuel w
          end
      else (LoopReturned, w)
  end.

(** [void SocketClient::dma_write_handler_thread()], at most [fuel] rounds
    of the [while] loop. *)
Fixpoint dma_write_handler_thread (fuel : nat) (w : world) : loop_exit * world :=
  match fuel with
  | O => (LoopFuel, w)
  | S fuel =>
      if dma_handler_running (client w) && socket_initialized (client w)
         && (0 <=? dma_write_sock_fd (client w))
      then
        let '(ok, dma_write_req, w) := recv_dma_write_request w in
        if negb ok then (LoopReturned, w)
        else
          let write_data :=
            Dma128 (wq_data_lo dma_write_req) (wq_data_hi dma_write_req) in
          let '(alive, w) :=
            handle_dma_write (wq_addr dma_write_req) write_data
                             (wq_size dma_write_req) w in
          if negb alive then (LoopAborted, w)
          else
            let dma_write_resp :=
              DmaWriteResp (MsgHeader MSG_TYPE_DMA_WRITE_RESP 0) 0 in
            let '(ok, w) := send_dma_write_response dma_write_resp w in
            if negb ok then (LoopReturned, w)
            else dma_write_handler_thread fuel w
      else (LoopReturned, w)
  end.

End DmaPath.

(** The condition of the read-side [while] loop. *)
Definition read_serving (c : SocketClient) : Prop :=
  dma_handler_running c = true ∧ socket_initialized c = true ∧
  0 ≤ dma_read_sock_fd c.

(** The condition of the write-side [while] loop. *)
Definition write_serving (c : SocketClient) : Prop :=
  dma_handler_running c = true ∧ socket_initialized c = true ∧
  0 ≤ dma_write_sock_fd c.

(** The actions of [n] rounds at most of the read-side loop of a client [c]
    whose loop condition holds, from system-call count [t] on. A round is
    complete when the receive returned a whole request, the callback
    returned a value for it and the send did not fail; the next round
    follows it. The run ends with the first round that is not complete:
    after a failed receive or a failed send come the [::close] calls of the
    teardown and nothing else, and the loop has returned; a callback that
    aborts ends the process. Only a run of [n] complete rounds ends for
    lack of rounds. *)
Inductive read_run (cb : dma_read_cb_t) (m : mmu_t) (c : SocketClient) (len : Z)
  (p : peer_t) : nat → loop_exit → nat → list event → Prop :=
  | read_run_fuel (t : nat) : read_run cb m c len p 0 LoopFuel t []
  | read_run_recv_fail (n t : nat) :
      os_ret p t ≤ 0 ∨ os_ret p t < len →
      read_run cb m c len p (S n) LoopReturned t
        (EvRecv (dma_read_sock_fd c) len false (os_ret p t) :: close_events c)
  | read_run_abort (n t : nat) :
      0 < os_ret p t → len ≤ os_ret p t →
      cb m (rq_addr (peer_read_req p t)) (rq_size (peer_read_req p t)) = None →
      read_run cb m c len p (S n) LoopAborted t
        [EvRecv (dma_read_sock_fd c) len false (os_ret p t);
         EvReadCb (rq_addr (peer_read_req p t)) (rq_size (peer_read_req p t))]
  | read_run_send_fail (n t : nat) (d : dma_data_128_t) :
      0 < os_ret p t → len ≤ os_ret p t →
      cb m (rq_addr (peer_read_req p t)) (rq_size (peer_read_req p t)) = Some d →
      os_ret p (S t) < 0 →
      read_run cb m c len p (S n) LoopReturned t
        (EvRecv (dma_read_sock_fd c) len false (os_ret p t)
         :: EvReadCb (rq_addr (peer_read_req p t)) (rq_size (peer_read_req p t))
         :: EvSend (dma_read_sock_fd c)
                   (SentDmaReadResp
                      (DmaReadResp (MsgHeader MSG_TYPE_DMA_READ_RESP 0)
                                   (lo d) (hi d)))
                   (os_ret p (S t))
         :: close_events c)
  | read_run_round (n : nat) (st : loop_exit) (t : nat) (d : dma_data_128_t)
      (rest : list event) :
      0 < os_ret p t → len ≤ os_ret p t →
      cb m (rq_addr (peer_read_req p t)) (rq_size (peer_read_req p t)) = Some d →
      0 ≤ os_ret p (S t) →
      read_run cb m c len p n st (S (S t)) rest →
      read_run cb m c len p (S n) st t
        (EvRecv (dma_read_sock_fd c) len false (os_ret p t)
         :: EvReadCb (rq_addr (peer_read_req p t)) (rq_size (peer_read_req p t))
         :: EvSend (dma_read_sock_fd c)
                   (SentDmaReadResp
                      (DmaReadResp (MsgHeader MSG_TYPE_DMA_READ_RESP 0)
                                   (lo d) (hi d)))
                   (os_ret p (S t))
         :: rest).

(** The same for the write-side loop; the callback changes the simulated
    memory from round to round. *)
Inductive write_run (cb : dma_write_cb_t) (c : SocketClient) (len : Z) (p : peer_t)
  : nat → loop_exit → nat → mmu_t → list event → Prop :=
  | write_run_fuel (t : nat) (m : mmu_t) :
      write_run cb c len p 0 LoopFuel t m []
  | write_run_recv_fail (n t : nat) (m : mmu_t) :
      os_ret p t ≤ 0 ∨ os_ret p t < len →
      write_run cb c len p (S n) LoopReturned t m
        (EvRecv (dma_write_sock_fd c) len false (os_ret p t) :: close_events c)
  | write_run_abort (n t : nat) (m : mmu_t) :
      let q := peer_write_req p t in
      0 < os_ret p t → len ≤ os_ret p t →
      cb m (wq_addr q) (Dma128 (wq_data_lo q) (wq_data_hi q)) (wq_size q) = None →
      write_run cb c len p (S n) LoopAborted t m
        [EvRecv (dma_write_sock_fd c) len false (os_ret p t);
         EvWriteCb (wq_addr q) (Dma128 (wq_data_lo q) (wq_data_hi q)) (wq_size q)]
  | write_run_send_fail (n t : nat) (m m' : mmu_t) :
      let q := peer_write_req p t in
      0 < os_ret p t → len ≤ os_ret p t →
      cb m (wq_addr q) (Dma128 (wq_data_lo q) (wq_data_hi q)) (wq_size q) = Some m' →
      os_ret p (S t) < 0 →
      write_run cb c len p (S n) LoopReturned t m
        (EvRecv (dma_write_sock_fd c) len false (os_ret p t)
         :: EvWriteCb (wq_addr q) (Dma128 (wq_data_lo q) (wq_data_hi q)) (wq_size q)
         :: EvSend (dma_write_sock_fd c)
                   (SentDmaWriteResp
                      (DmaWriteResp (MsgHeader MSG_TYPE_DMA_WRITE_RESP 0) 0))
                   (os_ret p (S t))
         :: close_events c)
  | write_run_round (n : nat) (st : loop_exit) (t : nat) (m m' : mmu_t)
      (rest : list event) :
      let q := peer_write_req p t in
      0 < os_ret p t → len ≤ os_ret p t →
      cb m (wq_addr q) (Dma128 (wq_data_lo q) (wq_data_hi q)) (wq_size q) = Some m' →
      0 ≤ os_ret p (S t) →
      write_run cb c len p n st (S (S t)) m' rest →
      write_run cb c len p (S n) st t m
        (EvRecv (dma_write_sock_fd c) len false (os_ret p t)
         :: EvWriteCb (wq_addr q) (Dma128 (wq_data_lo q) (wq_data_hi q)) (wq_size q)
         :: EvSend (dma_write_sock_fd c)
                   (SentDmaWriteResp
                      (DmaWriteResp (MsgHeader MSG_TYPE_DMA_WRITE_RESP 0) 0))
                   (os_ret p (S t))
         :: rest).

(** A peer that sends one complete request on a DMA channel, takes the
    response, and then closes the connection. *)
Definition one_request_peer : peer_t :=
  Peer (λ n, match n with 0%nat => 32 | 1%nat => 24 | _ => 0 end)
       (λ _, CmdResp 0)
       (λ _, DmaReadReq 4096 8)
       (λ _, DmaWriteReq 4096 3735928559 0 4).

(** A connected session with the adapter's callbacks installed and both
    loops running. *)
Definition serving_world : world :=
  World (Client 3 4 5 true true (Some read_cb) (Some write_cb))
        (Env one_request_peer 0 [] (λ _, 0)).

End Dma.

(** ** The earlier single-socket client (customext/src/socket/socket.cc) *)

Module Legacy.
Import Wire.

(** [sizeof(socket_resp_t)]: one 64-bit field. *)
Definition sizeof_socket_resp_t : Z := 8.

Record SocketClient : Type := Client { sock_fd : Z; socket_initialized : bool }.

(** The client, its environment, and [resp_storage]: [send_and_wait] leaves
    its local [socket_resp_t resp] uninitialised, so what the record holds
    before the receive is whatever its storage held; [resp_storage n] is
    that value when the receive is system call number [n]. *)
Record world : Type := World
  { client : SocketClient; env : env_t; resp_storage : nat → Z }.

Definition sys (ev : Z → event) (w : world) : Z * world :=
  let '(r, e) := os_call ev (env w) in (r, World (client w) e (resp_storage w)).

Definition sys_close (fd : Z) (w : world) : world :=
  World (client w) (os_log (EvClose fd) (env w)) (resp_storage w).

Definition set_sock_fd (v : Z) (w : world) : world :=
  World (Client v (socket_initialized (client w))) (env w) (resp_storage w).

Definition set_socket_initialized (v : bool) (w : world) : world :=
  World (Client (sock_fd (client w)) v) (env w) (resp_storage w).

(** [bool SocketClient::init()]. *)
Definition init (w : world) : bool * world :=
  if socket_initialized (client w) then (true, w)
  else
    let '(fd, w) := sys EvSocket w in
    let w := set_sock_fd fd w in
    if sock_fd (client w) <? 0 then (false, w)
    else
    let '(r, w) := sys EvInetPton w in
    if r <=? 0 then
      (false, set_sock_fd (-1) (sys_close (sock_fd (client w)) w))
    else
    let '(r, w) := sys (EvConnect (sock_fd (client w)) SOCKET_PORT) w in
    if r <? 0 then
      (false, set_sock_fd (-1) (sys_close (sock_fd (client w)) w))
    else (true, set_socket_initialized true w).

(** [void SocketClient::close()]. *)
Definition close (w : world) : world :=
  let w :=
    if 0 <=? sock_fd (client w) then
      set_sock_fd (-1) (sys_close (sock_fd (client w)) w)
    else w in
  set_socket_initialized false w.

(** [bool SocketClient::send_request(const socket_msg_t& msg)]. *)
Definition send_request (funct xs1 xs2 : Z) (w : world) : bool * world :=
  if sock_fd (client w) <? 0 then (false, w)
  else
    let '(sent, w) :=
      sys (EvSend (sock_fd (client w)) (SentSocketMsg funct xs1 xs2)) w in
    if sent <? 0 then (false, close w) else (true, w).

(** The 64-bit field of a record of which [recv] wrote the first
    [received] bytes: the low [received] bytes are those the peer sent, the
    other bytes are what the storage held before (the field is stored least
    significant byte first on the hosts the simulator runs on). A receive
    of the whole record leaves nothing of the old contents. *)
Definition received_record (received before sent : Z) : Z :=
  if sizeof_socket_resp_t <=? received then sent
  else sent mod 2 ^ (8 * received)
       + before / 2 ^ (8 * received) * 2 ^ (8 * received).

(** [bool SocketClient::recv_response(socket_resp_t& resp)]: the flag
    returned and the contents of [resp] afterwards. [recv] writes into
    [resp] the bytes it received and no others; a failed receive writes
    none. *)
Definition recv_response (w : world) : bool * cmd_resp_t * world :=
  let before := resp_storage w (tick (env w)) in
  let sent := result (peer_cmd_resp (peer (env w)) (tick (env w))) in
  if sock_fd (client w) <? 0 then (false, CmdResp before, w)
  else
    let '(received, w) :=
      sys (EvRecv (sock_fd (client w)) sizeof_socket_resp_t false) w in
    if received <? 0 then (false, CmdResp before, close w)
    else if received =? 0 then (false, CmdResp before, close w)
    else (true, CmdResp (received_record received before sent), w).

(** [uint64_t SocketClient::send_and_wait(uint32_t funct, uint64_t xs1,
    uint64_t xs2)]. *)
Definition send_and_wait (funct xs1 xs2 : Z) (w : world) : Z * world :=
  let '(connected, w) :=
    if socket_initialized (client w) then (true, w) else init w in
  if negb connected then (0, w)
  else
    let '(ok, w) := send_request funct xs1 xs2 w in
    if negb ok then (0, w)
    else
      let '(ok, resp, w) := recv_response w in
      if negb ok then (0, w) else (result resp, w).

(** A peer every system call of which returns 4: a receive of an 8-byte
    record from it is short. The record it delivers reads as [99]. *)
Definition short_peer : peer_t :=
  Peer (λ _, 4) (λ _, CmdResp 99) (λ _, DmaReadReq 0 8) (λ _, DmaWriteReq 0 0 0 8).

(** A connected single-socket client in front of [short_peer]; the storage
    of the response record holds the bytes [0xab] throughout. *)
Definition short_world : world :=
  World (Client 3 true) (Env short_peer 0 [] (λ _, 0))
        (λ _, 12370169555311111083).

End Legacy.

(** ** The instruction hook (bebop.cc) *)

Module Hook.
Import Adapter Wire Ipc.

(** The fields of the simulator's [rocc_insn_t], the view of a 32-bit
    instruction word that [rocc_insn_union_t] gives. *)
Record rocc_insn_t : Type := RoccInsn
  { opcode : Z; rd : Z; xs2 : bool; xs1 : bool; xd : bool;
    rs1 : Z; rs2 : Z; funct : Z }.

(** Bits [lo .. lo+len-1] of an instruction word. *)
Definition bits (insn : Z) (lo len : Z) : Z :=
  Z.land (Z.shiftr insn lo) (Z.ones len).

(** [u.i = insn], read back through [u.r]. *)
Definition rocc_of_insn (insn : Z) : rocc_insn_t :=
  RoccInsn (bits insn 0 7) (bits insn 7 5)
           (Z.testbit insn 12) (Z.testbit insn 13) (Z.testbit insn 14)
           (bits insn 15 5) (bits insn 20 5) (bits insn 25 7).

(** The integer register file of the simulator, as the hook uses it:
    [XPR[i]] and [XPR.write(i, v)]. A write leaves every other register
    alone. *)
Class RegFile (R : Type) : Type := MkRegFile
  { rf_read : R → Z → Z;
    rf_write : R → Z → Z → R;
    rf_write_other :
      ∀ (r : R) (i j v : Z), i ≠ j → rf_read (rf_write r i v) j = rf_read r j }.

(** The register file of the simulator itself: [x0] is hard-wired, a write
    to it is dropped. *)
Abbreviation xpr_t := (Z → Z).

Definition xpr_write (r : xpr_t) (i v : Z) : xpr_t :=
  if i =? 0 then r else <[i := v]> r.

#[export] Instance xpr_regfile : RegFile xpr_t.
Proof.
  refine (MkRegFile xpr_t (λ r i, r i) xpr_write _).
  intros r i j v Hne. unfold xpr_write.
  destruct (i =? 0); [reflexivity | apply fn_lookup_insert_ne; exact Hne].
Defined.

(** [bebop_state_t]. *)
Record bebop_state_t : Type := BebopState { enable : bool; resetted : bool }.

(** [void bebop_state_t::reset()]. *)
Definition reset (s : bebop_state_t) : bebop_state_t := BebopState true true.

(** [bebop_t]: its state and the socket client it owns, together with what
    the client talks to. *)
Record bebop_t : Type := Bebop
  { bebop_state : bebop_state_t; socket_client : world }.

(** [reg_t bebop_t::CUSTOMFN(XCUSTOM_ACC)(rocc_insn_t insn, reg_t xs1,
    reg_t xs2)]: the two callbacks are installed anew, then the command is
    dispatched. *)
Definition CUSTOMFN (b : bebop_t) (insn : rocc_insn_t) (xs1v xs2v : Z)
  : Z * bebop_t :=
  let st := if negb (resetted (bebop_state b)) then reset (bebop_state b)
            else bebop_state b in
  let sc := set_dma_callbacks read_cb write_cb (socket_client b) in
  let '(res, sc) := send_and_wait (funct insn) xs1v xs2v sc in
  (res, Bebop st sc).

Section Processor.

Context {R : Type} `{RegFile R}.

(** What the hook touches of [processor_t]: the integer registers, the log
    of register writes and the extension object. *)
Record processor_t : Type := Processor
  { XPR : R; log_reg_write : gmap Z (Z * Z); extension : bebop_t }.

(** [static reg_t bebop_custom(processor_t *p, insn_t insn, reg_t pc)]. *)
Definition bebop_custom (p : processor_t) (insn : Z) (pc : Z)
  : Z * processor_t :=
  let u := rocc_of_insn insn in
  let xs1v := if xs1 u then rf_read (XPR p) (bits insn 15 5) else u64 (-1) in
  let xs2v := if xs2 u then rf_read (XPR p) (bits insn 20 5) else u64 (-1) in
  let '(xdv, b) := CUSTOMFN (extension p) u xs1v xs2v in
  let p :=
    if xd u then
      Processor (rf_write (XPR p) (bits insn 7 5) xdv)
                (<[Z.shiftl (bits insn 7 5) 4 := (xdv, 0)]> (log_reg_write p))
                b
    else Processor (XPR p) (log_reg_write p) b in
  (u64 (pc + 4), p).

End Processor.

Arguments processor_t R : clear implicits.

End Hook.

(** ** Byte view of a DMA value *)

Module AdapterBytes.
Import Adapter.

(** Byte [i] of a value of up to 128 bits: bytes 0..7 come from the low
    half, bytes 8..15 from the high half. *)
Definition byte_of (v : dma_data_128_t) (i : Z) : Z :=
  if i <? 8 then Z.land (Z.shiftr (lo v) (8 * i)) 255
  else Z.land (Z.shiftr (hi v) (8 * (i - 8))) 255.

(** The part of a value that an access of [size] bytes can carry. *)
Definition truncate (size : Z) (v : dma_data_128_t) : dma_data_128_t :=
  if size =? 16 then Dma128 (lo v mod 2 ^ 64) (hi v mod 2 ^ 64)
  else Dma128 (lo v mod 2 ^ (8 * size)) 0.

End AdapterBytes.
(** ** Callers of the three-channel client *)

Module IpcApi.
Import Adapter Wire Ipc.

(** The public member functions a caller of [SocketClient] can invoke. *)
Inductive api : Type :=
  | ApiInit
  | ApiClose
  | ApiSetDmaCallbacks (read_cb : dma_read_cb_t) (write_cb : dma_write_cb_t)
  | ApiSendAndWait (funct xs1 xs2 : Z).

Definition run_api (a : api) (w : world) : world :=
  match a with
  | ApiInit => snd (init w)
  | ApiClose => close w
  | ApiSetDmaCallbacks r wr => set_dma_callbacks r wr w
  | ApiSendAndWait funct xs1 xs2 => snd (send_and_wait funct xs1 xs2 w)
  end.

Definition run_apis (calls : list api) (w : world) : world :=
  fold_left (λ w a, run_api a w) calls w.

Definition is_set_dma_callbacks (a : api) : bool :=
  match a with ApiSetDmaCallbacks _ _ => true | _ => false end.

(** All or nothing, and the loops are marked running exactly while the
    session is ready. *)
Definition session_synced (c : SocketClient) : Prop :=
  session_inv c ∧ dma_handler_running c = socket_initialized c.

(** Dispatches issued back to back: the results in order, and the world
    after the last one. *)
Fixpoint dispatch_all (reqs : list (Z * Z * Z)) (w : world) : list Z * world :=
  match reqs with
  | [] => ([], w)
  | (funct, xs1, xs2) :: reqs =>
      let '(res, w) := send_and_wait funct xs1 xs2 w in
      let '(ress, w) := dispatch_all reqs w in
      (res :: ress, w)
  end.

(** The request and response actions of the [i]-th of a run of successful
    dispatches that starts at system-call count [t] on handle [fd]. *)
Fixpoint exchange_events (fd : Z) (p : peer_t) (t : nat)
  (reqs : list (Z * Z * Z)) : list event :=
  match reqs with
  | [] => []
  | (funct, xs1, xs2) :: reqs =>
      EvSend fd (SentCmdReq (CmdReq (MsgHeader MSG_TYPE_CMD_REQ 0) funct 0 xs1 xs2))
             (os_ret p t)
      :: EvRecv fd sizeof_cmd_resp_t false (os_ret p (S t))
      :: exchange_events fd p (S (S t)) reqs
  end.

(** The responses the peer delivers to such a run, in order. *)
Fixpoint exchange_results (p : peer_t) (t : nat) (n : nat) : list Z :=
  match n with
  | O => []
  | S n => result (peer_cmd_resp p (S t)) :: exchange_results p (S (S t)) n
  end.

(** A peer every system call to which returns 8 (a complete response
    record), and whose [n]-th response reads as [n]. *)
Definition steady_peer : peer_t :=
  Peer (λ _, 8) (λ n, CmdResp (Z.of_nat n))
       (λ _, DmaReadReq 0 8) (λ _, DmaWriteReq 0 0 0 8).

(** A connected session in front of [steady_peer]. *)
Definition steady_world : world :=
  World (Client 3 4 5 true true None None) (Env steady_peer 0 [] (λ _, 0)).

End IpcApi.
(** ** Callers of the single-socket client *)

Module LegacyApi.
Import Wire Legacy.

(** The socket is valid exactly when the client is marked connected. *)
Definition connected (c : SocketClient) : Prop :=
  socket_initialized c = true ∧ 0 ≤ sock_fd c.

Definition disconnected (c : SocketClient) : Prop :=
  socket_initialized c = false ∧ sock_fd c < 0.

Definition client_inv (c : SocketClient) : Prop := connected c ∨ disconnected c.

(** [SocketClient::SocketClient()] in front of a peer; [u] is what the
    storage of the response record holds from call to call. *)
Definition new_world (p : peer_t) (m : Z → Z) (u : nat → Z) : world :=
  World (Client (-1) false) (Env p 0 [] m) u.

Inductive api : Type :=
  | ApiInit
  | ApiClose
  | ApiSendAndWait (funct xs1 xs2 : Z).

Definition run_api (a : api) (w : world) : world :=
  match a with
  | ApiInit => snd (init w)
  | ApiClose => close w
  | ApiSendAndWait funct xs1 xs2 => snd (send_and_wait funct xs1 xs2 w)
  end.

Definition run_apis (calls : list api) (w : world) : world :=
  fold_left (λ w a, run_api a w) calls w.

(** A peer that accepts the connection, takes the request and answers with
    [answer] in one complete record. *)
Definition willing_peer (answer : Z) : peer_t :=
  Peer (λ n, match n with
             | 0%nat => 3 | 1%nat => 1 | 2%nat => 0
             | 3%nat => 24
             | _ => 8
             end)
       (λ _, CmdResp answer)
       (λ _, DmaReadReq 0 8)
       (λ _, DmaWriteReq 0 0 0 8).

End LegacyApi.
(** ** Custom instruction operands (host/gem5/test/spmm/inst.c) *)

Module Inst.

(** The bit ranges for which the two shifts of [FIELD] are defined in C: a
    shift of a 64-bit operand by 64 or more, or by a negative count, is
    undefined, so the field starts and ends within bits 0..63 and is
    narrower than 64 bits ([1UL << 64] is what a field of all 64 bits
    would ask for). *)
Definition FIELD_defined (start_bit end_bit : Z) : bool :=
  (0 <=? start_bit) && (start_bit <=? end_bit) && (end_bit <? 64)
  && (end_bit - start_bit + 1 <? 64).

(** [FIELD(val, start_bit, end_bit)]:
    [(((val) & ((1UL << ((end_bit) - (start_bit) + 1)) - 1)) << (start_bit))],
    in the 64-bit arithmetic of [unsigned long]. Outside [FIELD_defined]
    the macro has no defined value and the value given here stands for
    nothing; the encoders below use ranges inside it only. *)
Definition FIELD (val start_bit end_bit : Z) : Z :=
  u64 (Z.shiftl
         (Z.land val (u64 (u64 (Z.shiftl 1 (end_bit - start_bit + 1)) - 1)))
         start_bit).

Definition BB_MVIN_FUNC7 : Z := 24.
Definition BB_MVOUT_FUNC7 : Z := 25.
Definition BB_MGATHER_FUNC7 : Z := 26.
Definition BB_GEMM_FUNC7 : Z := 27.

(** What a custom instruction hands to the accelerator: [func7] and the
    values of its two source registers. *)
Record operands : Type := Operands { op_func7 : Z; op_rs1 : Z; op_rs2 : Z }.

(** [bb_mvin(mem_addr, bank_id, depth, stride)]. *)
Definition bb_mvin (mem_addr bank_id depth stride : Z) : operands :=
  Operands BB_MVIN_FUNC7
    (FIELD mem_addr 0 31)
    (Z.lor (Z.lor (FIELD bank_id 0 4) (FIELD depth 5 14)) (FIELD stride 15 33)).

(** [bb_mvout(mem_addr, bank_id, depth, stride)]. *)
Definition bb_mvout (mem_addr bank_id depth stride : Z) : operands :=
  Operands BB_MVOUT_FUNC7
    (FIELD mem_addr 0 31)
    (Z.lor (Z.lor (FIELD bank_id 0 4) (FIELD depth 5 14)) (FIELD stride 15 33)).

(** [bb_mgather(base_addr, vlen, bank_id, o0, ..., o7)]. *)
Definition bb_mgather (base_addr vlen bank_id o0 o1 o2 o3 o4 o5 o6 o7 : Z)
  : operands :=
  Operands BB_MGATHER_FUNC7
    (Z.lor (Z.lor (FIELD base_addr 0 31) (FIELD vlen 32 40)) (FIELD bank_id 41 45))
    (Z.lor (Z.lor (Z.lor (Z.lor (Z.lor (Z.lor (Z.lor
       (FIELD (Z.land o0 255) 0 7) (FIELD (Z.land o1 255) 8 15))
       (FIELD (Z.land o2 255) 16 23)) (FIELD (Z.land o3 255) 24 31))
       (FIELD (Z.land o4 255) 32 39)) (FIELD (Z.land o5 255) 40 47))
       (FIELD (Z.land o6 255) 48 55)) (FIELD (Z.land o7 255) 56 63)).

(** [bb_gemm(op1_addr, op2_addr, op3_addr)]. *)
Definition bb_gemm (op1_addr op2_addr op3_addr : Z) : operands :=
  Operands BB_GEMM_FUNC7
    (Z.lor (FIELD op1_addr 0 7) (FIELD op2_addr 8 15))
    (FIELD op3_addr 0 7).

End Inst.

(** ** The timing-model coprocessor (BebopCoprocessor) *)

Module Coprocessor.

(** [struct BebopInst]. *)
Record BebopInst : Type := MkBebopInst
  { inst_encoding : Z; func7 : Z; rs1_val : Z; rs2_val : Z; issue_tick : Z }.

Definition PROCESSING_LATENCY : Z := 10.

(** A call of [readMemory] or [writeMemory]. *)
Inductive mem_request : Type :=
  | ReadMemory (addr size : Z) (use_l2_only : bool)
  | WriteMemory (addr size : Z) (use_l2_only : bool).

(** The memory operation [completeInstruction] performs for an
    instruction: the second [switch (inst.func7)]. *)
Definition memory_operation (inst : BebopInst) : option mem_request :=
  match func7 inst with
  | 24 =>
      let mem_addr := u32 (rs1_val inst) in
      let depth := u32 (Z.land (Z.shiftr (rs2_val inst) 5) 1023) in
      let stride := u32 (Z.land (Z.shiftr (rs2_val inst) 15) 524287) in
      let total_size := u32 (depth * stride) in
      Some (ReadMemory mem_addr total_size false)
  | 25 =>
      let mem_addr := u32 (rs1_val inst) in
      let depth := u32 (Z.land (Z.shiftr (rs2_val inst) 5) 1023) in
      let stride := u32 (Z.land (Z.shiftr (rs2_val inst) 15) 524287) in
      let total_size := u32 (depth * stride) in
      Some (WriteMemory mem_addr total_size false)
  | 26 =>
      let base_addr := Z.land (rs1_val inst) 4294967295 in
      Some (ReadMemory base_addr (8 * 64) true)
  | _ => None
  end.

(** What [completeInstruction] takes an instruction for, with the fields
    it decodes from the register values: the first [switch (inst.func7)],
    whose cases print the function name and these fields. The register
    values printed as they are appear in the two cases that decode
    nothing. *)
Inductive function_type : Type :=
  | FnMvin (mem_addr bank_id depth stride : Z)
  | FnMvout (mem_addr bank_id depth stride : Z)
  | FnMgather (rs1 rs2 : Z)
  | FnGemm (op1_addr op2_addr op3_addr : Z)
  | FnUnknown (rs1 rs2 : Z).

Definition decode_function_type (inst : BebopInst) : function_type :=
  match func7 inst with
  | 24 =>
      FnMvin (u32 (rs1_val inst))
             (u32 (Z.land (rs2_val inst) 31))
             (u32 (Z.land (Z.shiftr (rs2_val inst) 5) 1023))
             (u32 (Z.land (Z.shiftr (rs2_val inst) 15) 524287))
  | 25 =>
      FnMvout (u32 (rs1_val inst))
              (u32 (Z.land (rs2_val inst) 31))
              (u32 (Z.land (Z.shiftr (rs2_val inst) 5) 1023))
              (u32 (Z.land (Z.shiftr (rs2_val inst) 15) 524287))
  | 26 => FnMgather (rs1_val inst) (rs2_val inst)
  | 27 =>
      FnGemm (u32 (Z.land (rs1_val inst) 255))
             (u32 (Z.land (Z.shiftr (rs1_val inst) 8) 255))
             (u32 (Z.land (rs2_val inst) 255))
  | _ => FnUnknown (rs1_val inst) (rs2_val inst)
  end.

(** [void BebopCoprocessor::submitInstruction(uint64_t inst_encoding,
    uint8_t func7, uint64_t rs1_val, uint64_t rs2_val,
    uint64_t current_tick)]: the arguments are converted to the parameter
    types and the instruction joins the queue. *)
Definition submitInstruction (instQueue : list BebopInst)
  (encoding f7 rs1 rs2 current_tick : Z) : list BebopInst :=
  instQueue ++
  [MkBebopInst (u64 encoding) (u8 f7) (u64 rs1) (u64 rs2) (u64 current_tick)].

(** [void BebopCoprocessor::completeInstruction(const BebopInst &inst)]:
    the queue afterwards and the memory operation requested. The front of
    the queue is removed when its encoding is that of [inst]. *)
Definition completeInstruction (instQueue : list BebopInst) (inst : BebopInst)
  : list BebopInst * option mem_request :=
  let instQueue :=
    match instQueue with
    | front :: rest =>
        if inst_encoding front =? inst_encoding inst then rest else instQueue
    | [] => instQueue
    end in
  (instQueue, memory_operation inst).

Definition req_addr (r : mem_request) : Z :=
  match r with ReadMemory a _ _ | WriteMemory a _ _ => a end.

Definition req_size (r : mem_request) : Z :=
  match r with ReadMemory _ s _ | WriteMemory _ s _ => s end.

(** An instruction built by one of the macros of [inst.c], as the
    coprocessor sees it. *)
Definition of_operands (o : Inst.operands) (encoding tick : Z) : BebopInst :=
  MkBebopInst encoding (Inst.op_func7 o) (Inst.op_rs1 o) (Inst.op_rs2 o) tick.

(** Completing a list of instructions one after the other. *)
Definition complete_all (instQueue : list BebopInst) (insts : list BebopInst)
  : list BebopInst :=
  fold_left (λ q i, fst (completeInstruction q i)) insts instQueue.

End Coprocessor.
(** ** The signal collector (host/gem5/BebopInOCPU/probe/signal_collector.cc) *)

Module Collector.

(** [enum class SignalType]. *)
Inductive SignalType : Type :=
  | BOOL | UINT8 | UINT16 | UINT32 | UINT64
  | INT8 | INT16 | INT32 | INT64
  | ADDR | TICK | DOUBLE.

Section Collector.

(** The state of the simulator a probe looks at, and the values probes
    return ([SignalValue]); the collector copies values without looking
    into them. *)
Context {Sim V : Type}.

(** [SignalProbe = std::function<SignalValue()>]; [None] is a probe that
    throws. *)
Definition SignalProbe : Type := Sim → option V.

(** [struct SignalSnapshot]. *)
Record SignalSnapshot : Type := Snapshot
  { tick : Z; cycle : Z; signals : gmap string V }.

(** [SignalSnapshot()]. *)
Definition empty_snapshot : SignalSnapshot := Snapshot 0 0 ∅.

(** The data members of [class SignalCollector]; the trace file is left
    out. *)
Record SignalCollector : Type := MkCollector
  { enabled : bool;
    signal_probes : gmap string SignalProbe;
    signal_metadata : gmap string (SignalType * string);
    signal_history : list SignalSnapshot;
    max_history_size : nat;
    current_cycle : Z }.

(** [SignalCollector::SignalCollector(name)]. *)
Definition SignalCollector_new : SignalCollector :=
  MkCollector false ∅ ∅ [] 0 0.

(** [bool SignalCollector::registerSignal(signal_name, probe, type,
    description)]. *)
Definition registerSignal (signal_name : string) (probe : SignalProbe)
  (type : SignalType) (description : string) (c : SignalCollector)
  : bool * SignalCollector :=
  match signal_probes c !! signal_name with
  | Some _ => (false, c)
  | None =>
      (true,
       MkCollector (enabled c)
         (<[signal_name := probe]> (signal_probes c))
         (<[signal_name := (type, description)]> (signal_metadata c))
         (signal_history c) (max_history_size c) (current_cycle c))
  end.

(** [bool SignalCollector::unregisterSignal(signal_name)]. *)
Definition unregisterSignal (signal_name : string) (c : SignalCollector)
  : bool * SignalCollector :=
  match signal_probes c !! signal_name with
  | None => (false, c)
  | Some _ =>
      (true,
       MkCollector (enabled c)
         (delete signal_name (signal_probes c))
         (delete signal_name (signal_metadata c))
         (signal_history c) (max_history_size c) (current_cycle c))
  end.

(** [bool SignalCollector::isSignalRegistered(signal_name) const]. *)
Definition isSignalRegistered (signal_name : string) (c : SignalCollector)
  : bool :=
  match signal_probes c !! signal_name with Some _ => true | None => false end.

(** [void setEnabled(bool enable)]. *)
Definition setEnabled (enable : bool) (c : SignalCollector) : SignalCollector :=
  MkCollector enable (signal_probes c) (signal_metadata c)
    (signal_history c) (max_history_size c) (current_cycle c).

(** [void setMaxHistorySize(size_t size)]. *)
Definition setMaxHistorySize (size : nat) (c : SignalCollector)
  : SignalCollector :=
  MkCollector (enabled c) (signal_probes c) (signal_metadata c)
    (signal_history c) size (current_cycle c).

(** [void SignalCollector::collect()], at simulator state [s] and time
    [curTick]: every registered probe is sampled, a probe that throws is
    skipped; the snapshot is appended, and the oldest one dropped when the
    history is over its limit. *)
Definition collect (s : Sim) (curTick : Z) (c : SignalCollector)
  : SignalCollector :=
  if negb (enabled c) then c
  else
    let snapshot :=
      Snapshot curTick (current_cycle c)
               (omap (λ probe : SignalProbe, probe s) (signal_probes c)) in
    let history := signal_history c ++ [snapshot] in
    let history :=
      if (0 <? max_history_size c)%nat
         && (max_history_size c <? length history)%nat
      then tail history else history in
    MkCollector (enabled c) (signal_probes c) (signal_metadata c)
      history (max_history_size c) (u64 (current_cycle c + 1)).

(** [void SignalCollector::clearHistory()]. *)
Definition clearHistory (c : SignalCollector) : SignalCollector :=
  MkCollector (enabled c) (signal_probes c) (signal_metadata c)
    [] (max_history_size c) (current_cycle c).

(** [const SignalSnapshot& getLatestSnapshot() const]. *)
Definition getLatestSnapshot (c : SignalCollector) : SignalSnapshot :=
  default empty_snapshot (last (signal_history c)).

(** [const SignalSnapshot& getSnapshot(size_t index) const]. *)
Definition getSnapshot (index : nat) (c : SignalCollector) : SignalSnapshot :=
  default empty_snapshot (signal_history c !! index).

(** [size_t getHistorySize() const]. *)
Definition getHistorySize (c : SignalCollector) : nat :=
  length (signal_history c).

(** [bool querySignal(signal_name, SignalValue &value) const]: [None] is
    [false], [Some v] is [true] with [value = v]. *)
Definition querySignal (signal_name : string) (c : SignalCollector)
  : option V :=
  match last (signal_history c) with
  | None => None
  | Some latest => signals latest !! signal_name
  end.

(** The calls that change the set of registered signals. *)
Inductive registry_call : Type :=
  | Register (signal_name : string) (probe : SignalProbe)
             (type : SignalType) (description : string)
  | Unregister (signal_name : string).

Definition run_registry_call (r : registry_call) (c : SignalCollector)
  : SignalCollector :=
  match r with
  | Register n p t d => snd (registerSignal n p t d c)
  | Unregister n => snd (unregisterSignal n c)
  end.

(** Collecting at a sequence of simulator states and times. *)
Definition collect_all (samples : list (Sim * Z)) (c : SignalCollector)
  : SignalCollector :=
  fold_left (λ c st, collect (fst st) (snd st) c) samples c.

End Collector.

Arguments SignalProbe : clear implicits.
Arguments SignalSnapshot : clear implicits.
Arguments SignalCollector : clear implicits.
Arguments registry_call : clear implicits.

End Collector.
(** ** Sparse-matrix generators (host/gem5/test/spmm/sp_matrix.c) *)

Module SpMatrix.

Section Coord.

(** The type of matrix entries ([double] in the source) and its addition. *)
Context {V : Type} (add : V → V → V).

(** [typedef struct { int row; int col; double val; } coord_t]. *)
Record coord_t : Type := Coord { row : Z; col : Z; val : V }.

(** [static int cmp_coord(const void *a, const void *b)]. *)
Definition cmp_coord (p q : coord_t) : Z :=
  if negb (row p =? row q)
  then Z.b2z (row q <? row p) - Z.b2z (row p <? row q)
  else Z.b2z (col q <? col p) - Z.b2z (col p <? col q).

(** [csr_t] (sp_matrix.h); the three arrays are lists, and the field [val]
    is called [csr_val] because [coord_t] has a field of that name. *)
Record csr_t : Type := Csr {
  rows : Z;
  cols : Z;
  nnz : Z;
  csr_val : list V;
  col_idx : list Z;
  row_ptr : list Z
}.

(** One round of the first loop of [csr_from_sorted_coords], on the array
    [coord] and the counter [nnz]:
    [if (nnz > 0 && coord[nnz-1].row == coord[k].row
                 && coord[nnz-1].col == coord[k].col)
       coord[nnz-1].val += coord[k].val;
     else { if (nnz < k) coord[nnz] = coord[k]; nnz++; }].
    The loop reads below [nnz_in] only; an index outside the list (which the
    C code must not be given) leaves the state as it is. *)
Definition merge_step (st : list coord_t * nat) (k : nat) : list coord_t * nat :=
  let '(coord, n) := st in
  match coord !! k with
  | None => st
  | Some ck =>
      let fresh := ((if (n <? k)%nat then <[n := ck]> coord else coord), S n) in
      if (0 <? n)%nat
      then match coord !! (n - 1)%nat with
           | None => st
           | Some cl =>
               if (row cl =? row ck) && (col cl =? col ck)
               then (<[(n - 1)%nat := Coord (row cl) (col cl) (add (val cl) (val ck))]> coord, n)
               else fresh
           end
      else fresh
  end.

(** The first loop: [for (int k = 0; k < nnz_in; k++)], from [nnz = 0]. *)
Definition merge_duplicates (coord : list coord_t) (nnz_in : nat) : list coord_t * nat :=
  fold_left merge_step (seq 0 nnz_in) (coord, 0%nat).

(** [while (k < nnz && coord[k].row == i) k++;]. The loop moves [k] up to
    [nnz] at most, so [nnz] rounds of fuel are never used up. *)
Fixpoint skip_row (fuel : nat) (coord : list coord_t) (n : nat) (i : Z) (k : nat) : nat :=
  match fuel with
  | O => k
  | S fuel' =>
      if (k <? n)%nat
      then match coord !! k with
           | Some c => if row c =? i then skip_row fuel' coord n i (S k) else k
           | None => k
           end
      else k
  end.

(** One round of the last loop: [row_ptr[i + 1] = k] after the inner loop;
    the array is built by appending, its index [i + 1] being its length. *)
Definition row_ptr_step (coord : list coord_t) (n : nat) (st : list Z * nat) (i : nat)
  : list Z * nat :=
  let '(rp, k) := st in
  let k' := skip_row n coord n (Z.of_nat i) k in
  (rp ++ [Z.of_nat k'], k').

(** [row_ptr[0] = 0; for (int i = 0, k = 0; i < M; i++) ...]. *)
Definition fill_row_ptr (coord : list coord_t) (n : nat) (M : Z) : list Z :=
  fst (fold_left (row_ptr_step coord n) (seq 0 (Z.to_nat M)) ([0], 0%nat)).

(** [static csr_t *csr_from_sorted_coords(int M, int N, coord_t *coord,
    int nnz_in)]: [None] is the NULL of [nnz_in <= 0]; the allocations are
    taken to succeed. The array [coord] is changed in place, so it is
    returned with the matrix. *)
Definition csr_from_sorted_coords (M N : Z) (coord : list coord_t) (nnz_in : Z)
  : option (csr_t * list coord_t) :=
  if nnz_in <=? 0 then None
  else
    let '(coord', n) := merge_duplicates coord (Z.to_nat nnz_in) in
    Some (Csr M N (Z.of_nat n)
              (val <$> take n coord')
              (col <$> take n coord')
              (fill_row_ptr coord' n M),
          coord').

(** The position of an entry. *)
Definition pos (c : coord_t) : Z * Z := (row c, col c).

(** What one round of the first loop does to the kept entries, seen as a
    list: the next entry is added to the last kept one when both have the
    same position, and kept after it otherwise. *)
Definition push (out : list coord_t) (ck : coord_t) : list coord_t :=
  match last out with
  | Some cl =>
      if (row cl =? row ck) && (col cl =? col ck)
      then removelast out ++ [Coord (row cl) (col cl) (add (val cl) (val ck))]
      else out ++ [ck]
  | None => out ++ [ck]
  end.

Definition merged (l : list coord_t) : list coord_t := fold_left push l [].

(** Positions in the order of [cmp_coord]: by row, then by column. *)
Definition pos_lt (p q : Z * Z) : Prop :=
  p.1 < q.1 ∨ (p.1 = q.1 ∧ p.2 < q.2).

Definition pos_le (p q : Z * Z) : Prop := pos_lt p q ∨ p = q.

(** A list of positions in ascending order, by index. *)
Definition ascending (R : Z * Z → Z * Z → Prop) (l : list (Z * Z)) : Prop :=
  ∀ a b p q, (a < b)%nat → l !! a = Some p → l !! b = Some q → R p q.

(** [k] splits the first [n] entries of [c] into those of rows below [i]
    and those of rows [i] and above. *)
Definition splits_at (c : list coord_t) (n : nat) (i : Z) (k : nat) : Prop :=
  (k ≤ n)%nat ∧
  ∀ j e, (j < n)%nat → c !! j = Some e → (j < k)%nat ↔ row e < i.

(** The rows of the first [n] entries of [c] never decrease. *)
Definition rows_ascend (c : list coord_t) (n : nat) : Prop :=
  ∀ a b ea eb, (a ≤ b < n)%nat → c !! a = Some ea → c !! b = Some eb →
    row ea ≤ row eb.

End Coord.

Arguments coord_t : clear implicits.
Arguments csr_t : clear implicits.

End SpMatrix.

(** * Properties *)

(** ** Memory access adapter *)

Module AdapterFacts.
Import Adapter.

Lemma u8_range (x : Z) : 0 ≤ u8 x < 256.
Proof. unfold u8, wrap. change (2 ^ 8) with 256. apply Z.mod_pos_bound. lia. Qed.

Lemma load_u8_range (m : mmu_t) (a : Z) : 0 ≤ load_u8 m a < 256.
Proof. apply u8_range. Qed.

Lemma wrap_small (bits x : Z) : 0 ≤ x < 2 ^ bits → wrap bits x = x.
Proof. intros Hx. unfold wrap. apply Z.mod_small. exact Hx. Qed.

(** Or-ing in a byte above the bits already set is an addition. *)
Lemma lor_shiftl_add (v b k : Z) :
  0 ≤ k → 0 ≤ v < 2 ^ k → 0 ≤ b → Z.lor v (Z.shiftl b k) = v + b * 2 ^ k.
Proof.
  intros Hk Hv Hb.
  assert (Hland : Z.land v (Z.shiftl b k) = 0).
  { apply Z.bits_inj'. intros n Hn.
    rewrite Z.land_spec, Z.bits_0.
    destruct (Z.lt_ge_cases n k) as [Hlt | Hge].
    - rewrite (Z.shiftl_spec_low b k n Hlt). apply andb_false_r.
    - rewrite <- (Z.mod_small v (2 ^ k)) by exact Hv.
      rewrite Z.mod_pow2_bits_high by lia. reflexivity. }
  rewrite <- Z.lxor_lor by exact Hland.
  rewrite <- Z.add_nocarry_lxor by exact Hland.
  rewrite Z.shiftl_mul_pow2 by exact Hk. reflexivity.
Qed.

Lemma le_value_range (m : mmu_t) (a : Z) (n : nat) :
  0 ≤ le_value m a n < 2 ^ (8 * Z.of_nat n).
Proof.
  induction n as [| n IH].
  - simpl. lia.
  - cbn [le_value].
    pose proof (load_u8_range m (a + Z.of_nat n)) as Hb.
    replace (8 * Z.of_nat (S n)) with (8 * Z.of_nat n + 8) by lia.
    rewrite Z.pow_add_r by lia. change (2 ^ 8) with 256.
    assert (0 < 2 ^ (8 * Z.of_nat n)) by (apply Z.pow_pos_nonneg; lia).
    nia.
Qed.

Lemma read_loop_le (sz : nat) (m : mmu_t) (a : Z) (n : nat) :
  (n ≤ sz)%nat →
  fold_left (read_step sz m a) (seq 0 n) 0 = le_value m a n.
Proof.
  induction n as [| n IH]; intros Hn.
  - reflexivity.
  - rewrite seq_S, fold_left_app. cbn [fold_left Nat.add le_value].
    rewrite IH by lia. unfold read_step.
    pose proof (le_value_range m a n) as Hv.
    pose proof (le_value_range m a (S n)) as Hs. cbn [le_value] in Hs.
    pose proof (load_u8_range m (a + Z.of_nat n)) as Hb.
    replace (Z.of_nat n * 8) with (8 * Z.of_nat n) by lia.
    rewrite lor_shiftl_add by lia.
    apply wrap_small. split; [lia |].
    eapply Z.lt_le_trans; [apply Hs |].
    apply Z.pow_le_mono_r; lia.
Qed.

(** [read_from_dram<T>] returns the little-endian value of the [sizeof(T)]
    bytes at [addr]. *)
Lemma read_from_dram_le (sz : nat) (m : mmu_t) (a : Z) :
  read_from_dram sz m a = le_value m a sz.
Proof. unfold read_from_dram. apply read_loop_le. lia. Qed.

Lemma le_value_ext (m1 m2 : mmu_t) (a : Z) (n : nat) :
  (∀ i : nat, (i < n)%nat → load_u8 m1 (a + Z.of_nat i) = load_u8 m2 (a + Z.of_nat i)) →
  le_value m1 a n = le_value m2 a n.
Proof.
  induction n as [| n IH]; intros Hev; [reflexivity |].
  cbn [le_value]. rewrite IH, Hev by (try lia; intros; apply Hev; lia).
  reflexivity.
Qed.

(** The address arithmetic is that of [reg_t]: only the address modulo
    [2^64] matters. *)
Lemma load_u8_u64 (m : mmu_t) (a : Z) : load_u8 m (u64 a) = load_u8 m a.
Proof.
  unfold load_u8, u64, wrap. rewrite Z.mod_mod by lia. reflexivity.
Qed.

Lemma load_u8_shift (m : mmu_t) (a i : Z) :
  load_u8 m (u64 a + i) = load_u8 m (a + i).
Proof.
  unfold load_u8, u64, wrap. rewrite Zplus_mod_idemp_l. reflexivity.
Qed.

Lemma le_value_u64 (m : mmu_t) (a : Z) (n : nat) :
  le_value m (u64 a) n = le_value m a n.
Proof.
  induction n as [| n IH]; [reflexivity |].
  cbn [le_value]. rewrite IH, load_u8_shift. reflexivity.
Qed.

(** Distinct offsets below [2^64] give distinct addresses. *)
Lemma u64_add_ne (a i j : Z) :
  0 ≤ i < 2 ^ 64 → 0 ≤ j < 2 ^ 64 → i ≠ j → u64 (a + i) ≠ u64 (a + j).
Proof.
  unfold u64, wrap. change (2 ^ 64) with 18446744073709551616.
  intros Hi Hj Hne Heq.
  pose proof (Z.div_mod (a + i) 18446744073709551616 ltac:(lia)) as Ei.
  pose proof (Z.div_mod (a + j) 18446744073709551616 ltac:(lia)) as Ej.
  rewrite Heq in Ei. lia.
Qed.

Lemma load_store_same (m : mmu_t) (a v : Z) :
  load_u8 (store_u8 m a v) a = u8 v.
Proof.
  unfold load_u8, store_u8. rewrite fn_lookup_insert.
  unfold u8, wrap. rewrite Z.mod_mod by lia. reflexivity.
Qed.

Lemma load_store_other (m : mmu_t) (a b v : Z) :
  u64 a ≠ u64 b → load_u8 (store_u8 m a v) b = load_u8 m b.
Proof.
  intros Hne. unfold load_u8, store_u8.
  rewrite fn_lookup_insert_ne by exact Hne. reflexivity.
Qed.

Lemma write_to_dram_S (n : nat) (m : mmu_t) (a d : Z) :
  write_to_dram (S n) m a d = write_step a d (write_to_dram n m a d) n.
Proof. unfold write_to_dram. rewrite seq_S, fold_left_app. reflexivity. Qed.

(** Bytes outside the written range keep their value. *)
Lemma load_write_miss (n : nat) (m : mmu_t) (a d b : Z) :
  (∀ i : nat, (i < n)%nat → u64 (a + Z.of_nat i) ≠ u64 b) →
  load_u8 (write_to_dram n m a d) b = load_u8 m b.
Proof.
  induction n as [| n IH]; intros Hmiss; [reflexivity |].
  rewrite write_to_dram_S. unfold write_step.
  rewrite load_store_other by (apply Hmiss; lia).
  apply IH. intros i Hi. apply Hmiss. lia.
Qed.

(** Byte [i] of the written range holds bits [8i .. 8i+7] of the data. *)
Lemma load_write_hit (n : nat) (m : mmu_t) (a d : Z) (i : nat) :
  Z.of_nat n ≤ 2 ^ 64 → (i < n)%nat →
  load_u8 (write_to_dram n m a d) (a + Z.of_nat i)
  = Z.land (Z.shiftr d (Z.of_nat i * 8)) 255.
Proof.
  induction n as [| n IH]; intros Hn Hi; [lia |].
  rewrite write_to_dram_S. unfold write_step.
  destruct (decide (i = n)) as [-> | Hne].
  - rewrite load_store_same. unfold u8. apply wrap_small.
    change 255 with (Z.ones 8). rewrite Z.land_ones by lia.
    apply Z.mod_pos_bound. lia.
  - rewrite load_store_other by (apply u64_add_ne; lia).
    apply IH; lia.
Qed.

(** The bytes of [d], least significant first, add up to [d] again. *)
Lemma le_value_bytes (m : mmu_t) (a d : Z) (n : nat) :
  (∀ i : nat, (i < n)%nat →
     load_u8 m (a + Z.of_nat i) = Z.land (Z.shiftr d (Z.of_nat i * 8)) 255) →
  le_value m a n = d mod 2 ^ (8 * Z.of_nat n).
Proof.
  induction n as [| n IH]; intros Hb.
  - simpl. symmetry. apply Z.mod_1_r.
  - cbn [le_value]. rewrite IH by (intros; apply Hb; lia).
    rewrite Hb by lia.
    change 255 with (Z.ones 8). rewrite Z.land_ones by lia.
    rewrite Z.shiftr_div_pow2 by lia.
    replace (8 * Z.of_nat (S n)) with (8 * Z.of_nat n + 8) by lia.
    rewrite Z.pow_add_r by lia.
    assert (0 < 2 ^ (8 * Z.of_nat n)) by (apply Z.pow_pos_nonneg; lia).
    rewrite Z.rem_mul_r by lia.
    replace (Z.of_nat n * 8) with (8 * Z.of_nat n) by lia. lia.
Qed.

(** Writing [sizeof(T)] bytes and reading them back gives the data,
    truncated to [T]. *)
Lemma read_write_to_dram (n : nat) (m : mmu_t) (a d : Z) :
  Z.of_nat n ≤ 2 ^ 64 →
  read_from_dram n (write_to_dram n m a d) a = d mod 2 ^ (8 * Z.of_nat n).
Proof.
  intros Hn. rewrite read_from_dram_le. apply le_value_bytes.
  intros i Hi. apply load_write_hit; assumption.
Qed.

Lemma supported_width_cases (size : Z) :
  supported_width size = true →
  size = 1 ∨ size = 2 ∨ size = 4 ∨ size = 8 ∨ size = 16.
Proof.
  unfold supported_width. rewrite !orb_true_iff, !Z.eqb_eq. tauto.
Qed.

(** A 16-byte write followed by a 16-byte read: the two halves do not
    overlap, under the address arithmetic of [reg_t]. *)
Lemma read_write_16 (m : mmu_t) (a l h : Z) :
  let m' := write_to_dram 8 (write_to_dram 8 m a l) (u64 (a + 8)) h in
  read_from_dram 8 m' a = l mod 2 ^ 64 ∧
  read_from_dram 8 m' (u64 (a + 8)) = h mod 2 ^ 64.
Proof.
  intros m'. split.
  - rewrite read_from_dram_le.
    rewrite (le_value_ext m' (write_to_dram 8 m a l) a 8).
    + rewrite <- read_from_dram_le. apply (read_write_to_dram 8). simpl. lia.
    + intros i Hi. unfold m'. apply load_write_miss. intros j Hj.
      unfold u64 at 1. unfold wrap. unfold u64 at 1. unfold wrap.
      rewrite Zplus_mod_idemp_l.
      replace (a + 8 + Z.of_nat j) with (a + (8 + Z.of_nat j)) by lia.
      apply u64_add_ne; lia.
  - unfold m'. apply (read_write_to_dram 8). simpl. lia.
Qed.

Example read_cb_four_bytes :
  read_cb (λ a, a) 4096 4 = Some (Dma128 50462976 0).
Proof. vm_compute. reflexivity. Qed.

(** A 16-byte access that wraps around the end of the address space. *)
Example roundtrip_across_wrap :
  (m' ← write_cb (λ _, 0) (2 ^ 64 - 4) (Dma128 (2 ^ 64 - 2) 81985529216486895) 16;
   read_cb m' (2 ^ 64 - 4) 16)
  = Some (Dma128 (2 ^ 64 - 2) 81985529216486895).
Proof. vm_compute. reflexivity. Qed.

(** C7. An access width outside {1, 2, 4, 8, 16} makes the read callback
    and the write callback abort the process; for a width inside the set
    neither aborts: both return. *)
Theorem width_contract (m : mmu_t) (addr : Z) (data : dma_data_128_t) (size : Z) :
  (read_cb m addr size = None ↔ supported_width size = false) ∧
  (write_cb m addr data size = None ↔ supported_width size = false) ∧
  (is_Some (read_cb m addr size) ↔ supported_width size = true) ∧
  (is_Some (write_cb m addr data size) ↔ supported_width size = true).
Proof.
  unfold read_cb, write_cb, supported_width, is_Some.
  destruct size as [| p | p]; cbn;
    repeat match goal with
           | |- context [match ?q with xI _ => _ | xO _ => _ | xH => _ end] =>
               destruct q; cbn
           end;
    repeat split; intros; try discriminate; try reflexivity;
    try (eexists; reflexivity);
    match goal with H : ∃ _, None = Some _ |- _ => destruct H; discriminate end.
Qed.

(** C4. A read of width 1, 2, 4 or 8 returns in its low half the bytes at
    [addr .. addr+w-1] put together least significant first (byte [i]
    shifted left by [8*i]); every bit above them, and the whole high half,
    is zero. A read of width 16 returns bytes 0..7 in the low half and
    bytes 8..15 in the high half. *)
Theorem read_cb_little_endian (m : mmu_t) (addr : Z) (size : Z) :
  supported_width size = true →
  read_cb m addr size =
    Some (if size =? 16
          then Dma128 (le_value m addr 8) (le_value m (addr + 8) 8)
          else Dma128 (le_value m addr (Z.to_nat size)) 0) ∧
  (size ≠ 16 → 0 ≤ le_value m addr (Z.to_nat size) < 2 ^ (8 * size)).
Proof.
  intros Hs. split.
  - destruct (supported_width_cases size Hs) as [-> | [-> | [-> | [-> | ->]]]];
      cbn [read_cb Z.eqb Pos.eqb]; rewrite ?read_from_dram_le, ?le_value_u64;
      reflexivity.
  - intros _.
    pose proof (le_value_range m addr (Z.to_nat size)) as Hr.
    destruct (supported_width_cases size Hs) as [-> | [-> | [-> | [-> | ->]]]];
      exact Hr.
Qed.

Lemma read_cb_little_endian_witness :
  read_cb (λ a, a) 4096 4 =
    Some (Dma128 (le_value (λ a, a) 4096 4) 0) ∧
  (4 ≠ 16 → 0 ≤ le_value (λ a, a) 4096 4 < 2 ^ (8 * 4)).
Proof. apply (read_cb_little_endian (λ a, a) 4096 4). reflexivity. Defined.

(** C3. Round trip: for a width of 1, 2, 4, 8 or 16 bytes, any address and
    any value that fits the width, the write callback followed by the read
    callback at the same address and width gives the value back. *)
Theorem write_read_roundtrip (m : mmu_t) (addr : Z) (v : dma_data_128_t) (size : Z) :
  supported_width size = true →
  representable size v →
  ∃ m', write_cb m addr v size = Some m' ∧ read_cb m' addr size = Some v.
Proof.
  intros Hs Hv. destruct v as [l h].
  destruct (supported_width_cases size Hs) as [-> | [-> | [-> | [-> | ->]]]];
    cbn in Hv; destruct Hv as [Hl Hh]; eexists; (split; [reflexivity |]);
    cbn [read_cb lo hi].
  - rewrite (read_write_to_dram 1) by (simpl; lia). subst h.
    unfold u8, wrap. rewrite Z.mod_mod, Z.mod_small by (simpl; lia). reflexivity.
  - rewrite (read_write_to_dram 2) by (simpl; lia). subst h.
    unfold u16, wrap. rewrite Z.mod_mod, Z.mod_small by (simpl; lia). reflexivity.
  - rewrite (read_write_to_dram 4) by (simpl; lia). subst h.
    unfold u32, wrap. rewrite Z.mod_mod, Z.mod_small by (simpl; lia). reflexivity.
  - rewrite (read_write_to_dram 8) by (simpl; lia). subst h.
    rewrite Z.mod_small by (simpl; lia). reflexivity.
  - destruct (read_write_16 m addr l h) as [E1 E2]. rewrite E1, E2.
    rewrite !Z.mod_small by lia. reflexivity.
Qed.

Lemma write_read_roundtrip_witness :
  ∃ m', write_cb (λ _, 0) 4096 (Dma128 3735928559 0) 4 = Some m' ∧
        read_cb m' 4096 4 = Some (Dma128 3735928559 0).
Proof.
  apply (write_read_roundtrip (λ _, 0) 4096 (Dma128 3735928559 0) 4).
  - reflexivity.
  - unfold representable. simpl. lia.
Defined.

End AdapterFacts.

(** ** Session lifecycle and command channel *)

Module IpcFacts.
Import Adapter Wire Ipc.

#[local] Arguments close : simpl never.
#[local] Arguments init : simpl never.

(** Symbolic execution of the client code on a world given by its fields:
    call by value, so that each step works on records in normal form. *)
Ltac exec :=
  cbv beta iota zeta delta
    [init close start_dma_handler send_cmd_request recv_cmd_response
     recv_header send_and_wait set_dma_callbacks run_op new_world
     SocketClient_new
     sys sys_close sys_thread upd os_call os_log set_mem
     set_cmd_sock_fd set_dma_read_sock_fd set_dma_write_sock_fd
     set_socket_initialized set_dma_handler_running
     client env cmd_sock_fd dma_read_sock_fd dma_write_sock_fd
     socket_initialized dma_handler_running dma_read_cb dma_write_cb
     peer tick trace mem fst snd negb
     session_inv session_ready session_closed].

Tactic Notation "exec" "in" hyp(H) :=
  cbv beta iota zeta delta
    [init close start_dma_handler send_cmd_request recv_cmd_response
     recv_header send_and_wait set_dma_callbacks run_op new_world
     SocketClient_new
     sys sys_close sys_thread upd os_call os_log set_mem
     set_cmd_sock_fd set_dma_read_sock_fd set_dma_write_sock_fd
     set_socket_initialized set_dma_handler_running
     client env cmd_sock_fd dma_read_sock_fd dma_write_sock_fd
     socket_initialized dma_handler_running dma_read_cb dma_write_cb
     peer tick trace mem fst snd negb
     session_inv session_ready session_closed] in H.

Ltac split_ifs :=
  repeat match goal with
         | |- context [if ?b then _ else _] =>
             let E := fresh "E" in destruct b eqn:E
         end.

Ltac split_ifs_in H :=
  repeat match type of H with
         | context [if ?b then _ else _] =>
             let E := fresh "E" in destruct b eqn:E
         end.

Ltac z_bools :=
  repeat match goal with
         | H : (_ <? _) = true |- _ => apply Z.ltb_lt in H
         | H : (_ <? _) = false |- _ => apply Z.ltb_ge in H
         | H : (_ <=? _) = true |- _ => apply Z.leb_le in H
         | H : (_ <=? _) = false |- _ => apply Z.leb_gt in H
         | H : (_ =? _) = true |- _ => apply Z.eqb_eq in H
         | H : (_ =? _) = false |- _ => apply Z.eqb_neq in H
         end.

(** After [close] the session is closed and the loops are told to stop. *)
Lemma close_closed (w : world) :
  session_closed (client (close w)) ∧
  dma_handler_running (client (close w)) = false.
Proof.
  destruct w as [[c r wr si run rcb wcb] e].
  exec. split_ifs; exec; z_bools; lia.
Qed.

(** [init] either succeeds and leaves the session ready, or fails and
    leaves it closed. *)
Lemma init_result (w : world) (b : bool) (w' : world) :
  session_inv (client w) → init w = (b, w') →
  (b = true ∧ session_ready (client w')) ∨
  (b = false ∧ session_closed (client w')).
Proof.
  destruct w as [[c r wr si run rcb wcb] [p t tr m]].
  intros Hinv H. exec in Hinv. exec in H. split_ifs_in H.
  all: inversion H; subst; clear H; exec; z_bools.
  all: intuition (try discriminate; try lia).
Qed.

Lemma run_op_inv (o : op) (w : world) :
  session_inv (client w) → session_inv (client (run_op o w)).
Proof.
  intros Hinv. destruct o; unfold run_op.
  - destruct (init w) as [b w'] eqn:E.
    destruct (init_result w b w' Hinv E) as [[_ Hr] | [_ Hc]];
      [left | right]; assumption.
  - right. apply close_closed.
Qed.

Lemma run_ops_inv (ops : list op) (w : world) :
  session_inv (client w) → session_inv (client (run_ops ops w)).
Proof.
  revert w. induction ops as [| o ops IH]; intros w Hinv; [exact Hinv |].
  unfold run_ops. cbn [fold_left]. apply IH. apply run_op_inv. exact Hinv.
Qed.

(** A failed [init] has closed every socket it had opened. *)
Lemma init_rollback (w : world) (w' : world) :
  session_inv (client w) → init w = (false, w') →
  ∃ evs, trace (env w') = trace (env w) ++ evs ∧
         ∀ fd, 0 ≤ fd → In (EvSocket fd) evs → In (EvClose fd) evs.
Proof.
  destruct w as [[c r wr si run rcb wcb] [p t tr m]].
  intros Hinv H. exec in Hinv. exec in H. split_ifs_in H.
  all: inversion H; subst; clear H; exec; z_bools.
  all: rewrite <- ?app_assoc; eexists; (split; [reflexivity |]).
  all: intros fd Hfd Hin; cbn in Hin |- *.
  all: repeat match goal with
              | H : _ ∨ _ |- _ => destruct H
              | H : False |- _ => destruct H
              | H : EvSocket _ = EvSocket _ |- _ => inversion H; subst; clear H
              | H : _ = EvSocket _ |- _ => discriminate H
              end.
  all: try lia; tauto.
Qed.

(** When the DMA-write connection is refused, the command and the DMA-read
    sockets are closed again and the dispatch returns 0 without sending. *)
Example refused_dma_write_connection :
  fst (send_and_wait 24 4096 0 (new_world refusing_peer (λ _, 0))) = 0 ∧
  client (snd (send_and_wait 24 4096 0 (new_world refusing_peer (λ _, 0))))
  = SocketClient_new ∧
  trace (env (snd (send_and_wait 24 4096 0 (new_world refusing_peer (λ _, 0)))))
  = [EvSocket 3; EvInetPton 1; EvConnect 3 SOCKET_CMD_PORT 0;
     EvSocket 4; EvConnect 4 SOCKET_DMA_READ_PORT 0;
     EvSocket 5; EvConnect 5 SOCKET_DMA_WRITE_PORT (-1);
     EvClose 3; EvClose 4; EvClose 5].
Proof. split_and!; vm_compute; reflexivity. Qed.

(** A dispatch on a fresh client in front of a willing peer. *)
Example first_dispatch :
  fst (send_and_wait 24 4096 0 (new_world (willing_peer 42) (λ _, 0))) = 42 ∧
  trace (env (snd (send_and_wait 24 4096 0 (new_world (willing_peer 42) (λ _, 0)))))
  = [EvSocket 3; EvInetPton 1; EvConnect 3 SOCKET_CMD_PORT 0;
     EvSocket 4; EvConnect 4 SOCKET_DMA_READ_PORT 0;
     EvSocket 5; EvConnect 5 SOCKET_DMA_WRITE_PORT 0;
     EvThread DmaReadThread; EvThread DmaWriteThread;
     EvSend 3 (SentCmdReq (CmdReq (MsgHeader MSG_TYPE_CMD_REQ 0) 24 0 4096 0)) 32;
     EvRecv 3 8 false 8].
Proof. split; vm_compute; reflexivity. Qed.

(** What one [init] does on a session that is not ready: the calls it
    makes, and how their results decide its own. *)
Lemma init_steps (w : world) :
  session_inv (client w) →
  ∃ evs, trace (env (snd (init w))) = trace (env w) ++ evs ∧
    (existsb is_failed_step evs = true → fst (init w) = false) ∧
    (fst (init w) = false →
     ∃ pre e closes,
       evs = pre ++ e :: closes ∧ is_failed_step e = true ∧
       Forall (λ x, is_failed_step x = false) pre ∧
       Forall (λ x, is_close x = true) closes).
Proof.
  destruct w as [[c r wr si run rcb wcb] [p t tr m]].
  intros Hinv. exec in Hinv. exec. split_ifs; exec.
  all: rewrite <- ?app_assoc; cbn [app].
  all: first [ eexists; split; [reflexivity |]
             | exists []; split; [symmetry; apply app_nil_r |] ].
  all: cbn [existsb is_failed_step orb].
  all: repeat match goal with
              | H : ?b = _ |- context [?b] => rewrite H
              end; cbn [orb].
  all: split; [first [reflexivity | intros; discriminate] |].
  all: first [ intros; discriminate | intros _ ].
  all: match goal with
       | |- ∃ pre e closes, ?l = _ ∧ _ =>
           first
             [ exists (firstn 0 l), (nth 0 l (EvClose 0)), (skipn 1 l);
               cbn [firstn nth skipn app is_failed_step];
               split_and!; [reflexivity | assumption | repeat constructor; assumption
                           | repeat constructor]
             | exists (firstn 1 l), (nth 1 l (EvClose 0)), (skipn 2 l);
               cbn [firstn nth skipn app is_failed_step];
               split_and!; [reflexivity | assumption | repeat constructor; assumption
                           | repeat constructor]
             | exists (firstn 2 l), (nth 2 l (EvClose 0)), (skipn 3 l);
               cbn [firstn nth skipn app is_failed_step];
               split_and!; [reflexivity | assumption | repeat constructor; assumption
                           | repeat constructor]
             | exists (firstn 3 l), (nth 3 l (EvClose 0)), (skipn 4 l);
               cbn [firstn nth skipn app is_failed_step];
               split_and!; [reflexivity | assumption | repeat constructor; assumption
                           | repeat constructor]
             | exists (firstn 4 l), (nth 4 l (EvClose 0)), (skipn 5 l);
               cbn [firstn nth skipn app is_failed_step];
               split_and!; [reflexivity | assumption | repeat constructor; assumption
                           | repeat constructor]
             | exists (firstn 5 l), (nth 5 l (EvClose 0)), (skipn 6 l);
               cbn [firstn nth skipn app is_failed_step];
               split_and!; [reflexivity | assumption | repeat constructor; assumption
                           | repeat constructor]
             | exists (firstn 6 l), (nth 6 l (EvClose 0)), (skipn 7 l);
               cbn [firstn nth skipn app is_failed_step];
               split_and!; [reflexivity | assumption | repeat constructor; assumption
                           | repeat constructor] ]
       end.
Qed.

(** C2. All or nothing: whatever sequence of [init] and [close] a fresh
    client goes through, against any peer, afterwards either the session is
    ready and its three handles are valid, or it is not ready and its three
    handles are invalid. In particular, a further [init] fails as soon as
    one of its connection steps fails ([socket], [inet_pton] or [connect],
    for any of the three channels): the failed step is the last one it
    attempts, only [::close] calls follow, every socket it opened has been
    closed again, and the session is not ready; when no step fails, [init]
    succeeds and the session is ready. *)
Theorem all_or_nothing (p : peer_t) (m : mmu_t) (ops : list op) :
  let w := run_ops ops (new_world p m) in
  session_inv (client w) ∧
  ∃ evs, trace (env (snd (init w))) = trace (env w) ++ evs ∧
    (existsb is_failed_step evs = true → fst (init w) = false) ∧
    (fst (init w) = false →
     session_closed (client (snd (init w))) ∧
     (∃ pre e closes,
        evs = pre ++ e :: closes ∧ is_failed_step e = true ∧
        Forall (λ x, is_failed_step x = false) pre ∧
        Forall (λ x, is_close x = true) closes) ∧
     ∀ fd, 0 ≤ fd → In (EvSocket fd) evs → In (EvClose fd) evs) ∧
    (fst (init w) = true → session_ready (client (snd (init w)))).
Proof.
  intros w.
  assert (Hinv : session_inv (client w)).
  { apply run_ops_inv. right. exec. repeat split; lia. }
  split; [exact Hinv |].
  destruct (init_steps w Hinv) as (evs & Ht & Hfail & Hshape).
  exists evs. split; [exact Ht |]. split; [exact Hfail |].
  destruct (init w) as [b w'] eqn:E. cbn [fst snd] in *.
  split.
  - intros ->.
    destruct (init_result w false w' Hinv E) as [[Hb _] | [_ Hc]];
      [discriminate |].
    split; [exact Hc |]. split; [apply Hshape; reflexivity |].
    destruct (init_rollback w w' Hinv E) as (evs' & Ht' & Hclosed).
    rewrite Ht in Ht'. apply app_inv_head in Ht'. subst evs'. exact Hclosed.
  - intros ->.
    destruct (init_result w true w' Hinv E) as [[_ Hr] | [Hb _]];
      [exact Hr | discriminate].
Qed.

(** On a closed session whose loops are stopped, [close] does nothing. *)
Lemma close_noop (w : world) :
  session_closed (client w) → dma_handler_running (client w) = false →
  close w = w.
Proof.
  destruct w as [[c r wr si run rcb wcb] e].
  unfold session_closed. cbn. intros (-> & Hc & Hr & Hw) ->.
  assert (Ec : (0 <=? c) = false) by (apply Z.leb_gt; exact Hc).
  assert (Er : (0 <=? r) = false) by (apply Z.leb_gt; exact Hr).
  assert (Ew : (0 <=? wr) = false) by (apply Z.leb_gt; exact Hw).
  exec. rewrite Ec, Er, Ew. reflexivity.
Qed.

(** C8. [close] is idempotent: after one [close] the session is not ready,
    its three handles are invalid and the DMA loops are told to stop; a
    second [close] changes nothing, and closes no socket. *)
Theorem close_idempotent (w : world) :
  close (close w) = close w ∧
  session_closed (client (close w)) ∧
  dma_handler_running (client (close w)) = false.
Proof.
  pose proof (close_closed w) as [Hc Hr].
  split; [| split; assumption].
  apply close_noop; assumption.
Qed.

(** What [close] does to the environment: it only adds its [::close]
    calls to the trace. *)
Lemma close_env (w : world) :
  env (close w) =
  Env (peer (env w)) (tick (env w))
      (trace (env w) ++ close_events (client w)) (mem (env w)).
Proof.
  destruct w as [[c r wr si run rcb wcb] [p t tr m]].
  unfold close_events. exec.
  destruct (0 <=? c), (0 <=? r), (0 <=? wr); exec; cbn [app];
    rewrite <- ?app_assoc, ?app_nil_r; reflexivity.
Qed.

Lemma close_events_quiet (c : SocketClient) :
  Forall (λ e, is_connect_attempt e = false ∧ is_send e = false) (close_events c).
Proof.
  unfold close_events.
  destruct (0 <=? cmd_sock_fd c), (0 <=? dma_read_sock_fd c),
    (0 <=? dma_write_sock_fd c); cbn [app]; repeat constructor.
Qed.

(** [init] on a ready session does nothing. *)
Lemma init_ready (w : world) :
  socket_initialized (client w) = true → init w = (true, w).
Proof. intros Hr. unfold init. rewrite Hr. reflexivity. Qed.

(** [init] leaves the peer alone and sends nothing. *)
Lemma init_env (w : world) :
  peer (env (snd (init w))) = peer (env w) ∧
  ∃ evs, trace (env (snd (init w))) = trace (env w) ++ evs ∧
         Forall (λ e, is_send e = false) evs.
Proof.
  destruct w as [[c r wr si run rcb wcb] [p t tr m]].
  exec. split_ifs; exec; (split; [reflexivity |]).
  all: rewrite <- ?app_assoc;
    first [ eexists; split; [reflexivity | repeat constructor]
          | exists []; split; [symmetry; apply app_nil_r | constructor] ].
Qed.

(** The auto-connect of [send_and_wait] is one call of [init]. *)
Lemma send_and_wait_init (funct xs1 xs2 : Z) (w : world) :
  send_and_wait funct xs1 xs2 w =
  let '(connected, w) := init w in
  if negb connected then (0, w)
  else
    let cmd_req := CmdReq (MsgHeader MSG_TYPE_CMD_REQ 0) funct 0 xs1 xs2 in
    let '(ok, w) := send_cmd_request cmd_req w in
    if negb ok then (0, w)
    else
      let '(ok, cmd_resp, w) := recv_cmd_response w in
      if negb ok then (0, w) else (result cmd_resp, w).
Proof.
  unfold send_and_wait.
  destruct (socket_initialized (client w)) eqn:Hr; [| reflexivity].
  rewrite (init_ready w Hr). reflexivity.
Qed.

(** The two outcomes of [send_cmd_request] on a valid handle. *)
Lemma send_cmd_request_cases (req : cmd_req_t) (w : world) :
  0 ≤ cmd_sock_fd (client w) →
  let sent := os_ret (peer (env w)) (tick (env w)) in
  let w1 := snd (sys (EvSend (cmd_sock_fd (client w)) (SentCmdReq req)) w) in
  (sent < 0 ∧ send_cmd_request req w = (false, close w1)) ∨
  (0 ≤ sent ∧ send_cmd_request req w = (true, w1)).
Proof.
  destruct w as [[c r wr si run rcb wcb] [p t tr m]]. cbn. intros Hc.
  unfold send_cmd_request. cbn.
  destruct (c <? 0) eqn:Ec; [apply Z.ltb_lt in Ec; lia |].
  destruct (os_ret p t <? 0) eqn:Es; z_bools; [left | right]; split;
    try lia; reflexivity.
Qed.

(** The two outcomes of [recv_cmd_response] on a valid handle. *)
Lemma recv_cmd_response_cases (w : world) :
  0 ≤ cmd_sock_fd (client w) →
  let received := os_ret (peer (env w)) (tick (env w)) in
  let resp := peer_cmd_resp (peer (env w)) (tick (env w)) in
  let w1 :=
    snd (sys (EvRecv (cmd_sock_fd (client w)) sizeof_cmd_resp_t false) w) in
  (received < sizeof_cmd_resp_t ∧
   recv_cmd_response w = (false, resp, close w1)) ∨
  (sizeof_cmd_resp_t ≤ received ∧ recv_cmd_response w = (true, resp, w1)).
Proof.
  destruct w as [[c r wr si run rcb wcb] [p t tr m]]. cbn. intros Hc.
  unfold recv_cmd_response, sizeof_cmd_resp_t. cbn.
  destruct (c <? 0) eqn:Ec; [apply Z.ltb_lt in Ec; lia |].
  destruct (os_ret p t <? 0) eqn:E1; [z_bools; left; split; [lia | reflexivity] |].
  destruct (os_ret p t =? 0) eqn:E2; [z_bools; left; split; [lia | reflexivity] |].
  destruct (os_ret p t <? 8) eqn:E3; z_bools; [left | right]; split;
    try lia; reflexivity.
Qed.

(** The four ways a dispatch can go: the connect attempt fails (a), the
    send fails (b), the receive fails or is short (c), or the exchange
    succeeds (d). *)
Lemma send_and_wait_cases (funct xs1 xs2 : Z) (w : world) :
  session_inv (client w) →
  let req := CmdReq (MsgHeader MSG_TYPE_CMD_REQ 0) funct 0 xs1 xs2 in
  let w1 := snd (init w) in
  let fd := cmd_sock_fd (client w1) in
  let sent := os_ret (peer (env w1)) (tick (env w1)) in
  let received := os_ret (peer (env w1)) (S (tick (env w1))) in
  let resp := peer_cmd_resp (peer (env w1)) (S (tick (env w1))) in
  let sw := send_and_wait funct xs1 xs2 w in
  (fst (init w) = false ∧ sw = (0, w1) ∧ session_closed (client w1)) ∨
  (fst (init w) = true ∧ sent < 0 ∧
   fst sw = 0 ∧ session_closed (client (snd sw)) ∧
   trace (env (snd sw)) =
     trace (env w1) ++ EvSend fd (SentCmdReq req) sent :: close_events (client w1)) ∨
  (fst (init w) = true ∧ 0 ≤ sent ∧ received < sizeof_cmd_resp_t ∧
   fst sw = 0 ∧ session_closed (client (snd sw)) ∧
   trace (env (snd sw)) =
     trace (env w1) ++ EvSend fd (SentCmdReq req) sent
       :: EvRecv fd sizeof_cmd_resp_t false received :: close_events (client w1)) ∨
  (fst (init w) = true ∧ 0 ≤ sent ∧ sizeof_cmd_resp_t ≤ received ∧
   fst sw = result resp ∧ client (snd sw) = client w1 ∧
   trace (env (snd sw)) =
     trace (env w1) ++ [EvSend fd (SentCmdReq req) sent;
                        EvRecv fd sizeof_cmd_resp_t false received]).
Proof.
  intros Hinv. cbv zeta. rewrite send_and_wait_init.
  destruct (init w) as [b w1] eqn:Ei. cbn [fst snd].
  destruct (init_result w b w1 Hinv Ei) as [[-> Hready] | [-> Hclosed]].
  2: { left. cbn. auto. }
  right. cbn [negb].
  assert (Hfd : 0 ≤ cmd_sock_fd (client w1)) by (destruct Hready; tauto).
  destruct (send_cmd_request_cases
              (CmdReq (MsgHeader MSG_TYPE_CMD_REQ 0) funct 0 xs1 xs2) w1 Hfd)
    as [[Hs ->] | [Hs ->]]; cbn [negb fst snd].
  { left. split_and!; try assumption; try reflexivity.
    - apply close_closed.
    - rewrite close_env. destruct w1 as [c1 [p t tr m]]. cbn.
      rewrite <- app_assoc. reflexivity. }
  right.
  destruct w1 as [c1 [p t tr m]]. cbn in Hfd, Hs |- *.
  match goal with
  | |- context [recv_cmd_response ?w2] =>
      destruct (recv_cmd_response_cases w2 Hfd) as [[Hr E] | [Hr E]];
        cbn in Hr, E; rewrite E; cbn
  end.
  - left. split_and!; try assumption; try reflexivity.
    + apply close_closed.
    + rewrite close_env. cbn. rewrite <- !app_assoc. reflexivity.
  - right. split_and!; try assumption; try reflexivity.
    rewrite <- !app_assoc. reflexivity.
Qed.

(** On a session that is not ready [init] does make an attempt: its first
    action is to open the command socket. *)
Lemma init_attempt (w : world) :
  socket_initialized (client w) = false →
  ∃ fd rest, trace (env (snd (init w))) = trace (env w) ++ EvSocket fd :: rest.
Proof.
  destruct w as [[c r wr si run rcb wcb] [p t tr m]]. cbn. intros ->.
  exec. split_ifs; exec; rewrite <- ?app_assoc; do 2 eexists; reflexivity.
Qed.

Lemma close_events_no_connect (c : SocketClient) :
  Forall (λ e, is_connect_attempt e = false) (close_events c).
Proof.
  eapply Forall_impl; [apply close_events_quiet |]. cbn. tauto.
Qed.

Lemma close_events_no_send (c : SocketClient) :
  List.filter is_send (close_events c) = [].
Proof.
  pose proof (close_events_quiet c) as H.
  induction H as [| e l [_ He] _ IH]; [reflexivity |].
  cbn. rewrite He. exact IH.
Qed.

(** C1. A dispatch on a session that is not ready makes one connect attempt
    (one run of [init]) and no further one; on a ready session it makes
    none. When the connect attempt fails, or the send fails, or the
    response is not received in full, the whole session is closed (ready
    flag cleared, the three handles invalid) and the call returns 0.
    Otherwise it returns the [result] field of the response as it
    arrived. *)
Theorem send_and_wait_contract (funct xs1 xs2 : Z) (w : world) :
  session_inv (client w) →
  let w1 := snd (init w) in
  let sent := os_ret (peer (env w1)) (tick (env w1)) in
  let received := os_ret (peer (env w1)) (S (tick (env w1))) in
  let resp := peer_cmd_resp (peer (env w1)) (S (tick (env w1))) in
  let res := fst (send_and_wait funct xs1 xs2 w) in
  let w' := snd (send_and_wait funct xs1 xs2 w) in
  (socket_initialized (client w) = true → w1 = w) ∧
  (socket_initialized (client w) = false →
   ∃ fd rest, trace (env w1) = trace (env w) ++ EvSocket fd :: rest) ∧
  (∃ evs, trace (env w') = trace (env w1) ++ evs ∧
          Forall (λ e, is_connect_attempt e = false) evs) ∧
  (fst (init w) = false ∨ sent < 0 ∨ received < sizeof_cmd_resp_t →
   res = 0 ∧ session_closed (client w')) ∧
  (fst (init w) = true ∧ 0 ≤ sent ∧ sizeof_cmd_resp_t ≤ received →
   res = result resp ∧ session_ready (client w')).
Proof.
  intros Hinv. cbv zeta.
  assert (Hsucc : fst (init w) = true → session_ready (client (snd (init w)))).
  { destruct (init w) as [b w1] eqn:Ei. cbn. intros ->.
    destruct (init_result w true w1 Hinv Ei) as [[_ Hr] | [Hb _]];
      [exact Hr | discriminate]. }
  split_and!.
  - intros Hr. rewrite (init_ready w Hr). reflexivity.
  - apply init_attempt.
  - destruct (send_and_wait_cases funct xs1 xs2 w Hinv)
      as [(_ & E & _) | [(_ & _ & _ & _ & E) | [(_ & _ & _ & _ & _ & E)
         | (_ & _ & _ & _ & _ & E)]]].
    + rewrite E. exists []. cbn. rewrite app_nil_r. split; constructor.
    + eexists. split; [exact E |].
      constructor; [reflexivity | apply close_events_no_connect].
    + eexists. split; [exact E |].
      do 2 (constructor; [reflexivity |]). apply close_events_no_connect.
    + eexists. split; [exact E |]. repeat constructor.
  - intros Hfail.
    destruct (send_and_wait_cases funct xs1 xs2 w Hinv)
      as [(_ & E & Hc) | [(_ & _ & E & Hc & _) | [(_ & _ & _ & E & Hc & _)
         | (Hi & Hs & Hr & _)]]].
    + rewrite E. cbn. split; [reflexivity | exact Hc].
    + split; assumption.
    + split; assumption.
    + destruct Hfail as [Hf | [Hf | Hf]]; [congruence | lia | lia].
  - intros (Hi & Hs & Hr).
    destruct (send_and_wait_cases funct xs1 xs2 w Hinv)
      as [(Hi' & _) | [(_ & Hs' & _) | [(_ & _ & Hr' & _)
         | (_ & _ & _ & E & Ec & _)]]]; try congruence; try lia.
    split; [exact E |]. rewrite Ec. apply Hsucc. exact Hi.
Qed.

Lemma send_and_wait_contract_witness :
  session_inv (client (new_world (willing_peer 42) (λ _, 0))) ∧
  fst (send_and_wait 24 4096 0 (new_world (willing_peer 42) (λ _, 0))) = 42 ∧
  session_ready
    (client (snd (send_and_wait 24 4096 0 (new_world (willing_peer 42) (λ _, 0))))).
Proof.
  assert (Hinv : session_inv (client (new_world (willing_peer 42) (λ _, 0)))).
  { right. unfold session_closed. cbn. lia. }
  split; [exact Hinv |].
  destruct (send_and_wait_contract 24 4096 0 _ Hinv) as (_ & _ & _ & _ & Hok).
  apply Hok. vm_compute. split_and!; [reflexivity | discriminate | discriminate].
Defined.

(** C9. The request a dispatch puts on the command channel is determined
    by its three arguments alone: message type [MSG_TYPE_CMD_REQ], header
    reserved field 0, the function selector, padding 0 and the two
    operands as given. A dispatch sends exactly one such record once the
    session is connected, and nothing when the connect attempt fails. *)
Theorem cmd_request_encoding (funct xs1 xs2 : Z) (w : world) :
  session_inv (client w) →
  let req := CmdReq (MsgHeader MSG_TYPE_CMD_REQ 0) funct 0 xs1 xs2 in
  let w1 := snd (init w) in
  let w' := snd (send_and_wait funct xs1 xs2 w) in
  ∃ evs, trace (env w') = trace (env w) ++ evs ∧
    List.filter is_send evs =
      if fst (init w)
      then [EvSend (cmd_sock_fd (client w1)) (SentCmdReq req)
                   (os_ret (peer (env w1)) (tick (env w1)))]
      else [].
Proof.
  intros Hinv. cbv zeta.
  destruct (init_env w) as (_ & ievs & Ei & Hq).
  assert (Hnone : List.filter is_send ievs = []).
  { clear Ei. induction Hq as [| e l He _ IH]; [reflexivity |].
    cbn. rewrite He. exact IH. }
  destruct (send_and_wait_cases funct xs1 xs2 w Hinv)
    as [(Hi & E & _) | [(Hi & _ & _ & _ & E) | [(Hi & _ & _ & _ & _ & E)
       | (Hi & _ & _ & _ & _ & E)]]]; rewrite Hi.
  - rewrite E. cbn [snd]. exists ievs. split; assumption.
  - eexists. rewrite E, Ei, <- app_assoc. split; [reflexivity |].
    rewrite List.filter_app, Hnone. cbn. rewrite close_events_no_send.
    reflexivity.
  - eexists. rewrite E, Ei, <- app_assoc. split; [reflexivity |].
    rewrite List.filter_app, Hnone. cbn. rewrite close_events_no_send.
    reflexivity.
  - eexists. rewrite E, Ei, <- app_assoc. split; [reflexivity |].
    rewrite List.filter_app, Hnone. reflexivity.
Qed.

Lemma cmd_request_encoding_witness :
  session_inv (client (new_world (willing_peer 7) (λ _, 0))) ∧
  ∃ evs,
    trace (env (snd (send_and_wait 24 4096 33 (new_world (willing_peer 7) (λ _, 0)))))
      = [] ++ evs ∧
    List.filter is_send evs =
      [EvSend 3 (SentCmdReq (CmdReq (MsgHeader MSG_TYPE_CMD_REQ 0) 24 0 4096 33)) 32].
Proof.
  assert (Hinv : session_inv (client (new_world (willing_peer 7) (λ _, 0)))).
  { right. unfold session_closed. cbn. lia. }
  split; [exact Hinv |].
  exact (cmd_request_encoding 24 4096 33 _ Hinv).
Defined.

End IpcFacts.

(** ** DMA responder loops *)

Module DmaFacts.
Import Adapter Wire Ipc Dma IpcFacts.

#[local] Arguments close : simpl never.

Ltac exec_dma_in H :=
  cbv beta iota zeta delta
    [recv_dma_read_request recv_dma_write_request
     send_dma_read_response send_dma_write_response
     handle_dma_read handle_dma_write
     sys upd os_call os_log set_mem
     client env cmd_sock_fd dma_read_sock_fd dma_write_sock_fd
     socket_initialized dma_handler_running dma_read_cb dma_write_cb
     peer tick trace mem fst snd negb andb] in H.

Ltac step_in H :=
  exec_dma_in H;
  match type of H with
  | context [if ?b then _ else _] =>
      let E := fresh "E" in destruct b eqn:E
  | context [match ?x with Some _ => _ | None => _ end] =>
      let E := fresh "E" in destruct x eqn:E
  end.

Lemma close_events_closes (c : SocketClient) :
  Forall (λ e, is_close e = true) (close_events c).
Proof.
  unfold close_events.
  destruct (0 <=? cmd_sock_fd c), (0 <=? dma_read_sock_fd c),
    (0 <=? dma_write_sock_fd c); cbn [app]; repeat constructor.
Qed.

Ltac proj :=
  cbn [client env cmd_sock_fd dma_read_sock_fd dma_write_sock_fd
       socket_initialized dma_handler_running dma_read_cb dma_write_cb
       peer tick trace mem] in *.

Lemma close_events_no_thread (c : SocketClient) :
  Forall (λ e, is_thread_start e = false) (close_events c).
Proof.
  unfold close_events.
  destruct (0 <=? cmd_sock_fd c), (0 <=? dma_read_sock_fd c),
    (0 <=? dma_write_sock_fd c); cbn [app]; repeat constructor.
Qed.

(** A leaf of the case analysis where the loop has ended. *)
Ltac loop_end H :=
  inversion H; subst; clear H; rewrite ?close_env; proj;
  rewrite <- ?app_assoc;
  split_and!;
  [ eexists; split; [reflexivity |]; cbn [app]; z_bools;
    first [ solve [eapply read_run_recv_fail; lia]
          | solve [eapply read_run_abort; first [lia | eassumption]]
          | solve [eapply read_run_send_fail; first [lia | eassumption]]
          | solve [eapply write_run_recv_fail; lia]
          | solve [eapply write_run_abort; first [lia | eassumption]]
          | solve [eapply write_run_send_fail; first [lia | eassumption]] ]
  | first [ intros; discriminate | intros _; apply close_closed ] ].

Lemma read_loop_run (len : Z) (fuel : nat) :
  ∀ (w : world) (st : loop_exit) (w' : world) (cb : dma_read_cb_t),
  dma_read_cb (client w) = Some cb →
  read_serving (client w) →
  dma_read_handler_thread len fuel w = (st, w') →
  (∃ evs, trace (env w') = trace (env w) ++ evs ∧
          read_run cb (mem (env w)) (client w) len
                   (peer (env w)) fuel st (tick (env w)) evs) ∧
  (st = LoopReturned →
   session_closed (client w') ∧ dma_handler_running (client w') = false).
Proof.
  induction fuel as [| fuel IH]; intros w st w' cb Hcb Hs H.
  - cbn in H. inversion H; subst; clear H. split; [| intros; discriminate].
    exists []. split; [symmetry; apply app_nil_r | constructor].
  - destruct w as [[c r wr si run rcb wcb] [p t tr m]].
    destruct Hs as (Hrun & Hsi & Hfd).
    proj. subst rcb run si. cbn [dma_read_handler_thread] in H. proj.
    cbn [andb] in H.
    destruct (0 <=? r) eqn:Er; [| z_bools; lia].
    repeat step_in H.
    all: exec_dma_in H; z_bools; try lia.
    all: try solve [loop_end H].
    apply IH with (cb := cb) in H; [| reflexivity | repeat split; assumption].
    destruct H as ((evs & Ht & Hrun) & Hclosed). proj.
    split; [| exact Hclosed].
    eexists. split.
    + rewrite Ht, <- !app_assoc. reflexivity.
    + cbn [app]. eapply read_run_round; first [lia | eassumption].
Qed.

Lemma write_loop_run (len : Z) (fuel : nat) :
  ∀ (w : world) (st : loop_exit) (w' : world) (cb : dma_write_cb_t),
  dma_write_cb (client w) = Some cb →
  write_serving (client w) →
  dma_write_handler_thread len fuel w = (st, w') →
  (∃ evs, trace (env w') = trace (env w) ++ evs ∧
          write_run cb (client w) len
                    (peer (env w)) fuel st (tick (env w)) (mem (env w)) evs) ∧
  (st = LoopReturned →
   session_closed (client w') ∧ dma_handler_running (client w') = false).
Proof.
  induction fuel as [| fuel IH]; intros w st w' cb Hcb Hs H.
  - cbn in H. inversion H; subst; clear H. split; [| intros; discriminate].
    exists []. split; [symmetry; apply app_nil_r | constructor].
  - destruct w as [[c r wr si run rcb wcb] [p t tr m]].
    destruct Hs as (Hrun & Hsi & Hfd).
    proj. subst wcb run si. cbn [dma_write_handler_thread] in H. proj.
    cbn [andb] in H.
    destruct (0 <=? wr) eqn:Er; [| z_bools; lia].
    repeat step_in H.
    all: exec_dma_in H; z_bools; try lia.
    all: try solve [loop_end H].
    apply IH with (cb := cb) in H; [| reflexivity | repeat split; assumption].
    destruct H as ((evs & Ht & Hrun) & Hclosed). proj.
    split; [| exact Hclosed].
    eexists. split.
    + rewrite Ht, <- !app_assoc. reflexivity.
    + cbn [app]. eapply write_run_round; first [lia | eassumption].
Qed.

(** A run starts no thread. *)
Lemma read_run_no_thread cb m c len p n st t evs :
  read_run cb m c len p n st t evs →
  Forall (λ e, is_thread_start e = false) evs.
Proof.
  induction 1; repeat (constructor; [reflexivity |]);
    first [assumption | apply close_events_no_thread | constructor].
Qed.

Lemma write_run_no_thread cb c len p n st t m evs :
  write_run cb c len p n st t m evs →
  Forall (λ e, is_thread_start e = false) evs.
Proof.
  induction 1; repeat (constructor; [reflexivity |]);
    first [assumption | apply close_events_no_thread | constructor].
Qed.

(** A loop whose condition does not hold returns at once. *)
Lemma read_loop_idle (len : Z) (fuel : nat) (w : world) :
  ¬ read_serving (client w) →
  dma_read_handler_thread len (S fuel) w = (LoopReturned, w).
Proof.
  destruct w as [[c r wr si run rcb wcb] e]. unfold read_serving. proj.
  intros Hn. cbn [dma_read_handler_thread]. proj.
  destruct run, si; cbn [andb]; try reflexivity.
  destruct (0 <=? r) eqn:Er; [| reflexivity].
  z_bools. exfalso. apply Hn. auto.
Qed.

Lemma write_loop_idle (len : Z) (fuel : nat) (w : world) :
  ¬ write_serving (client w) →
  dma_write_handler_thread len (S fuel) w = (LoopReturned, w).
Proof.
  destruct w as [[c r wr si run rcb wcb] e]. unfold write_serving. proj.
  intros Hn. cbn [dma_write_handler_thread]. proj.
  destruct run, si; cbn [andb]; try reflexivity.
  destruct (0 <=? wr) eqn:Er; [| reflexivity].
  z_bools. exfalso. apply Hn. auto.
Qed.

Ltac exec_dma :=
  cbv beta iota zeta delta
    [recv_dma_read_request recv_dma_write_request
     send_dma_read_response send_dma_write_response
     handle_dma_read handle_dma_write
     sys upd os_call os_log set_mem
     client env cmd_sock_fd dma_read_sock_fd dma_write_sock_fd
     socket_initialized dma_handler_running dma_read_cb dma_write_cb
     peer tick trace mem fst snd negb andb].

Ltac step_both H :=
  exec_dma_in H; exec_dma;
  match type of H with
  | context [if ?b then _ else _] =>
      let E := fresh "E" in destruct b eqn:E
  | context [match ?x with Some _ => _ | None => _ end] =>
      let E := fresh "E" in destruct x eqn:E
  end.

(** Once the read-side loop has ended, more rounds change nothing. *)
Lemma read_loop_ended (len : Z) (fuel : nat) :
  ∀ (w : world) (st : loop_exit) (w' : world),
  dma_read_handler_thread len fuel w = (st, w') → st ≠ LoopFuel →
  dma_read_handler_thread len (S fuel) w = (st, w').
Proof.
  induction fuel as [| fuel IH]; intros w st w' H Hst.
  - cbn in H. inversion H; subst. congruence.
  - destruct w as [[c r wr si run rcb wcb] [p t tr m]].
    remember (S fuel) as n eqn:En.
    cbn [dma_read_handler_thread]. rewrite En in H.
    cbn [dma_read_handler_thread] in H.
    destruct run, si; cbn [andb] in H |- *; proj; try exact H.
    destruct (0 <=? r) eqn:Er; [| exact H].
    destruct rcb as [cb |]; repeat step_both H.
    all: exec_dma_in H; exec_dma; try exact H.
    all: subst n; apply IH; assumption.
Qed.

(** Once the write-side loop has ended, more rounds change nothing. *)
Lemma write_loop_ended (len : Z) (fuel : nat) :
  ∀ (w : world) (st : loop_exit) (w' : world),
  dma_write_handler_thread len fuel w = (st, w') → st ≠ LoopFuel →
  dma_write_handler_thread len (S fuel) w = (st, w').
Proof.
  induction fuel as [| fuel IH]; intros w st w' H Hst.
  - cbn in H. inversion H; subst. congruence.
  - destruct w as [[c r wr si run rcb wcb] [p t tr m]].
    remember (S fuel) as n eqn:En.
    cbn [dma_write_handler_thread]. rewrite En in H.
    cbn [dma_write_handler_thread] in H.
    destruct run, si; cbn [andb] in H |- *; proj; try exact H.
    destruct (0 <=? wr) eqn:Er; [| exact H].
    destruct wcb as [cb |]; repeat step_both H.
    all: exec_dma_in H; exec_dma; try exact H.
    all: subst n; apply IH; assumption.
Qed.

Lemma read_loop_more_fuel (len : Z) (fuel fuel' : nat) (w : world) :
  fst (dma_read_handler_thread len fuel w) ≠ LoopFuel → (fuel ≤ fuel')%nat →
  dma_read_handler_thread len fuel' w = dma_read_handler_thread len fuel w.
Proof.
  intros Hst Hle. induction Hle as [| k _ IH]; [reflexivity |].
  destruct (dma_read_handler_thread len fuel w) as [st w'] eqn:E.
  apply read_loop_ended; assumption.
Qed.

Lemma write_loop_more_fuel (len : Z) (fuel fuel' : nat) (w : world) :
  fst (dma_write_handler_thread len fuel w) ≠ LoopFuel → (fuel ≤ fuel')%nat →
  dma_write_handler_thread len fuel' w = dma_write_handler_thread len fuel w.
Proof.
  intros Hst Hle. induction Hle as [| k _ IH]; [reflexivity |].
  destruct (dma_write_handler_thread len fuel w) as [st w'] eqn:E.
  apply write_loop_ended; assumption.
Qed.

(** C5. Each responder loop, read side and write side, on a session that
    is ready and whose loops are marked running, works in rounds: it
    receives one complete request, invokes the installed callback once on
    that request, and sends one response, before it receives the next
    request; it goes on for as long as the rounds are complete. On the
    first failed receive or failed send the loop returns: nothing but the
    teardown's [::close] calls follows, the session is then closed and the
    loops are marked stopped, so that the loop condition no longer holds;
    a loop whose condition does not hold returns at once. The loop starts
    no thread, and running it for more rounds changes nothing. *)
Theorem dma_responder_loops (rlen wlen : Z) (fuel : nat) (w : world)
  (rcb : dma_read_cb_t) (wcb : dma_write_cb_t) :
  dma_read_cb (client w) = Some rcb →
  dma_write_cb (client w) = Some wcb →
  let rd := dma_read_handler_thread rlen fuel w in
  let wt := dma_write_handler_thread wlen fuel w in
  (read_serving (client w) →
   (∃ evs, trace (env (snd rd)) = trace (env w) ++ evs ∧
           read_run rcb (mem (env w)) (client w) rlen
                    (peer (env w)) fuel (fst rd) (tick (env w)) evs ∧
           Forall (λ e, is_thread_start e = false) evs) ∧
   (fst rd = LoopReturned →
    session_closed (client (snd rd)) ∧
    dma_handler_running (client (snd rd)) = false)) ∧
  (write_serving (client w) →
   (∃ evs, trace (env (snd wt)) = trace (env w) ++ evs ∧
           write_run wcb (client w) wlen
                     (peer (env w)) fuel (fst wt) (tick (env w)) (mem (env w)) evs ∧
           Forall (λ e, is_thread_start e = false) evs) ∧
   (fst wt = LoopReturned →
    session_closed (client (snd wt)) ∧
    dma_handler_running (client (snd wt)) = false)) ∧
  (¬ read_serving (client w) →
   dma_read_handler_thread rlen (S fuel) w = (LoopReturned, w)) ∧
  (¬ write_serving (client w) →
   dma_write_handler_thread wlen (S fuel) w = (LoopReturned, w)) ∧
  (fst rd ≠ LoopFuel →
   ∀ fuel', (fuel ≤ fuel')%nat → dma_read_handler_thread rlen fuel' w = rd) ∧
  (fst wt ≠ LoopFuel →
   ∀ fuel', (fuel ≤ fuel')%nat → dma_write_handler_thread wlen fuel' w = wt).
Proof.
  intros Hr Hw. cbv zeta. split_and!.
  - intros Hs.
    destruct (dma_read_handler_thread rlen fuel w) as [st w'] eqn:E.
    destruct (read_loop_run rlen fuel w st w' rcb Hr Hs E)
      as ((evs & Ht & Hrun) & Hclosed).
    split; [| exact Hclosed].
    exists evs. split_and!; [exact Ht | exact Hrun |].
    eapply read_run_no_thread. exact Hrun.
  - intros Hs.
    destruct (dma_write_handler_thread wlen fuel w) as [st w'] eqn:E.
    destruct (write_loop_run wlen fuel w st w' wcb Hw Hs E)
      as ((evs & Ht & Hrun) & Hclosed).
    split; [| exact Hclosed].
    exists evs. split_and!; [exact Ht | exact Hrun |].
    eapply write_run_no_thread. exact Hrun.
  - apply read_loop_idle.
  - apply write_loop_idle.
  - intros Hst fuel' Hle. apply read_loop_more_fuel; assumption.
  - intros Hst fuel' Hle. apply write_loop_more_fuel; assumption.
Qed.

Lemma dma_responder_loops_witness :
  dma_read_cb (client serving_world) = Some read_cb ∧
  dma_write_cb (client serving_world) = Some write_cb ∧
  (∃ evs,
     trace (env (snd (dma_read_handler_thread 16 5 serving_world))) = [] ++ evs ∧
     read_run read_cb (λ _, 0) (client serving_world) 16 one_request_peer 5
              LoopReturned 0 evs ∧
     Forall (λ e, is_thread_start e = false) evs) ∧
  (∃ evs,
     trace (env (snd (dma_write_handler_thread 32 5 serving_world))) = [] ++ evs ∧
     write_run write_cb (client serving_world) 32 one_request_peer 5
               LoopReturned 0 (λ _, 0) evs ∧
     Forall (λ e, is_thread_start e = false) evs).
Proof.
  split; [reflexivity |]. split; [reflexivity |].
  destruct (dma_responder_loops 16 32 5 serving_world read_cb write_cb
              eq_refl eq_refl) as (Hrd & Hwt & _).
  assert (Hs : read_serving (client serving_world))
    by (unfold read_serving; cbn; split_and!; [reflexivity | reflexivity | lia]).
  assert (Hs' : write_serving (client serving_world))
    by (unfold write_serving; cbn; split_and!; [reflexivity | reflexivity | lia]).
  split; [exact (proj1 (Hrd Hs)) | exact (proj1 (Hwt Hs'))].
Defined.

Example serving_world_read_trace :
  fst (dma_read_handler_thread 16 5 serving_world) = LoopReturned ∧
  trace (env (snd (dma_read_handler_thread 16 5 serving_world))) =
    [EvRecv 4 16 false 32;
     EvReadCb 4096 8;
     EvSend 4 (SentDmaReadResp
                 (DmaReadResp (MsgHeader MSG_TYPE_DMA_READ_RESP 0) 0 0)) 24;
     EvRecv 4 16 false 0;
     EvClose 3; EvClose 4; EvClose 5].
Proof. split; vm_compute; reflexivity. Qed.

End DmaFacts.

(** ** Short receives *)

Module ShortReceive.
Import Wire.

#[local] Arguments Ipc.close : simpl never.
#[local] Arguments Legacy.close : simpl never.

(** C6. A receive that returns some bytes but fewer than the record: the
    command-response path of the three-channel client refuses it and
    closes the session, whereas [recv_header] of the same client and
    [recv_response] of the single-socket client accept it, report success
    and leave the session open. *)
Theorem short_receive_divergence (sizeof_msg_header_t : Z)
  (w : Ipc.world) (lw : Legacy.world) :
  let n := os_ret (peer (Ipc.env w)) (tick (Ipc.env w)) in
  let ln := os_ret (peer (Legacy.env lw)) (tick (Legacy.env lw)) in
  0 ≤ Ipc.cmd_sock_fd (Ipc.client w) →
  0 ≤ Legacy.sock_fd (Legacy.client lw) →
  0 < n < sizeof_cmd_resp_t →
  n < sizeof_msg_header_t →
  0 < ln < Legacy.sizeof_socket_resp_t →
  (fst (fst (Ipc.recv_cmd_response w)) = false ∧
   Ipc.session_closed (Ipc.client (snd (Ipc.recv_cmd_response w)))) ∧
  (fst (Ipc.recv_header sizeof_msg_header_t w) = true ∧
   Ipc.client (snd (Ipc.recv_header sizeof_msg_header_t w)) = Ipc.client w) ∧
  (fst (fst (Legacy.recv_response lw)) = true ∧
   Legacy.client (snd (Legacy.recv_response lw)) = Legacy.client lw).
Proof.
  cbv zeta. intros Hfd Hlfd Hn Hh Hln. split_and!.
  - destruct (IpcFacts.recv_cmd_response_cases w Hfd) as [[_ E] | [Hge _]];
      [rewrite E; reflexivity | lia].
  - destruct (IpcFacts.recv_cmd_response_cases w Hfd) as [[_ E] | [Hge _]];
      [rewrite E; apply IpcFacts.close_closed | lia].
  - destruct w as [c [p t tr m]]. cbn in Hfd, Hn |- *.
    unfold Ipc.recv_header. cbn.
    destruct (Ipc.cmd_sock_fd c <? 0) eqn:E0; [apply Z.ltb_lt in E0; lia |].
    destruct (os_ret p t <? 0) eqn:E1; [apply Z.ltb_lt in E1; lia |].
    destruct (os_ret p t =? 0) eqn:E2; [apply Z.eqb_eq in E2; lia |].
    reflexivity.
  - destruct w as [c [p t tr m]]. cbn in Hfd, Hn |- *.
    unfold Ipc.recv_header. cbn.
    destruct (Ipc.cmd_sock_fd c <? 0) eqn:E0; [apply Z.ltb_lt in E0; lia |].
    destruct (os_ret p t <? 0) eqn:E1; [apply Z.ltb_lt in E1; lia |].
    destruct (os_ret p t =? 0) eqn:E2; [apply Z.eqb_eq in E2; lia |].
    reflexivity.
  - destruct lw as [[fd si] [p t tr m] u]. cbn in Hlfd, Hln |- *.
    unfold Legacy.recv_response. cbn.
    destruct (fd <? 0) eqn:E0; [apply Z.ltb_lt in E0; lia |].
    destruct (os_ret p t <? 0) eqn:E1; [apply Z.ltb_lt in E1; lia |].
    destruct (os_ret p t =? 0) eqn:E2; [apply Z.eqb_eq in E2; lia |].
    reflexivity.
  - destruct lw as [[fd si] [p t tr m] u]. cbn in Hlfd, Hln |- *.
    unfold Legacy.recv_response. cbn.
    destruct (fd <? 0) eqn:E0; [apply Z.ltb_lt in E0; lia |].
    destruct (os_ret p t <? 0) eqn:E1; [apply Z.ltb_lt in E1; lia |].
    destruct (os_ret p t =? 0) eqn:E2; [apply Z.eqb_eq in E2; lia |].
    reflexivity.
Qed.

Lemma short_receive_divergence_witness :
  (fst (fst (Ipc.recv_cmd_response
               (Ipc.World (Ipc.Client 3 4 5 true true None None)
                          (Env Legacy.short_peer 0 [] (λ _, 0))))) = false) ∧
  (fst (fst (Legacy.recv_response Legacy.short_world)) = true ∧
   Legacy.client (snd (Legacy.recv_response Legacy.short_world))
   = Legacy.Client 3 true).
Proof.
  destruct (short_receive_divergence 8
              (Ipc.World (Ipc.Client 3 4 5 true true None None)
                         (Env Legacy.short_peer 0 [] (λ _, 0)))
              Legacy.short_world)
    as ((Hhost & _) & _ & Hlegacy).
  - cbn. lia.
  - cbn. lia.
  - cbn. unfold sizeof_cmd_resp_t. lia.
  - cbn. lia.
  - cbn. unfold Legacy.sizeof_socket_resp_t. lia.
  - split; [exact Hhost | exact Hlegacy].
Defined.

(** With half a response received, the single-socket client hands the
    caller a record whose low half is the peer's and whose high half is
    what the storage held ([0xabababab00000063]), and stays connected. *)
Example legacy_short_response :
  fst (Legacy.send_and_wait 24 1 2 Legacy.short_world) = 12370169552430956643 ∧
  Legacy.client (snd (Legacy.send_and_wait 24 1 2 Legacy.short_world))
  = Legacy.Client 3 true ∧
  trace (Legacy.env (snd (Legacy.send_and_wait 24 1 2 Legacy.short_world)))
  = [EvSend 3 (SentSocketMsg 24 1 2) 4; EvRecv 3 8 false 4].
Proof. split_and!; vm_compute; reflexivity. Qed.

End ShortReceive.

(** ** The instruction hook *)

Module HookFacts.
Import Adapter Wire Ipc Hook.

#[local] Arguments send_and_wait : simpl never.
#[local] Arguments set_dma_callbacks : simpl never.

(** C10. The hook passes to the dispatch the value of register [rs1]
    (respectively [rs2]) when the instruction's [xs1] (respectively [xs2])
    bit is set and the all-ones value otherwise; it writes the dispatch
    result to register [rd] exactly when the [xd] bit is set, every other
    register keeping its value; and it returns [pc + 4], in the arithmetic
    of [reg_t]. *)
Theorem bebop_custom_effect {R : Type} `{RegFile R}
  (p : processor_t R) (insn pc : Z) :
  let xs1v := if Z.testbit insn 13 then rf_read (XPR p) (bits insn 15 5)
              else 2 ^ 64 - 1 in
  let xs2v := if Z.testbit insn 12 then rf_read (XPR p) (bits insn 20 5)
              else 2 ^ 64 - 1 in
  let sc := set_dma_callbacks read_cb write_cb (socket_client (extension p)) in
  let sw := send_and_wait (bits insn 25 7) xs1v xs2v sc in
  let out := bebop_custom p insn pc in
  fst out = (pc + 4) mod 2 ^ 64 ∧
  socket_client (extension (snd out)) = snd sw ∧
  XPR (snd out) =
    (if Z.testbit insn 14 then rf_write (XPR p) (bits insn 7 5) (fst sw)
     else XPR p) ∧
  (∀ j, j ≠ bits insn 7 5 → rf_read (XPR (snd out)) j = rf_read (XPR p) j).
Proof.
  cbv zeta. unfold bebop_custom, CUSTOMFN, rocc_of_insn.
  cbn [xs1 xs2 xd funct].
  change (u64 (-1)) with (2 ^ 64 - 1).
  destruct (send_and_wait _ _ _ _) as [res sc'] eqn:E. cbn [fst snd].
  split_and!.
  - reflexivity.
  - destruct (Z.testbit insn 14); reflexivity.
  - destruct (Z.testbit insn 14); reflexivity.
  - intros j Hj. destruct (Z.testbit insn 14); cbn [XPR]; [| reflexivity].
    apply rf_write_other. congruence.
Qed.

(** An instruction with [funct = 24], [rs2 = x2], [rs1 = x1], [xd] and
    [xs2] set, [xs1] clear and [rd = x5], on the simulator's register file
    and a willing accelerator: the request carries all-ones for the first
    operand, and [x5] receives the answer. *)
Example bebop_custom_all_ones :
  let p := Processor (λ i, 100 + i) ∅
             (Bebop (BebopState false false)
                    (new_world (willing_peer 42) (λ _, 0))) in
  let out := bebop_custom (R := xpr_t) p 807457531 4096 in
  fst out = 4100 ∧
  XPR (snd out) 5 = 42 ∧
  XPR (snd out) 1 = 101 ∧
  List.filter is_send (trace (env (socket_client (extension (snd out))))) =
    [EvSend 3 (SentCmdReq (CmdReq (MsgHeader MSG_TYPE_CMD_REQ 0)
                                  24 0 18446744073709551615 102)) 32].
Proof. cbv zeta. split_and!; vm_compute; reflexivity. Qed.

End HookFacts.

(** ** More on the memory access adapter *)

Module AdapterMore.
Import Adapter AdapterBytes AdapterFacts.

Lemma write_step_mod (n : nat) (a d : Z) (m : mmu_t) (i : nat) :
  (i < n)%nat →
  write_step a (d mod 2 ^ (8 * Z.of_nat n)) m i = write_step a d m i.
Proof.
  intros Hi. unfold write_step. f_equal.
  apply Z.bits_inj'. intros j Hj.
  rewrite !Z.land_spec, !Z.shiftr_spec by lia.
  destruct (Z.ltb_spec j 8) as [Hlt | Hge].
  - rewrite Z.mod_pow2_bits_low by lia. reflexivity.
  - change 255 with (Z.ones 8). rewrite Z.ones_spec_high by lia.
    rewrite !andb_false_r. reflexivity.
Qed.

Lemma write_loop_mod (n : nat) (a d : Z) (k : nat) (m : mmu_t) :
  (k ≤ n)%nat →
  fold_left (write_step a (d mod 2 ^ (8 * Z.of_nat n))) (seq 0 k) m
  = fold_left (write_step a d) (seq 0 k) m.
Proof.
  induction k as [| k IH]; intros Hk; [reflexivity |].
  rewrite seq_S, !fold_left_app. cbn [fold_left Nat.add].
  rewrite IH by lia. apply write_step_mod. lia.
Qed.

(** [write_to_dram<T>] looks only at the low [sizeof(T)] bytes of the data. *)
Lemma write_to_dram_mod (n : nat) (m : mmu_t) (a d : Z) :
  write_to_dram n m a (d mod 2 ^ (8 * Z.of_nat n)) = write_to_dram n m a d.
Proof. unfold write_to_dram. apply write_loop_mod. lia. Qed.

Lemma u64_shift (a i : Z) : u64 (u64 a + i) = u64 (a + i).
Proof. unfold u64, wrap. apply Zplus_mod_idemp_l. Qed.

Lemma write_cb_unsupported (m : mmu_t) (a : Z) (v : dma_data_128_t) (size : Z) :
  supported_width size = false → write_cb m a v size = None.
Proof.
  unfold write_cb, supported_width.
  destruct size as [| p | p]; cbn;
    repeat match goal with
           | |- context [match ?q with xI _ => _ | xO _ => _ | xH => _ end] =>
               destruct q; cbn
           end;
    intros; try discriminate; reflexivity.
Qed.

(** The narrowing casts of [write_cb] drop nothing [write_to_dram] would
    have stored. *)
Lemma write_cb_narrow (m : mmu_t) (a : Z) (v : dma_data_128_t) (n : nat) :
  (n = 1 ∨ n = 2 ∨ n = 4 ∨ n = 8)%nat →
  write_cb m a v (Z.of_nat n) = Some (write_to_dram n m a (lo v)).
Proof.
  intros [-> | [-> | [-> | ->]]];
    [change (Z.of_nat 1) with 1 | change (Z.of_nat 2) with 2
     | change (Z.of_nat 4) with 4 | change (Z.of_nat 8) with 8];
    cbn [write_cb]; f_equal.
  - apply (write_to_dram_mod 1).
  - apply (write_to_dram_mod 2).
  - apply (write_to_dram_mod 4).
Qed.

Lemma supported_width_nat (size : Z) :
  supported_width size = true →
  size = 16 ∨ ∃ n : nat, size = Z.of_nat n ∧ (n = 1 ∨ n = 2 ∨ n = 4 ∨ n = 8)%nat.
Proof.
  intros Hs.
  destruct (supported_width_cases size Hs) as [-> | [-> | [-> | [-> | ->]]]];
    [right; exists 1%nat | right; exists 2%nat | right; exists 4%nat
     | right; exists 8%nat | left]; try (split; [reflexivity | lia]); reflexivity.
Qed.

(** X1. [write_cb] stores a value least significant byte first: after a write
    of [size] bytes at [addr], byte [i] of the range holds byte [i] of the
    value (bytes 8..15 come from the high half). *)
Theorem write_cb_layout (m m' : mmu_t) (addr : Z) (v : dma_data_128_t)
  (size i : Z) :
  write_cb m addr v size = Some m' →
  0 ≤ i < size →
  load_u8 m' (addr + i) = byte_of v i.
Proof.
  intros Hw Hi.
  destruct (supported_width size) eqn:Hs;
    [| rewrite write_cb_unsupported in Hw by exact Hs; discriminate].
  replace i with (Z.of_nat (Z.to_nat i)) by lia.
  destruct (supported_width_nat size Hs) as [-> | (n & -> & Hn)].
  - cbn [write_cb] in Hw. injection Hw as <-. unfold byte_of.
    destruct (Z.of_nat (Z.to_nat i) <? 8) eqn:E.
    + apply Z.ltb_lt in E.
      rewrite load_write_miss.
      * rewrite (load_write_hit 8) by (simpl; lia). f_equal. f_equal. lia.
      * intros j Hj. rewrite u64_shift.
        replace (addr + 8 + Z.of_nat j) with (addr + (8 + Z.of_nat j)) by lia.
        apply u64_add_ne; lia.
    + apply Z.ltb_ge in E.
      replace (addr + Z.of_nat (Z.to_nat i))
        with (addr + 8 + Z.of_nat (Z.to_nat (i - 8))) by lia.
      rewrite <- load_u8_shift.
      rewrite (load_write_hit 8) by (simpl; lia). f_equal. f_equal. lia.
  - rewrite (write_cb_narrow m addr v n Hn) in Hw. injection Hw as <-.
    unfold byte_of.
    destruct (Z.of_nat (Z.to_nat i) <? 8) eqn:E; [| apply Z.ltb_ge in E; lia].
    rewrite load_write_hit by lia. f_equal. f_equal. lia.
Qed.

Lemma write_cb_layout_witness :
  ∃ m', write_cb (λ _, 0) 4096 (Dma128 3735928559 0) 4 = Some m' ∧
        load_u8 m' (4096 + 1) = byte_of (Dma128 3735928559 0) 1.
Proof.
  eexists. split; [reflexivity |].
  apply (write_cb_layout (λ _, 0) _ 4096 (Dma128 3735928559 0) 4 1);
    [reflexivity | lia].
Defined.

(** X2. [write_cb] changes no byte outside the [size] bytes at [addr]. *)
Theorem write_cb_frame (m m' : mmu_t) (addr : Z) (v : dma_data_128_t)
  (size b : Z) :
  write_cb m addr v size = Some m' →
  (∀ i, 0 ≤ i < size → u64 (addr + i) ≠ u64 b) →
  load_u8 m' b = load_u8 m b.
Proof.
  intros Hw Hout.
  destruct (supported_width size) eqn:Hs;
    [| rewrite write_cb_unsupported in Hw by exact Hs; discriminate].
  destruct (supported_width_nat size Hs) as [-> | (n & -> & Hn)].
  - cbn [write_cb] in Hw. injection Hw as <-.
    rewrite !load_write_miss; [reflexivity | |].
    + intros j Hj. apply Hout. lia.
    + intros j Hj. rewrite u64_shift.
      replace (addr + 8 + Z.of_nat j) with (addr + (8 + Z.of_nat j)) by lia.
      apply Hout. lia.
  - rewrite (write_cb_narrow m addr v n Hn) in Hw. injection Hw as <-.
    apply load_write_miss. intros j Hj. apply Hout. lia.
Qed.

Lemma write_cb_frame_witness :
  ∃ m', write_cb (λ a, a) 4096 (Dma128 0 0) 2 = Some m' ∧
        load_u8 m' 4098 = load_u8 (λ a, a) 4098.
Proof.
  eexists. split; [reflexivity |].
  apply (write_cb_frame (λ a, a) _ 4096 (Dma128 0 0) 2 4098); [reflexivity |].
  intros i Hi. unfold u64, wrap.
  rewrite !Z.mod_small by (change (2 ^ 64) with 18446744073709551616; lia). lia.
Defined.

(** X3. [write_cb] looks only at the bytes the width covers: the bits of the
    low half above the width, and the high half for widths below 16, do not
    matter. *)
Theorem write_cb_truncates (m : mmu_t) (addr : Z) (v : dma_data_128_t) (size : Z) :
  write_cb m addr (truncate size v) size = write_cb m addr v size.
Proof.
  destruct (supported_width size) eqn:Hs;
    [| rewrite !write_cb_unsupported by exact Hs; reflexivity].
  destruct (supported_width_nat size Hs) as [-> | (n & -> & Hn)].
  - unfold truncate. cbn [write_cb Z.eqb Pos.eqb lo hi]. f_equal.
    rewrite (write_to_dram_mod 8 _ _ (hi v)).
    rewrite (write_to_dram_mod 8 _ _ (lo v)). reflexivity.
  - rewrite !(write_cb_narrow m addr _ n Hn). f_equal.
    unfold truncate.
    replace (Z.of_nat n =? 16) with false by (symmetry; apply Z.eqb_neq; lia).
    cbn [lo]. apply write_to_dram_mod.
Qed.

Lemma le_value_split (m : mmu_t) (a : Z) (n k : nat) :
  le_value m a (n + k) =
  le_value m a n + 2 ^ (8 * Z.of_nat n) * le_value m (a + Z.of_nat n) k.
Proof.
  induction k as [| k IH].
  - rewrite Nat.add_0_r. cbn [le_value]. lia.
  - rewrite Nat.add_succ_r. cbn [le_value]. rewrite IH.
    replace (a + Z.of_nat (n + k)) with (a + Z.of_nat n + Z.of_nat k) by lia.
    replace (8 * Z.of_nat (n + k)) with (8 * Z.of_nat n + 8 * Z.of_nat k) by lia.
    rewrite Z.pow_add_r by lia. ring.
Qed.

(** X4. A wide read is two narrower reads put side by side: the first [n]
    bytes are the low part, the next [k] bytes sit above them. *)
Theorem read_from_dram_split (m : mmu_t) (addr : Z) (n k : nat) :
  read_from_dram (n + k) m addr =
  read_from_dram n m addr
  + 2 ^ (8 * Z.of_nat n) * read_from_dram k m (addr + Z.of_nat n).
Proof. rewrite !read_from_dram_le. apply le_value_split. Qed.

End AdapterMore.
(** ** More on the session and the command channel *)

Module IpcMore.
Import Adapter Wire Ipc IpcApi IpcFacts.

#[local] Arguments close : simpl never.
#[local] Arguments init : simpl never.
#[local] Arguments send_and_wait : simpl never.

Lemma close_synced (w : world) : session_synced (client (close w)).
Proof.
  destruct (close_closed w) as [Hc Hr]. split; [right; exact Hc |].
  rewrite Hr. destruct Hc as [-> _]. reflexivity.
Qed.

Lemma init_synced (w : world) :
  session_synced (client w) → session_synced (client (snd (init w))).
Proof.
  destruct w as [[c r wr si run rcb wcb] [p t tr m]].
  unfold session_synced. exec. intros [Hinv Hrun]. subst run.
  split_ifs; exec; z_bools; (split; [| first [reflexivity | congruence]]).
  all: intuition (try discriminate; try lia).
Qed.

(** What [init] and [close] leave alone. *)
Lemma init_frame (w : world) :
  dma_read_cb (client (snd (init w))) = dma_read_cb (client w) ∧
  dma_write_cb (client (snd (init w))) = dma_write_cb (client w) ∧
  peer (env (snd (init w))) = peer (env w) ∧
  mem (env (snd (init w))) = mem (env w).
Proof.
  destruct w as [[c r wr si run rcb wcb] [p t tr m]].
  exec. split_ifs; exec; split_and!; reflexivity.
Qed.

Lemma close_frame (w : world) :
  dma_read_cb (client (close w)) = dma_read_cb (client w) ∧
  dma_write_cb (client (close w)) = dma_write_cb (client w) ∧
  peer (env (close w)) = peer (env w) ∧
  mem (env (close w)) = mem (env w).
Proof.
  split_and!; [| | rewrite close_env; reflexivity | rewrite close_env; reflexivity].
  all: destruct w as [[c r wr si run rcb wcb] [p t tr m]].
  all: exec; destruct (0 <=? c), (0 <=? r), (0 <=? wr); reflexivity.
Qed.

(** A dispatch ends in the world left by its connect attempt, by the send
    or by the receive, possibly closed: in each case with the client object
    that [init] left, up to [close]. *)
Lemma send_and_wait_shape (funct xs1 xs2 : Z) (w : world) :
  ∃ w2, (snd (send_and_wait funct xs1 xs2 w) = w2 ∨
         snd (send_and_wait funct xs1 xs2 w) = close w2) ∧
        client w2 = client (snd (init w)) ∧
        peer (env w2) = peer (env (snd (init w))) ∧
        mem (env w2) = mem (env (snd (init w))).
Proof.
  rewrite send_and_wait_init.
  destruct (init w) as [b w1]. cbn [fst snd].
  destruct b; cbn [negb]; [| exists w1; auto].
  destruct w1 as [c1 [p t tr m]].
  unfold send_cmd_request. cbn.
  destruct (cmd_sock_fd c1 <? 0); cbn; [eexists; split; [left; reflexivity | auto] |].
  destruct (os_ret p t <? 0); cbn; [eexists; split; [right; reflexivity | auto] |].
  unfold recv_cmd_response. cbn.
  destruct (cmd_sock_fd c1 <? 0); cbn; [eexists; split; [left; reflexivity | auto] |].
  destruct (os_ret p (S t) <? 0); cbn; [eexists; split; [right; reflexivity | auto] |].
  destruct (os_ret p (S t) =? 0); cbn; [eexists; split; [right; reflexivity | auto] |].
  destruct (os_ret p (S t) <? sizeof_cmd_resp_t); cbn;
    eexists; (split; [first [right; reflexivity | left; reflexivity] | auto]).
Qed.

Lemma send_and_wait_synced (funct xs1 xs2 : Z) (w : world) :
  session_synced (client w) →
  session_synced (client (snd (send_and_wait funct xs1 xs2 w))).
Proof.
  intros Hs.
  destruct (send_and_wait_shape funct xs1 xs2 w) as (w2 & [-> | ->] & Hc & _).
  - rewrite Hc. apply init_synced. exact Hs.
  - apply close_synced.
Qed.

Lemma run_api_synced (a : api) (w : world) :
  session_synced (client w) → session_synced (client (run_api a w)).
Proof.
  intros Hs. destruct a as [| | r wr | f x1 x2]; cbn [run_api].
  - apply init_synced. exact Hs.
  - apply close_synced.
  - exact Hs.
  - apply send_and_wait_synced. exact Hs.
Qed.

(** X5. Whatever a caller does with a fresh client, in any order and against
    any peer (connect, close, install callbacks, dispatch), the session
    stays all-or-nothing and the DMA loops are marked running exactly while
    it is ready. *)
Theorem session_synced_always (p : peer_t) (m : mmu_t) (calls : list api) :
  session_synced (client (run_apis calls (new_world p m))).
Proof.
  assert (H0 : session_synced (client (new_world p m))).
  { split; [right; unfold session_closed; cbn; lia | reflexivity]. }
  revert H0. generalize (new_world p m) as w.
  induction calls as [| a calls IH]; intros w Hs; [exact Hs |].
  unfold run_apis. cbn [fold_left]. apply IH. apply run_api_synced. exact Hs.
Qed.

Lemma run_api_frame (a : api) (w : world) :
  peer (env (run_api a w)) = peer (env w) ∧
  mem (env (run_api a w)) = mem (env w) ∧
  (is_set_dma_callbacks a = false →
   dma_read_cb (client (run_api a w)) = dma_read_cb (client w) ∧
   dma_write_cb (client (run_api a w)) = dma_write_cb (client w)).
Proof.
  destruct a as [| | r wr | f x1 x2]; cbn [run_api is_set_dma_callbacks].
  - destruct (init_frame w) as (? & ? & ? & ?). auto.
  - destruct (close_frame w) as (? & ? & ? & ?). auto.
  - split_and!; [reflexivity | reflexivity | discriminate].
  - destruct (init_frame w) as (Hr & Hw & Hp & Hm).
    destruct (send_and_wait_shape f x1 x2 w) as (w2 & [-> | ->] & Hc & Hp2 & Hm2).
    + rewrite Hc, Hp2, Hm2. auto.
    + destruct (close_frame w2) as (-> & -> & -> & ->).
      rewrite Hc, Hp2, Hm2. auto.
Qed.

(** X6. Connecting, closing and dispatching never change the installed
    callbacks: after any sequence of [init], [close] and [send_and_wait]
    calls, whether they succeed or fail, both callbacks are the ones
    installed by the last [set_dma_callbacks] before. *)
Theorem callbacks_kept (calls : list api) (w : world) :
  forallb (λ a, negb (is_set_dma_callbacks a)) calls = true →
  dma_read_cb (client (run_apis calls w)) = dma_read_cb (client w) ∧
  dma_write_cb (client (run_apis calls w)) = dma_write_cb (client w).
Proof.
  revert w. induction calls as [| a calls IH]; intros w Hall; [auto |].
  cbn [forallb] in Hall. apply andb_true_iff in Hall as [Ha Hall].
  apply negb_true_iff in Ha.
  change (run_apis (a :: calls) w) with (run_apis calls (run_api a w)).
  destruct (IH (run_api a w) Hall) as (-> & ->).
  destruct (run_api_frame a w) as (_ & Hm & Hcb).
  destruct (Hcb Ha) as [-> ->]. auto.
Qed.

Lemma callbacks_kept_witness :
  dma_read_cb
    (client (run_apis [ApiInit; ApiSendAndWait 24 4096 0; ApiClose]
               (set_dma_callbacks read_cb write_cb
                  (new_world (willing_peer 42) (λ _, 0)))))
  = Some read_cb.
Proof.
  destruct (callbacks_kept
              [ApiInit; ApiSendAndWait 24 4096 0; ApiClose]
              (set_dma_callbacks read_cb write_cb
                 (new_world (willing_peer 42) (λ _, 0))) eq_refl)
    as (Hr & _).
  exact Hr.
Defined.

(** X7. A successful connect of a stopped, not-ready client is this sequence
    and nothing else: the command socket is opened and connected, then the
    DMA-read socket, then the DMA-write socket, then the read loop and the
    write loop are started; the three handles are the values [socket]
    returned. *)
Theorem connect_sequence (w : world) :
  socket_initialized (client w) = false →
  dma_handler_running (client w) = false →
  fst (init w) = true →
  let p := peer (env w) in
  let t := tick (env w) in
  let w' := snd (init w) in
  trace (env w') =
    trace (env w) ++
    [EvSocket (os_ret p t);
     EvInetPton (os_ret p (1 + t));
     EvConnect (os_ret p t) SOCKET_CMD_PORT (os_ret p (2 + t));
     EvSocket (os_ret p (3 + t));
     EvConnect (os_ret p (3 + t)) SOCKET_DMA_READ_PORT (os_ret p (4 + t));
     EvSocket (os_ret p (5 + t));
     EvConnect (os_ret p (5 + t)) SOCKET_DMA_WRITE_PORT (os_ret p (6 + t));
     EvThread DmaReadThread;
     EvThread DmaWriteThread] ∧
  client w' =
    Client (os_ret p t) (os_ret p (3 + t)) (os_ret p (5 + t)) true true
           (dma_read_cb (client w)) (dma_write_cb (client w)) ∧
  tick (env w') = (7 + t)%nat.
Proof.
  destruct w as [[c r wr si run rcb wcb] [p t tr m]]. cbn [client env
    socket_initialized dma_handler_running peer tick trace dma_read_cb
    dma_write_cb Nat.add].
  intros -> ->. exec. split_ifs; exec; intros Hok; try discriminate Hok.
  rewrite <- !app_assoc. split_and!; reflexivity.
Qed.

Lemma connect_sequence_witness :
  trace (env (snd (init (new_world (willing_peer 42) (λ _, 0))))) =
    [] ++
    [EvSocket 3; EvInetPton 1; EvConnect 3 SOCKET_CMD_PORT 0;
     EvSocket 4; EvConnect 4 SOCKET_DMA_READ_PORT 0;
     EvSocket 5; EvConnect 5 SOCKET_DMA_WRITE_PORT 0;
     EvThread DmaReadThread; EvThread DmaWriteThread].
Proof.
  exact (proj1 (connect_sequence (new_world (willing_peer 42) (λ _, 0))
                  eq_refl eq_refl eq_refl)).
Defined.

(** One successful exchange on a ready session. *)
Lemma send_and_wait_ok (funct xs1 xs2 : Z) (w : world) :
  session_ready (client w) →
  0 ≤ os_ret (peer (env w)) (tick (env w)) →
  sizeof_cmd_resp_t ≤ os_ret (peer (env w)) (S (tick (env w))) →
  send_and_wait funct xs1 xs2 w =
  (result (peer_cmd_resp (peer (env w)) (S (tick (env w)))),
   World (client w)
     (Env (peer (env w)) (S (S (tick (env w))))
        (trace (env w) ++
         [EvSend (cmd_sock_fd (client w))
                 (SentCmdReq (CmdReq (MsgHeader MSG_TYPE_CMD_REQ 0) funct 0 xs1 xs2))
                 (os_ret (peer (env w)) (tick (env w)));
          EvRecv (cmd_sock_fd (client w)) sizeof_cmd_resp_t false
                 (os_ret (peer (env w)) (S (tick (env w))))])
        (mem (env w)))).
Proof.
  destruct w as [c [p t tr m]]. unfold session_ready, sizeof_cmd_resp_t. cbn.
  intros (Hi & Hc & _ & _) Hs Hr.
  unfold send_and_wait, send_cmd_request, recv_cmd_response, sizeof_cmd_resp_t.
  cbn. rewrite Hi.
  repeat (cbn; match goal with
               | |- context [if ?b then _ else _] =>
                   let E := fresh "E" in destruct b eqn:E
               end); z_bools; try lia.
  cbn. rewrite <- app_assoc. reflexivity.
Qed.

(** X8. First in, first out: when the peer takes every request and delivers
    every response in full, dispatches issued back to back on a ready
    session return the peer's responses in the order of the requests; on
    the wire each request is followed by the receive of its response
    before the next request is sent, and the session stays as it was. *)
Theorem dispatch_all_fifo (reqs : list (Z * Z * Z)) (w : world) :
  session_ready (client w) →
  (∀ n, (tick (env w) ≤ n)%nat → sizeof_cmd_resp_t ≤ os_ret (peer (env w)) n) →
  fst (dispatch_all reqs w) =
    exchange_results (peer (env w)) (tick (env w)) (length reqs) ∧
  trace (env (snd (dispatch_all reqs w))) =
    trace (env w) ++
    exchange_events (cmd_sock_fd (client w)) (peer (env w)) (tick (env w)) reqs ∧
  client (snd (dispatch_all reqs w)) = client w.
Proof.
  revert w. induction reqs as [| [[funct xs1] xs2] reqs IH]; intros w Hr Hp.
  - cbn. rewrite app_nil_r. auto.
  - cbn [dispatch_all].
    assert (H8 : ∀ n, (tick (env w) ≤ n)%nat → 0 ≤ os_ret (peer (env w)) n).
    { intros n Hn. specialize (Hp n Hn). unfold sizeof_cmd_resp_t in Hp. lia. }
    rewrite send_and_wait_ok by (try apply H8; try apply Hp; try assumption; lia).
    match goal with
    | |- context [dispatch_all reqs ?w1] =>
        destruct (IH w1) as (Hres & Htr & Hcl);
          [exact Hr | cbn; intros n Hn; apply Hp; lia |];
          destruct (dispatch_all reqs w1) as [ress w2]
    end.
    cbn in Hres, Htr, Hcl |- *. subst ress. rewrite Htr, Hcl, <- app_assoc.
    auto.
Qed.

Lemma dispatch_all_fifo_witness :
  fst (dispatch_all [(24, 4096, 0); (27, 1, 2); (25, 8192, 0)] steady_world)
  = [1; 3; 5].
Proof.
  assert (Hr : session_ready (client steady_world)).
  { unfold session_ready. cbn. lia. }
  assert (Hp : ∀ n, (tick (env steady_world) ≤ n)%nat →
                    sizeof_cmd_resp_t ≤ os_ret (peer (env steady_world)) n).
  { intros n _. cbn. unfold sizeof_cmd_resp_t. lia. }
  exact (proj1 (dispatch_all_fifo [(24, 4096, 0); (27, 1, 2); (25, 8192, 0)]
                  steady_world Hr Hp)).
Defined.

(** X9. [recv_header]: on a client that is not connected it fails without a
    system call; on a connected one it peeks at the socket once, and a
    result of zero or less closes the whole session, while any positive
    count is accepted and leaves the client as it was. *)
Theorem recv_header_contract (sizeof_msg_header_t : Z) (w : world) :
  let fd := cmd_sock_fd (client w) in
  let received := os_ret (peer (env w)) (tick (env w)) in
  let out := recv_header sizeof_msg_header_t w in
  (fd < 0 → out = (false, w)) ∧
  (0 ≤ fd → received ≤ 0 →
   fst out = false ∧ session_closed (client (snd out)) ∧
   trace (env (snd out)) =
     trace (env w) ++ EvRecv fd sizeof_msg_header_t true received
                      :: close_events (client w)) ∧
  (0 ≤ fd → 0 < received →
   fst out = true ∧ client (snd out) = client w ∧
   trace (env (snd out)) =
     trace (env w) ++ [EvRecv fd sizeof_msg_header_t true received]).
Proof.
  cbv zeta. destruct w as [c [p t tr m]]. unfold recv_header. cbn.
  split_and!.
  - intros Hfd. replace (cmd_sock_fd c <? 0) with true
      by (symmetry; apply Z.ltb_lt; lia). reflexivity.
  - intros Hfd Hr.
    replace (cmd_sock_fd c <? 0) with false by (symmetry; apply Z.ltb_ge; lia).
    destruct (os_ret p t <? 0) eqn:E1; [| destruct (os_ret p t =? 0) eqn:E2];
      z_bools; try lia; cbn [fst snd];
      (split_and!; [reflexivity | apply close_closed |
                    rewrite close_env; cbn; rewrite <- app_assoc; reflexivity]).
  - intros Hfd Hr.
    replace (cmd_sock_fd c <? 0) with false by (symmetry; apply Z.ltb_ge; lia).
    replace (os_ret p t <? 0) with false by (symmetry; apply Z.ltb_ge; lia).
    replace (os_ret p t =? 0) with false by (symmetry; apply Z.eqb_neq; lia).
    cbn. auto.
Qed.

End IpcMore.
(** ** The single-socket client *)

Module LegacyFacts.
Import Wire Legacy LegacyApi.

Ltac lexec :=
  cbv beta iota zeta delta
    [init close send_request recv_response send_and_wait run_api new_world
     sys sys_close set_sock_fd set_socket_initialized os_call os_log
     client env resp_storage sock_fd socket_initialized
     peer tick trace mem fst snd negb
     client_inv connected disconnected].

Tactic Notation "lexec" "in" hyp(H) :=
  cbv beta iota zeta delta
    [init close send_request recv_response send_and_wait run_api new_world
     sys sys_close set_sock_fd set_socket_initialized os_call os_log
     client env resp_storage sock_fd socket_initialized
     peer tick trace mem fst snd negb
     client_inv connected disconnected] in H.

Ltac lsplit :=
  repeat match goal with
         | |- context [if ?b then _ else _] =>
             let E := fresh "E" in destruct b eqn:E
         end.

Ltac lbools :=
  repeat match goal with
         | H : (_ <? _) = true |- _ => apply Z.ltb_lt in H
         | H : (_ <? _) = false |- _ => apply Z.ltb_ge in H
         | H : (_ <=? _) = true |- _ => apply Z.leb_le in H
         | H : (_ <=? _) = false |- _ => apply Z.leb_gt in H
         | H : (_ =? _) = true |- _ => apply Z.eqb_eq in H
         | H : (_ =? _) = false |- _ => apply Z.eqb_neq in H
         end.

Lemma close_disconnected (w : world) : disconnected (client (close w)).
Proof.
  destruct w as [[fd si] e u]. lexec. lsplit; lexec; lbools; split; try lia;
    reflexivity.
Qed.

Lemma init_inv (w : world) :
  client_inv (client w) → client_inv (client (snd (init w))).
Proof.
  destruct w as [[fd si] [p t tr m] u]. lexec. intros Hinv.
  lsplit; lexec; lbools; intuition (try discriminate; try lia).
Qed.

Lemma send_and_wait_inv (funct xs1 xs2 : Z) (w : world) :
  client_inv (client w) →
  client_inv (client (snd (send_and_wait funct xs1 xs2 w))).
Proof.
  destruct w as [[fd si] [p t tr m] u]. lexec. intros Hinv.
  destruct si.
  - lsplit; lexec; lbools; intuition (try discriminate; try lia).
  - lsplit; lexec; lbools; intuition (try discriminate; try lia).
Qed.

Lemma run_api_inv (a : api) (w : world) :
  client_inv (client w) → client_inv (client (run_api a w)).
Proof.
  intros Hinv. destruct a as [| | f x1 x2]; cbn [run_api].
  - apply init_inv. exact Hinv.
  - right. apply close_disconnected.
  - apply send_and_wait_inv. exact Hinv.
Qed.

(** X10. Whatever a caller does with a fresh single-socket client, against any
    peer, its socket handle is valid exactly when it is marked connected. *)
Theorem legacy_client_inv_always (p : peer_t) (m : Z → Z) (u : nat → Z)
  (calls : list api) :
  client_inv (client (run_apis calls (new_world p m u))).
Proof.
  assert (H0 : client_inv (client (new_world p m u))).
  { right. split; [reflexivity | cbn; lia]. }
  revert H0. generalize (new_world p m u) as w.
  induction calls as [| a calls IH]; intros w Hinv; [exact Hinv |].
  change (run_apis (a :: calls) w) with (run_apis calls (run_api a w)).
  apply IH. apply run_api_inv. exact Hinv.
Qed.

(** X11. A failed [init] of the single-socket client leaves it disconnected and
    has closed the socket it had opened. *)
Theorem legacy_init_rollback (w : world) :
  client_inv (client w) →
  fst (init w) = false →
  disconnected (client (snd (init w))) ∧
  ∃ evs, trace (env (snd (init w))) = trace (env w) ++ evs ∧
         ∀ fd, 0 ≤ fd → In (EvSocket fd) evs → In (EvClose fd) evs.
Proof.
  destruct w as [[fd0 si] [p t tr m] u]. lexec. intros Hinv.
  lsplit; lexec; lbools; intros Hf; try discriminate Hf.
  all: split; [intuition (try discriminate; try lia) |].
  all: rewrite <- ?app_assoc; eexists; (split; [reflexivity |]).
  all: intros fd Hfd Hin; cbn in Hin |- *.
  all: repeat match goal with
              | H : _ ∨ _ |- _ => destruct H
              | H : False |- _ => destruct H
              | H : EvSocket _ = EvSocket _ |- _ => inversion H; subst; clear H
              | H : _ = EvSocket _ |- _ => discriminate H
              end.
  all: try lia; tauto.
Qed.

Lemma legacy_init_rollback_witness :
  disconnected
    (client (snd (init (new_world (Peer (λ n, match n with
                                              | 0%nat => 3 | 1%nat => 1 | _ => -1
                                              end)
                                        (λ _, CmdResp 0) (λ _, DmaReadReq 0 8)
                                        (λ _, DmaWriteReq 0 0 0 8))
                                  (λ _, 0) (λ _, 0))))).
Proof.
  apply legacy_init_rollback.
  - right. split; [reflexivity | cbn; lia].
  - reflexivity.
Defined.

(** X12. A dispatch of the single-socket client: when the connect attempt
    fails, the send returns a negative count or the receive returns zero or
    less, the socket is closed and the result is 0; otherwise exactly one
    request with the three arguments went out, the client stays as it was,
    and the result is the response record as the receive left it: the
    peer's record when all of its 8 bytes arrived, and after a shorter
    receive the bytes that arrived below the bytes that the uninitialised
    record held before. *)
Theorem legacy_send_and_wait_contract (funct xs1 xs2 : Z) (w : world) :
  client_inv (client w) →
  let w1 := snd (init w) in
  let fd := sock_fd (client w1) in
  let sent := os_ret (peer (env w1)) (tick (env w1)) in
  let received := os_ret (peer (env w1)) (S (tick (env w1))) in
  let resp := peer_cmd_resp (peer (env w1)) (S (tick (env w1))) in
  let before := resp_storage w (S (tick (env w1))) in
  let out := send_and_wait funct xs1 xs2 w in
  (fst (init w) = false ∨ sent < 0 ∨ received ≤ 0 →
   fst out = 0 ∧ disconnected (client (snd out))) ∧
  (fst (init w) = true ∧ 0 ≤ sent ∧ 0 < received →
   (sizeof_socket_resp_t ≤ received → fst out = result resp) ∧
   (received < sizeof_socket_resp_t →
    fst out = result resp mod 2 ^ (8 * received)
              + before / 2 ^ (8 * received) * 2 ^ (8 * received)) ∧
   client (snd out) = client w1 ∧
   trace (env (snd out)) =
     trace (env w1) ++ [EvSend fd (SentSocketMsg funct xs1 xs2) sent;
                        EvRecv fd sizeof_socket_resp_t false received]).
Proof.
  assert (Hrec : ∀ received before sent,
    (sizeof_socket_resp_t ≤ received →
     received_record received before sent = sent) ∧
    (received < sizeof_socket_resp_t →
     received_record received before sent =
     sent mod 2 ^ (8 * received)
     + before / 2 ^ (8 * received) * 2 ^ (8 * received))).
  { intros received before sent. unfold received_record.
    destruct (Z.leb_spec sizeof_socket_resp_t received); split; intros;
      first [reflexivity | lia]. }
  destruct w as [[fd0 si] [p t tr m] u]. cbv zeta. lexec. intros Hinv.
  destruct si.
  - lsplit; lexec; lbools; split; intros Hc;
      rewrite <- ?app_assoc;
      repeat match goal with
             | |- context [received_record ?r ?b ?x] =>
                 destruct (Hrec r b x) as [? ?];
                 generalize dependent (received_record r b x); intros
             end;
      intuition (try discriminate; try lia; try reflexivity).
  - lsplit; lexec; lbools; split; intros Hc;
      rewrite <- ?app_assoc;
      repeat match goal with
             | |- context [received_record ?r ?b ?x] =>
                 destruct (Hrec r b x) as [? ?];
                 generalize dependent (received_record r b x); intros
             end;
      intuition (try discriminate; try lia; try reflexivity).
Qed.

Lemma legacy_send_and_wait_contract_witness :
  fst (send_and_wait 24 4096 0 (new_world (willing_peer 42) (λ _, 0) (λ _, 7)))
  = 42.
Proof.
  assert (Hinv : client_inv
                   (client (new_world (willing_peer 42) (λ _, 0) (λ _, 7)))).
  { right. split; [reflexivity | cbn; lia]. }
  destruct (legacy_send_and_wait_contract 24 4096 0 _ Hinv) as [_ Hok].
  assert (Hpre : fst (init (new_world (willing_peer 42) (λ _, 0) (λ _, 7))) = true
                 ∧ 0 ≤ 24 ∧ 0 < 8) by (split_and!; [reflexivity | lia | lia]).
  destruct (Hok Hpre) as (Hfull & _).
  apply Hfull. unfold sizeof_socket_resp_t. vm_compute. discriminate.
Defined.

(** X13. [close] of the single-socket client is idempotent, and the second
    call issues no [::close]. *)
Theorem legacy_close_idempotent (w : world) : close (close w) = close w.
Proof.
  destruct w as [[fd si] [p t tr m] u]. lexec.
  destruct (0 <=? fd) eqn:E; lexec; [reflexivity | rewrite E; reflexivity].
Qed.

End LegacyFacts.
(** ** More on the instruction hook *)

Module HookMore.
Import Adapter Wire Ipc Hook IpcFacts IpcMore.

#[local] Arguments send_and_wait : simpl never.
#[local] Arguments close : simpl never.
#[local] Arguments init : simpl never.

(** X14. [CUSTOMFN] resets the extension state once (a state that was reset
    before is kept), installs the adapter's two callbacks in the client,
    and returns what the dispatch of [insn.funct], [xs1] and [xs2] returns
    on the client with these callbacks installed; afterwards the client
    holds the adapter's callbacks whatever it held before and however the
    dispatch went. *)
Theorem CUSTOMFN_effect (b : bebop_t) (insn : rocc_insn_t) (xs1v xs2v : Z) :
  let out := CUSTOMFN b insn xs1v xs2v in
  let dispatch :=
    send_and_wait (funct insn) xs1v xs2v
      (set_dma_callbacks read_cb write_cb (socket_client b)) in
  fst out = fst dispatch ∧
  resetted (bebop_state (snd out)) = true ∧
  enable (bebop_state (snd out)) =
    (if resetted (bebop_state b) then enable (bebop_state b) else true) ∧
  dma_read_cb (client (socket_client (snd out))) = Some read_cb ∧
  dma_write_cb (client (socket_client (snd out))) = Some write_cb.
Proof.
  cbv zeta. unfold CUSTOMFN.
  set (sc := set_dma_callbacks read_cb write_cb (socket_client b)).
  assert (Hsc : dma_read_cb (client sc) = Some read_cb ∧
                dma_write_cb (client sc) = Some write_cb).
  { unfold sc. destruct (socket_client b) as [c e]. cbn. auto. }
  destruct Hsc as (Hr & Hw).
  destruct (init_frame sc) as (Ir & Iw & _ & _).
  destruct (send_and_wait_shape (funct insn) xs1v xs2v sc)
    as (w2 & Hsw & Hc & _ & _).
  destruct (send_and_wait (funct insn) xs1v xs2v sc) as [res sc'].
  cbn [fst snd] in Hsw |- *.
  assert (Hcb : dma_read_cb (client sc') = Some read_cb ∧
                dma_write_cb (client sc') = Some write_cb).
  { destruct Hsw as [-> | ->].
    - rewrite Hc, Ir, Iw. auto.
    - destruct (close_frame w2) as (-> & -> & _ & _).
      rewrite Hc, Ir, Iw. auto. }
  destruct Hcb as (? & ?).
  destruct (bebop_state b) as [en rs]. destruct rs; cbn; auto.
Qed.

(** X15. The hook records the register write in the commit log exactly when
    the [xd] bit is set: the entry for key [rd << 4] (16 times [rd]) becomes
    the dispatch result paired with 0, and no other entry changes. *)
Theorem bebop_custom_commit_log {R : Type} `{RegFile R}
  (p : processor_t R) (insn pc : Z) :
  let rd := bits insn 7 5 in
  let xs1v := if Z.testbit insn 13 then rf_read (XPR p) (bits insn 15 5)
              else u64 (-1) in
  let xs2v := if Z.testbit insn 12 then rf_read (XPR p) (bits insn 20 5)
              else u64 (-1) in
  let res := fst (CUSTOMFN (extension p) (rocc_of_insn insn) xs1v xs2v) in
  let out := bebop_custom p insn pc in
  Z.shiftl rd 4 = 16 * rd ∧ 0 ≤ rd < 32 ∧
  (if Z.testbit insn 14
   then log_reg_write (snd out) !! (16 * rd) = Some (res, 0) ∧
        ∀ k, k ≠ 16 * rd →
             log_reg_write (snd out) !! k = log_reg_write p !! k
   else log_reg_write (snd out) = log_reg_write p).
Proof.
  cbv zeta.
  assert (Hk : Z.shiftl (bits insn 7 5) 4 = 16 * bits insn 7 5).
  { rewrite Z.shiftl_mul_pow2 by lia. change (2 ^ 4) with 16. lia. }
  assert (Hrd : 0 ≤ bits insn 7 5 < 32).
  { unfold bits. rewrite Z.land_ones by lia. change (2 ^ 5) with 32.
    apply Z.mod_pos_bound. lia. }
  split_and!; [exact Hk | lia | lia |].
  unfold bebop_custom. cbn [rocc_of_insn xs1 xs2 xd].
  destruct (CUSTOMFN _ _ _ _) as [res b']. cbn [fst snd].
  destruct (Z.testbit insn 14); cbn [snd log_reg_write XPR]; [| reflexivity].
  rewrite Hk. split.
  - apply lookup_insert_eq.
  - intros k Hne. apply lookup_insert_ne. congruence.
Qed.

End HookMore.
(** ** Instruction operands and their decoding *)

Module InstFacts.
Import Inst Coprocessor.

(** A field of fewer than 64 bits that ends below bit 64 is the value
    reduced to the field's width, moved to the field's position. *)
Lemma FIELD_value (val s e : Z) :
  0 ≤ s → s ≤ e → e < 64 → e - s + 1 < 64 →
  FIELD val s e = (val mod 2 ^ (e - s + 1)) * 2 ^ s.
Proof.
  intros Hs Hse He Hw. unfold FIELD, u64, wrap.
  rewrite (Z.shiftl_mul_pow2 1) by lia. rewrite Z.mul_1_l.
  assert (Hp : 0 < 2 ^ (e - s + 1)) by (apply Z.pow_pos_nonneg; lia).
  assert (Hlt : 2 ^ (e - s + 1) < 2 ^ 64) by (apply Z.pow_lt_mono_r; lia).
  rewrite (Z.mod_small (2 ^ (e - s + 1))) by lia.
  rewrite (Z.mod_small (2 ^ (e - s + 1) - 1)) by lia.
  replace (2 ^ (e - s + 1) - 1) with (Z.ones (e - s + 1))
    by (rewrite Z.ones_equiv; lia).
  rewrite Z.land_ones by lia.
  rewrite Z.shiftl_mul_pow2 by lia.
  apply Z.mod_small.
  pose proof (Z.mod_pos_bound val (2 ^ (e - s + 1)) Hp) as Hm.
  assert (Hps : 0 < 2 ^ s) by (apply Z.pow_pos_nonneg; lia).
  split; [nia |].
  apply Z.lt_le_trans with (2 ^ (e - s + 1) * 2 ^ s); [nia |].
  rewrite <- Z.pow_add_r by lia. apply Z.pow_le_mono_r; lia.
Qed.

(** X16. Wherever the macro is defined in C, that is for a field within
    bits 0..63 that is narrower than 64 bits, [FIELD] puts the low
    [end_bit - start_bit + 1] bits of the value at bits
    [start_bit .. end_bit] and nothing anywhere else. *)
Theorem FIELD_places_value (val s e : Z) :
  FIELD_defined s e = true →
  FIELD val s e = (val mod 2 ^ (e - s + 1)) * 2 ^ s ∧
  0 ≤ FIELD val s e < 2 ^ (e + 1) ∧
  FIELD val s e mod 2 ^ s = 0.
Proof.
  unfold FIELD_defined. rewrite !andb_true_iff.
  rewrite !Z.leb_le, !Z.ltb_lt. intros [[[Hs Hse] He] Hw].
  rewrite FIELD_value by assumption.
  assert (Hp : 0 < 2 ^ (e - s + 1)) by (apply Z.pow_pos_nonneg; lia).
  assert (Hps : 0 < 2 ^ s) by (apply Z.pow_pos_nonneg; lia).
  pose proof (Z.mod_pos_bound val (2 ^ (e - s + 1)) Hp) as Hm.
  split_and!; [reflexivity | apply Z.mul_nonneg_nonneg; lia | | apply Z_mod_mult].
  apply Z.lt_le_trans with (2 ^ (e - s + 1) * 2 ^ s);
    [apply Z.mul_lt_mono_pos_r; lia |].
  rewrite <- Z.pow_add_r by lia. apply Z.pow_le_mono_r; lia.
Qed.

Lemma FIELD_places_value_witness :
  FIELD 1023 5 14 = (1023 mod 2 ^ (14 - 5 + 1)) * 2 ^ 5 ∧
  0 ≤ FIELD 1023 5 14 < 2 ^ (14 + 1) ∧
  FIELD 1023 5 14 mod 2 ^ 5 = 0.
Proof. apply (FIELD_places_value 1023 5 14). reflexivity. Defined.

(** Or-ing a field above the bits already used is an addition. *)
Lemma lor_field (x y k : Z) :
  0 ≤ k → 0 ≤ x < 2 ^ k → 0 ≤ y → Z.lor x (y * 2 ^ k) = x + y * 2 ^ k.
Proof.
  intros Hk Hx Hy. rewrite <- (AdapterFacts.lor_shiftl_add x y k) by assumption.
  rewrite Z.shiftl_mul_pow2 by exact Hk. reflexivity.
Qed.

(** The second source register of [bb_mvin] and [bb_mvout] as a sum. *)
Lemma mvin_rs2_value (bank_id depth stride : Z) :
  Z.lor (Z.lor (FIELD bank_id 0 4) (FIELD depth 5 14)) (FIELD stride 15 33)
  = bank_id mod 32 + (depth mod 1024) * 32 + (stride mod 524288) * 32768.
Proof.
  rewrite !FIELD_value by lia.
  change (2 ^ (4 - 0 + 1)) with 32. change (2 ^ (14 - 5 + 1)) with 1024.
  change (2 ^ (33 - 15 + 1)) with 524288. change (2 ^ 0) with 1.
  pose proof (Z.mod_pos_bound bank_id 32 ltac:(lia)).
  pose proof (Z.mod_pos_bound depth 1024 ltac:(lia)).
  pose proof (Z.mod_pos_bound stride 524288 ltac:(lia)).
  rewrite Z.mul_1_r.
  rewrite (lor_field _ _ 5) by (change (2 ^ 5) with 32; lia).
  rewrite (lor_field _ _ 15) by (change (2 ^ 5) with 32; change (2 ^ 15) with 32768; lia).
  reflexivity.
Qed.

Lemma decode_mvin_rs2 (b d st : Z) :
  0 ≤ b < 32 → 0 ≤ d < 1024 → 0 ≤ st < 524288 →
  let rs2 := b + d * 32 + st * 32768 in
  Z.land (Z.shiftr rs2 5) 1023 = d ∧ Z.land (Z.shiftr rs2 15) 524287 = st.
Proof.
  intros Hb Hd Hst rs2.
  change 1023 with (Z.ones 10). change 524287 with (Z.ones 19).
  rewrite !Z.land_ones, !Z.shiftr_div_pow2 by lia.
  change (2 ^ 5) with 32. change (2 ^ 15) with 32768.
  change (2 ^ 10) with 1024. change (2 ^ 19) with 524288.
  unfold rs2. split.
  - replace (b + d * 32 + st * 32768) with (b + (d + st * 1024) * 32) by lia.
    rewrite Z.div_add by lia. rewrite (Z.div_small b 32) by lia.
    rewrite Z.add_0_l, Z_mod_plus_full. apply Z.mod_small. lia.
  - replace (b + d * 32 + st * 32768) with ((b + d * 32) + st * 32768) by lia.
    rewrite Z.div_add by lia. rewrite (Z.div_small (b + d * 32)) by lia.
    apply Z.mod_small. lia.
Qed.

(** X17. A move-in built by [bb_mvin] makes the coprocessor read
    [depth * stride] bytes of main memory at the address given, each
    argument reduced to the width of its field (32, 10 and 19 bits); a
    move-out built by [bb_mvout] makes it write the same range. The bank
    number is not used for the access. *)
Theorem mvin_mvout_decoded (mem_addr bank_id depth stride encoding tick : Z) :
  memory_operation
    (of_operands (bb_mvin mem_addr bank_id depth stride) encoding tick)
  = Some (ReadMemory (mem_addr mod 2 ^ 32)
                     ((depth mod 2 ^ 10) * (stride mod 2 ^ 19)) false) ∧
  memory_operation
    (of_operands (bb_mvout mem_addr bank_id depth stride) encoding tick)
  = Some (WriteMemory (mem_addr mod 2 ^ 32)
                      ((depth mod 2 ^ 10) * (stride mod 2 ^ 19)) false).
Proof.
  assert (Hrs1 : u32 (FIELD mem_addr 0 31) = mem_addr mod 2 ^ 32).
  { rewrite FIELD_value by lia. change (2 ^ 0) with 1. rewrite Z.mul_1_r.
    unfold u32, wrap. change (31 - 0 + 1) with 32. apply Z.mod_mod. lia. }
  pose proof (Z.mod_pos_bound bank_id 32 ltac:(lia)) as Hb.
  pose proof (Z.mod_pos_bound depth 1024 ltac:(lia)) as Hd.
  pose proof (Z.mod_pos_bound stride 524288 ltac:(lia)) as Hst.
  destruct (decode_mvin_rs2 _ _ _ Hb Hd Hst) as [Ed Es]. cbv zeta in Ed, Es.
  assert (Hsize : u32 (u32 (depth mod 1024) * u32 (stride mod 524288))
                  = (depth mod 1024) * (stride mod 524288)).
  { unfold u32, wrap. change (2 ^ 32) with 4294967296.
    rewrite (Z.mod_small (depth mod 1024)) by lia.
    rewrite (Z.mod_small (stride mod 524288)) by lia.
    apply Z.mod_small. nia. }
  change (2 ^ 10) with 1024. change (2 ^ 19) with 524288.
  split.
  - unfold memory_operation, of_operands, bb_mvin.
    cbn [func7 rs1_val rs2_val op_func7 op_rs1 op_rs2 BB_MVIN_FUNC7].
    rewrite mvin_rs2_value, Ed, Es, Hrs1, Hsize. reflexivity.
  - unfold memory_operation, of_operands, bb_mvout.
    cbn [func7 rs1_val rs2_val op_func7 op_rs1 op_rs2 BB_MVOUT_FUNC7].
    rewrite mvin_rs2_value, Ed, Es, Hrs1, Hsize. reflexivity.
Qed.

(** X18. A gather built by [bb_mgather] makes the coprocessor read 512 bytes
    through the L2 cache at the base address reduced to 32 bits, whatever
    the vector length, the bank and the eight offsets are. *)
Theorem mgather_decoded
  (base_addr vlen bank_id o0 o1 o2 o3 o4 o5 o6 o7 encoding tick : Z) :
  memory_operation
    (of_operands (bb_mgather base_addr vlen bank_id o0 o1 o2 o3 o4 o5 o6 o7)
                 encoding tick)
  = Some (ReadMemory (base_addr mod 2 ^ 32) 512 true).
Proof.
  unfold memory_operation, of_operands, bb_mgather.
  cbn [func7 rs1_val rs2_val op_func7 op_rs1 op_rs2 BB_MGATHER_FUNC7].
  do 2 f_equal.
  rewrite !FIELD_value by lia.
  change (2 ^ 0) with 1. rewrite Z.mul_1_r.
  change (31 - 0 + 1) with 32. change (40 - 32 + 1) with 9.
  change (45 - 41 + 1) with 5.
  pose proof (Z.mod_pos_bound base_addr (2 ^ 32) ltac:(lia)) as Hb.
  pose proof (Z.mod_pos_bound vlen (2 ^ 9) ltac:(lia)) as Hv.
  pose proof (Z.mod_pos_bound bank_id (2 ^ 5) ltac:(lia)) as Hk.
  rewrite (lor_field _ _ 32) by lia.
  rewrite (lor_field _ _ 41)
    by (change (2 ^ 41) with (2 ^ 32 * 2 ^ 9);
        change (2 ^ 32) with 4294967296 in *; change (2 ^ 9) with 512 in *; lia).
  change 4294967295 with (Z.ones 32). rewrite Z.land_ones by lia.
  change (2 ^ 41) with (2 ^ 9 * 2 ^ 32).
  replace (base_addr mod 2 ^ 32 + vlen mod 2 ^ 9 * 2 ^ 32
           + bank_id mod 2 ^ 5 * (2 ^ 9 * 2 ^ 32))
    with (base_addr mod 2 ^ 32
          + (vlen mod 2 ^ 9 + bank_id mod 2 ^ 5 * 2 ^ 9) * 2 ^ 32) by ring.
  rewrite Z_mod_plus_full. apply Z.mod_mod. lia.
Qed.

(** X19. A matrix multiply built by [bb_gemm] is taken by the coprocessor
    for a [BB_GEMM] (function code 27), with each of its three operands
    reduced to 8 bits, and causes no memory access. *)
Theorem gemm_decoded (op1_addr op2_addr op3_addr encoding tick : Z) :
  decode_function_type
    (of_operands (bb_gemm op1_addr op2_addr op3_addr) encoding tick)
  = FnGemm (op1_addr mod 2 ^ 8) (op2_addr mod 2 ^ 8) (op3_addr mod 2 ^ 8) ∧
  memory_operation (of_operands (bb_gemm op1_addr op2_addr op3_addr) encoding tick)
  = None.
Proof.
  split; [| reflexivity].
  unfold decode_function_type, of_operands, bb_gemm.
  cbn [func7 rs1_val rs2_val op_func7 op_rs1 op_rs2 BB_GEMM_FUNC7].
  rewrite !FIELD_value by lia.
  change (2 ^ 0) with 1. rewrite !Z.mul_1_r.
  change (7 - 0 + 1) with 8. change (15 - 8 + 1) with 8.
  pose proof (Z.mod_pos_bound op1_addr (2 ^ 8) ltac:(lia)) as H1.
  pose proof (Z.mod_pos_bound op2_addr (2 ^ 8) ltac:(lia)) as H2.
  pose proof (Z.mod_pos_bound op3_addr (2 ^ 8) ltac:(lia)) as H3.
  rewrite (lor_field _ _ 8) by lia.
  change 255 with (Z.ones 8). rewrite !Z.land_ones, Z.shiftr_div_pow2 by lia.
  rewrite Z_mod_plus_full, Z.div_add by lia.
  rewrite (Z.div_small (op1_addr mod 2 ^ 8)) by lia.
  rewrite Z.add_0_l, !Z.mod_mod by lia.
  change (2 ^ 8) with 256 in *.
  unfold u32, wrap. change (2 ^ 32) with 4294967296.
  rewrite (Z.mod_small (op1_addr mod 256) 4294967296) by lia.
  rewrite (Z.mod_small (op2_addr mod 256) 4294967296) by lia.
  rewrite (Z.mod_small (op3_addr mod 256) 4294967296) by lia.
  reflexivity.
Qed.

Lemma memory_operation_cases (inst : BebopInst) :
  (func7 inst = 24 ∨ func7 inst = 25 ∨ func7 inst = 26) ∨
  memory_operation inst = None.
Proof.
  unfold memory_operation.
  destruct (func7 inst) as [| p | p]; cbn;
    repeat match goal with
           | |- context [match ?q with xI _ => _ | xO _ => _ | xH => _ end] =>
               destruct q; cbn
           end;
    first [right; reflexivity | left; auto].
Qed.

(** X20. Whatever instruction arrives, a memory request of the coprocessor has
    an address below [2^32] and a size below [2^29]; for a move-in or
    move-out the size is the exact product of the 10-bit depth and the
    19-bit stride: the 32-bit multiplication cannot overflow. *)
Theorem memory_operation_bounds (inst : BebopInst) (req : mem_request) :
  memory_operation inst = Some req →
  0 ≤ req_addr req < 2 ^ 32 ∧
  0 ≤ req_size req < 2 ^ 29 ∧
  (func7 inst = 24 ∨ func7 inst = 25 →
   req_size req = ((rs2_val inst / 2 ^ 5) mod 2 ^ 10)
                  * ((rs2_val inst / 2 ^ 15) mod 2 ^ 19)).
Proof.
  intros Hreq.
  assert (Hd : Z.land (Z.shiftr (rs2_val inst) 5) 1023
               = (rs2_val inst / 2 ^ 5) mod 2 ^ 10).
  { change 1023 with (Z.ones 10).
    rewrite Z.land_ones, Z.shiftr_div_pow2 by lia. reflexivity. }
  assert (Hs : Z.land (Z.shiftr (rs2_val inst) 15) 524287
               = (rs2_val inst / 2 ^ 15) mod 2 ^ 19).
  { change 524287 with (Z.ones 19).
    rewrite Z.land_ones, Z.shiftr_div_pow2 by lia. reflexivity. }
  pose proof (Z.mod_pos_bound (rs2_val inst / 2 ^ 5) (2 ^ 10) ltac:(lia)) as Bd.
  pose proof (Z.mod_pos_bound (rs2_val inst / 2 ^ 15) (2 ^ 19) ltac:(lia)) as Bs.
  pose proof (Z.mod_pos_bound (rs1_val inst) (2 ^ 32) ltac:(lia)) as Ba.
  assert (Hsize :
    u32 (u32 (Z.land (Z.shiftr (rs2_val inst) 5) 1023)
         * u32 (Z.land (Z.shiftr (rs2_val inst) 15) 524287))
    = ((rs2_val inst / 2 ^ 5) mod 2 ^ 10) * ((rs2_val inst / 2 ^ 15) mod 2 ^ 19)).
  { rewrite Hd, Hs. unfold u32, wrap.
    change (2 ^ 10) with 1024 in *. change (2 ^ 19) with 524288 in *.
    change (2 ^ 32) with 4294967296 in *.
    rewrite (Z.mod_small (_ mod 1024)) by lia.
    rewrite (Z.mod_small (_ mod 524288)) by lia.
    apply Z.mod_small. nia. }
  destruct (memory_operation_cases inst) as [[H7 | [H7 | H7]] | Hnone];
    [| | | congruence].
  - unfold memory_operation in Hreq. rewrite H7 in Hreq. cbv zeta in Hreq.
    rewrite Hsize in Hreq. injection Hreq as <-. cbn [req_addr req_size].
    unfold u32, wrap.
    change (2 ^ 10) with 1024 in *. change (2 ^ 19) with 524288 in *.
    change (2 ^ 29) with 536870912. split_and!; try lia; try nia; auto.
  - unfold memory_operation in Hreq. rewrite H7 in Hreq. cbv zeta in Hreq.
    rewrite Hsize in Hreq. injection Hreq as <-. cbn [req_addr req_size].
    unfold u32, wrap.
    change (2 ^ 10) with 1024 in *. change (2 ^ 19) with 524288 in *.
    change (2 ^ 29) with 536870912. split_and!; try lia; try nia; auto.
  - unfold memory_operation in Hreq. rewrite H7 in Hreq. cbv zeta in Hreq.
    injection Hreq as <-. cbn [req_addr req_size].
    change 4294967295 with (Z.ones 32). rewrite Z.land_ones by lia.
    change (2 ^ 29) with 536870912. split_and!; try lia.
Qed.

Lemma memory_operation_bounds_witness :
  0 ≤ 4096 < 2 ^ 32 ∧ 0 ≤ 2048 < 2 ^ 29.
Proof.
  destruct (memory_operation_bounds
              (MkBebopInst 0 24 4096 (0 + 2 * 32 + 1024 * 32768) 7)
              (ReadMemory 4096 2048 false) eq_refl) as (Ha & Hs & _).
  exact (conj Ha Hs).
Defined.

(** X21. Instructions completed in the order they were submitted drain the
    queue: each completion removes exactly the front entry. *)
Theorem complete_in_order (insts rest : list BebopInst) :
  complete_all (insts ++ rest) insts = rest.
Proof.
  induction insts as [| i insts IH]; [reflexivity |].
  unfold complete_all. cbn [fold_left app completeInstruction fst].
  rewrite Z.eqb_refl. exact IH.
Qed.

End InstFacts.
(** ** The signal collector *)

Module CollectorFacts.
Import Collector.

Section Facts.

Context {Sim V : Type}.
Implicit Types c : SignalCollector Sim V.

Lemma run_registry_call_dom (r : registry_call Sim V) c :
  dom (signal_probes c) = dom (signal_metadata c) →
  dom (signal_probes (run_registry_call r c))
  = dom (signal_metadata (run_registry_call r c)).
Proof.
  intros Hd. destruct r as [n p t d | n]; cbn [run_registry_call].
  - unfold registerSignal. destruct (signal_probes c !! n); cbn; [exact Hd |].
    rewrite !dom_insert_L, Hd. reflexivity.
  - unfold unregisterSignal. destruct (signal_probes c !! n); cbn; [| exact Hd].
    rewrite !dom_delete_L, Hd. reflexivity.
Qed.

(** X22. The probes and the descriptions are kept for the same names: after any
    sequence of registrations and removals on a new collector, a name has a
    probe exactly when it has metadata. *)
Theorem registry_consistent (calls : list (registry_call Sim V)) :
  let c := fold_left (λ c r, run_registry_call r c) calls SignalCollector_new in
  dom (signal_probes c) = dom (signal_metadata c).
Proof.
  cbv zeta.
  assert (H0 : dom (signal_probes (@SignalCollector_new Sim V))
               = dom (signal_metadata (@SignalCollector_new Sim V))).
  { cbn. rewrite !dom_empty_L. reflexivity. }
  revert H0. generalize (@SignalCollector_new Sim V) as c.
  induction calls as [| r calls IH]; intros c Hd; [exact Hd |].
  cbn [fold_left]. apply IH. apply run_registry_call_dom. exact Hd.
Qed.

(** X23. A name is registered once: registering a name that is already there
    is refused and changes nothing, so the first probe stays; registering a
    new name succeeds, the name is then registered, and removing it again
    gives the collector back as it was. *)
Theorem register_unregister (n : string) (p : SignalProbe Sim V)
  (t : SignalType) (d : string) c :
  dom (signal_probes c) = dom (signal_metadata c) →
  if isSignalRegistered n c
  then registerSignal n p t d c = (false, c)
  else fst (registerSignal n p t d c) = true ∧
       isSignalRegistered n (snd (registerSignal n p t d c)) = true ∧
       signal_probes (snd (registerSignal n p t d c)) !! n = Some p ∧
       unregisterSignal n (snd (registerSignal n p t d c)) = (true, c).
Proof.
  intros Hd. unfold isSignalRegistered, registerSignal.
  destruct (signal_probes c !! n) as [q |] eqn:E; [reflexivity |].
  cbn [fst snd]. unfold isSignalRegistered, unregisterSignal.
  cbn [signal_probes signal_metadata enabled signal_history
       max_history_size current_cycle].
  rewrite lookup_insert_eq. split_and!; try reflexivity.
  assert (Em : signal_metadata c !! n = None).
  { apply not_elem_of_dom. rewrite <- Hd. apply not_elem_of_dom. exact E. }
  rewrite !delete_insert_id by assumption.
  destruct c; reflexivity.
Qed.

Lemma collect_history (s : Sim) (t : Z) c :
  enabled c = true →
  ∃ k, (k ≤ 1)%nat ∧
       signal_history (collect s t c) =
         drop k (signal_history c)
         ++ [Snapshot t (current_cycle c)
                      (omap (λ probe : SignalProbe Sim V, probe s)
                            (signal_probes c))] ∧
       (k = 1%nat ↔ (0 < max_history_size c ≤ length (signal_history c))%nat).
Proof.
  intros He. unfold collect. rewrite He. cbn [negb signal_history].
  rewrite length_app. cbn [length].
  destruct (0 <? max_history_size c)%nat eqn:E0;
    [destruct (max_history_size c <? length (signal_history c) + 1)%nat eqn:E1 |];
    cbn [andb].
  - apply Nat.ltb_lt in E0, E1. exists 1%nat.
    destruct (signal_history c) as [| h0 hs] eqn:Eh; [cbn in E1; lia |].
    cbn [tail app drop]. split_and!; [lia | reflexivity |].
    split; [intros _; lia | reflexivity].
  - apply Nat.ltb_lt in E0. apply Nat.ltb_ge in E1. exists 0%nat.
    cbn [drop]. split_and!; [lia | reflexivity | lia].
  - apply Nat.ltb_ge in E0. exists 0%nat.
    cbn [drop]. split_and!; [lia | reflexivity | lia].
Qed.

(** X24. One [collect] on an enabled collector: the new snapshot carries the
    time given, the cycle count before the call and the sample of every
    registered probe that did not throw; it is the latest snapshot, and
    [querySignal] afterwards returns the sample of a registered probe,
    and fails for a name that is not registered or whose probe threw. The
    cycle count goes up by one. *)
Theorem collect_then_query (s : Sim) (t : Z) (n : string) c :
  enabled c = true →
  getLatestSnapshot (collect s t c) =
    Snapshot t (current_cycle c)
             (omap (λ probe : SignalProbe Sim V, probe s) (signal_probes c)) ∧
  querySignal n (collect s t c) = signal_probes c !! n ≫= (λ probe, probe s) ∧
  current_cycle (collect s t c) = u64 (current_cycle c + 1).
Proof.
  intros He. destruct (collect_history s t c He) as (k & _ & Hh & _).
  unfold getLatestSnapshot, querySignal. rewrite Hh, last_snoc.
  cbn [default signals]. split_and!.
  - reflexivity.
  - rewrite lookup_omap. reflexivity.
  - unfold collect. rewrite He. reflexivity.
Qed.

(** X25. The length of the history after one [collect] on an enabled collector:
    with no limit, or below the limit, it grows by one; at the limit or
    above it the oldest snapshot makes room for the new one and the length
    stays. A history that is longer than a limit set later is therefore
    never cut back to the limit. *)
Theorem collect_history_length (s : Sim) (t : Z) c :
  enabled c = true →
  getHistorySize (collect s t c) =
    if ((0 <? max_history_size c) && (max_history_size c <=? getHistorySize c))%nat
    then getHistorySize c else S (getHistorySize c).
Proof.
  intros He. unfold getHistorySize.
  destruct (collect_history s t c He) as (k & Hk & Hh & Hiff).
  rewrite Hh, length_app, length_drop. cbn [length].
  destruct (0 <? max_history_size c)%nat eqn:E0;
    [destruct (max_history_size c <=? length (signal_history c))%nat eqn:E1 |];
    cbn [andb].
  - apply Nat.ltb_lt in E0. apply Nat.leb_le in E1.
    assert (k = 1%nat) by (apply Hiff; lia). lia.
  - apply Nat.ltb_lt in E0. apply Nat.leb_gt in E1.
    assert (k ≠ 1%nat) by (intros Hk1; apply Hiff in Hk1; lia). lia.
  - apply Nat.ltb_ge in E0.
    assert (k ≠ 1%nat) by (intros Hk1; apply Hiff in Hk1; lia). lia.
Qed.

Lemma collect_bounded (s : Sim) (t : Z) c :
  (0 < max_history_size c)%nat →
  (length (signal_history c) ≤ max_history_size c)%nat →
  (length (signal_history (collect s t c)) ≤ max_history_size (collect s t c))%nat
  ∧ max_history_size (collect s t c) = max_history_size c.
Proof.
  intros Hm Hl. destruct (enabled c) eqn:He.
  - destruct (collect_history s t c He) as (k & Hk & Hh & Hiff).
    assert (Hmax : max_history_size (collect s t c) = max_history_size c).
    { unfold collect. rewrite He. reflexivity. }
    rewrite Hmax, Hh, length_app, length_drop. cbn [length].
    split; [| reflexivity].
    destruct (decide (length (signal_history c) = max_history_size c)) as [E | E].
    + assert (k = 1%nat) by (apply Hiff; lia). lia.
    + lia.
  - unfold collect. rewrite He. cbn [negb]. auto.
Qed.

(** X26. With a limit set, a history that starts within the limit stays within
    it however many snapshots are collected. *)
Theorem history_bounded (samples : list (Sim * Z)) c :
  (0 < max_history_size c)%nat →
  (getHistorySize c ≤ max_history_size c)%nat →
  (getHistorySize (collect_all samples c) ≤ max_history_size c)%nat.
Proof.
  unfold getHistorySize. revert c.
  induction samples as [| [s t] samples IH]; intros c Hm Hl; [exact Hl |].
  unfold collect_all. cbn [fold_left fst snd].
  destruct (collect_bounded s t c Hm Hl) as [Hl' Hm'].
  rewrite <- Hm'. apply IH; [rewrite Hm'; exact Hm | exact Hl'].
Qed.

End Facts.

Lemma register_unregister_witness :
  unregisterSignal "pc"
    (snd (registerSignal "pc" (λ s : Z, Some s) ADDR "program counter"
            SignalCollector_new))
  = (true, SignalCollector_new).
Proof.
  assert (Hd : dom (signal_probes (@SignalCollector_new Z Z))
               = dom (signal_metadata (@SignalCollector_new Z Z))).
  { cbn. rewrite !dom_empty_L. reflexivity. }
  pose proof (register_unregister "pc" (λ s : Z, Some s) ADDR "program counter"
                (@SignalCollector_new Z Z) Hd) as H.
  change (isSignalRegistered "pc" (@SignalCollector_new Z Z)) with false in H.
  cbv iota in H. apply H.
Defined.

Lemma collect_then_query_witness :
  querySignal "pc"
    (collect 4096 7
       (setEnabled true
          (snd (registerSignal "pc" (λ s : Z, Some s) ADDR ""
                  SignalCollector_new))))
  = Some 4096.
Proof.
  destruct (collect_then_query 4096 7 "pc"
              (setEnabled true
                 (snd (registerSignal "pc" (λ s : Z, Some s) ADDR ""
                         (@SignalCollector_new Z Z)))) eq_refl)
    as (_ & Hq & _).
  rewrite Hq. reflexivity.
Defined.

Lemma collect_history_length_witness :
  getHistorySize
    (collect 0 1 (MkCollector true ∅ ∅ [@empty_snapshot Z; empty_snapshot] 2 5))
  = 2%nat.
Proof.
  exact (collect_history_length (Sim := Z) (V := Z) 0 1
           (MkCollector true ∅ ∅ [empty_snapshot; empty_snapshot] 2 5) eq_refl).
Defined.

Lemma history_bounded_witness :
  (getHistorySize
     (collect_all [(1%Z, 10%Z); (2%Z, 20%Z); (3%Z, 30%Z)]
        (setMaxHistorySize 2 (setEnabled true (@SignalCollector_new Z Z))))
   ≤ 2)%nat.
Proof.
  apply (history_bounded (Sim := Z) (V := Z) [(1, 10); (2, 20); (3, 30)]
           (setMaxHistorySize 2 (setEnabled true SignalCollector_new)));
    cbn; lia.
Defined.

End CollectorFacts.
(** ** Sparse-matrix generators *)

Module SpMatrixFacts.
Import SpMatrix.

(** X27. [cmp_coord] is a three-way comparison in the order "by row, then by
    column": it returns -1, 0 or 1; 0 exactly for equal positions; a
    negative value exactly when the first position comes first; and
    swapping the arguments flips the sign. The values play no part. *)
Theorem cmp_coord_lexicographic {V : Type} (p q : coord_t V) :
  (cmp_coord p q = -1 ∨ cmp_coord p q = 0 ∨ cmp_coord p q = 1) ∧
  (cmp_coord p q = 0 ↔ row p = row q ∧ col p = col q) ∧
  (cmp_coord p q < 0 ↔ row p < row q ∨ (row p = row q ∧ col p < col q)) ∧
  cmp_coord q p = - cmp_coord p q.
Proof.
  unfold cmp_coord.
  destruct (Z.eqb_spec (row p) (row q)) as [Er | Er];
    destruct (Z.eqb_spec (row q) (row p)) as [Er' | Er']; try congruence;
    cbn [negb];
    repeat match goal with
           | |- context [?a <? ?b] => destruct (Z.ltb_spec a b)
           end; cbn [Z.b2z]; lia.
Qed.

Section Facts.

Context {V : Type} (add : V → V → V).

Abbreviation coord := (coord_t V).

(** *** The order on positions *)

Lemma pos_lt_irrefl (p : Z * Z) : ¬ pos_lt p p.
Proof. unfold pos_lt. lia. Qed.

Lemma pos_le_lt_trans (p q r : Z * Z) : pos_le p q → pos_lt q r → pos_lt p r.
Proof.
  unfold pos_le, pos_lt. destruct p, q, r; cbn.
  intros [H | H] H'; [lia | injection H as -> ->; lia].
Qed.

Lemma pos_le_neq_lt (p q : Z * Z) : pos_le p q → p ≠ q → pos_lt p q.
Proof. intros [H | H] N; [exact H | contradiction]. Qed.

Lemma ascending_snoc (R : Z * Z → Z * Z → Prop) (l : list (Z * Z)) (x : Z * Z) :
  ascending R (l ++ [x]) ↔ ascending R l ∧ ∀ y, y ∈ l → R y x.
Proof.
  unfold ascending. split.
  - intros H. split.
    + intros a b p q Hab Ha Hb.
      apply (H a b); [lia | |]; apply lookup_app_l_Some; assumption.
    + intros y Hy. apply list_elem_of_lookup_1 in Hy as [a Ha].
      apply (H a (length l)).
      * apply lookup_lt_Some in Ha. lia.
      * apply lookup_app_l_Some; assumption.
      * rewrite lookup_app_r by lia. rewrite Nat.sub_diag. reflexivity.
  - intros [H1 H2] a b p q Hab Ha Hb.
    destruct (decide (b < length l)%nat) as [Hb' | Hb'].
    + rewrite lookup_app_l in Ha by lia. rewrite lookup_app_l in Hb by lia.
      apply (H1 a b); assumption.
    + rewrite lookup_app_l in Ha.
      2:{ apply lookup_lt_Some in Hb. rewrite length_app in Hb. cbn in Hb. lia. }
      rewrite lookup_app_r in Hb by lia.
      destruct (b - length l)%nat eqn:E; cbn in Hb; [|discriminate].
      injection Hb as <-. apply H2. eapply list_elem_of_lookup_2; eassumption.
Qed.

(** *** The first loop computes [merged] in place *)

Lemma push_nil (x : coord) : push add [] x = [x].
Proof. reflexivity. Qed.

Lemma push_snoc (o : list coord) (cl x : coord) :
  push add (o ++ [cl]) x =
  if (row cl =? row x) && (col cl =? col x)
  then o ++ [Coord (row cl) (col cl) (add (val cl) (val x))]
  else (o ++ [cl]) ++ [x].
Proof.
  unfold push. rewrite last_snoc, removelast_last. reflexivity.
Qed.

Lemma merged_snoc (l : list coord) (x : coord) :
  merged add (l ++ [x]) = push add (merged add l) x.
Proof. unfold merged. rewrite fold_left_app. reflexivity. Qed.

Lemma merge_duplicates_S (c0 : list coord) (k : nat) :
  merge_duplicates add c0 (S k) = merge_step add (merge_duplicates add c0 k) k.
Proof.
  unfold merge_duplicates. rewrite seq_S, fold_left_app. reflexivity.
Qed.

Lemma fresh_take (c : list coord) (n k : nat) (ck : coord) :
  (n ≤ k)%nat → c !! k = Some ck →
  take (S n) (if (n <? k)%nat then <[n := ck]> c else c) = take n c ++ [ck].
Proof.
  intros Hn Hk. pose proof (lookup_lt_Some _ _ _ Hk) as Hlen.
  destruct (Nat.ltb_spec n k) as [Hlt | Hge].
  - rewrite (take_S_r _ _ ck) by (apply list_lookup_insert_eq; lia).
    rewrite take_insert_ge by lia. reflexivity.
  - assert (n = k) as -> by lia. apply take_S_r. assumption.
Qed.

Lemma merge_step_refines (c0 c : list coord) (n k : nat) :
  (k < length c0)%nat →
  length c = length c0 →
  (n ≤ k)%nat →
  (∀ j, (k ≤ j)%nat → c !! j = c0 !! j) →
  take n c = merged add (take k c0) →
  ∃ c' n', merge_step add (c, n) k = (c', n') ∧
    length c' = length c0 ∧
    (n' ≤ S k)%nat ∧
    (∀ j, (S k ≤ j)%nat → c' !! j = c0 !! j) ∧
    take n' c' = merged add (take (S k) c0).
Proof.
  intros Hk Hlen Hn Hrest Htake.
  destruct (lookup_lt_is_Some_2 c0 k Hk) as [ck Hck].
  assert (c !! k = Some ck) as Hck' by (rewrite Hrest by lia; assumption).
  rewrite (take_S_r _ _ _ Hck), merged_snoc, <- Htake.
  assert (∃ c' n', ((if (n <? k)%nat then <[n := ck]> c else c), S n) = (c', n') ∧
    length c' = length c0 ∧ (n' ≤ S k)%nat ∧
    (∀ j, (S k ≤ j)%nat → c' !! j = c0 !! j) ∧
    take n' c' = take n c ++ [ck]) as Hfresh.
  { eexists _, _. split; [reflexivity|]. split_and!.
    - destruct (n <? k)%nat; [rewrite length_insert|]; assumption.
    - lia.
    - intros j Hj. destruct (n <? k)%nat.
      + rewrite list_lookup_insert_ne by lia. apply Hrest. lia.
      + apply Hrest. lia.
    - apply fresh_take; assumption. }
  unfold merge_step. rewrite Hck'.
  destruct (Nat.ltb_spec 0 n) as [Hpos | Hzero].
  - destruct (lookup_lt_is_Some_2 c (n - 1) ltac:(lia)) as [cl Hcl].
    rewrite Hcl.
    assert (take n c = take (n - 1) c ++ [cl]) as Hsplit.
    { replace n with (S (n - 1)) at 1 by lia. apply take_S_r. assumption. }
    rewrite Hsplit, push_snoc.
    destruct ((row cl =? row ck) && (col cl =? col ck)).
    + eexists _, _. split; [reflexivity|]. split_and!.
      * rewrite length_insert. assumption.
      * lia.
      * intros j Hj. rewrite list_lookup_insert_ne by lia. apply Hrest. lia.
      * replace n with (S (n - 1)) at 1 by lia.
        rewrite (take_S_r _ _ (Coord (row cl) (col cl) (add (val cl) (val ck))))
          by (apply list_lookup_insert_eq; lia).
        rewrite take_insert_ge by lia. reflexivity.
    + rewrite <- Hsplit. exact Hfresh.
  - assert (n = 0%nat) as -> by lia. cbn [take] in *.
    rewrite push_nil. exact Hfresh.
Qed.

Lemma merge_duplicates_refines (c0 : list coord) (k : nat) :
  (k ≤ length c0)%nat →
  ∃ c n, merge_duplicates add c0 k = (c, n) ∧
    length c = length c0 ∧
    (n ≤ k)%nat ∧
    (∀ j, (k ≤ j)%nat → c !! j = c0 !! j) ∧
    take n c = merged add (take k c0).
Proof.
  induction k as [|k IH]; intros Hk.
  - exists c0, 0%nat. split_and!; auto.
  - destruct IH as (c & n & E & Hlen & Hn & Hrest & Htake); [lia|].
    destruct (merge_step_refines c0 c n k) as (c' & n' & E' & H'); auto.
    exists c', n'. rewrite merge_duplicates_S, E. auto.
Qed.

(** *** What [merged] keeps *)

Lemma ascending_nil (R : Z * Z → Z * Z → Prop) : ascending R [].
Proof. intros a b p q _ Ha. rewrite lookup_nil in Ha. discriminate. Qed.

Lemma filter_none {A : Type} (P : A → Prop) `{!∀ x, Decision (P x)} (l : list A) :
  (∀ y, y ∈ l → ¬ P y) → filter P l = [].
Proof.
  induction l as [|a l IH]; intros Hall; [reflexivity|].
  rewrite filter_cons_False by (apply Hall; left).
  apply IH. intros y Hy. apply Hall. right. assumption.
Qed.

Lemma same_position_spec (cl x : coord) :
  (row cl =? row x) && (col cl =? col x) = true ↔ pos cl = pos x.
Proof.
  unfold pos. rewrite andb_true_iff, !Z.eqb_eq. split.
  - intros [-> ->]. reflexivity.
  - intros [= -> ->]. auto.
Qed.

Lemma merged_nonempty (l : list coord) : l ≠ [] → merged add l ≠ [].
Proof.
  destruct l as [|x l _] using rev_ind; [congruence|]. intros _.
  rewrite merged_snoc.
  destruct (merged add l) as [|cl o _] using rev_ind.
  - rewrite push_nil. discriminate.
  - rewrite push_snoc. destruct (_ && _); intros E; discriminate_list E.
Qed.

Lemma merged_elem (l : list coord) (p : Z * Z) :
  p ∈ pos <$> merged add l ↔ p ∈ pos <$> l.
Proof.
  induction l as [|x l IH] using rev_ind; [reflexivity|].
  rewrite merged_snoc, (fmap_snoc pos l), (elem_of_app (pos <$> l)), <- IH.
  destruct (merged add l) as [|cl o _] using rev_ind.
  - rewrite push_nil. cbn. rewrite elem_of_nil, list_elem_of_singleton. tauto.
  - rewrite push_snoc.
    destruct ((row cl =? row x) && (col cl =? col x)) eqn:E.
    + apply same_position_spec in E.
      rewrite !fmap_snoc, !elem_of_app, !list_elem_of_singleton.
      change (pos (Coord (row cl) (col cl) (add (val cl) (val x)))) with (pos cl).
      rewrite E. tauto.
    + rewrite (fmap_snoc pos (o ++ [cl])), elem_of_app. reflexivity.
Qed.

Lemma merged_sorted (l : list coord) :
  ascending pos_le (pos <$> l) → ascending pos_lt (pos <$> merged add l).
Proof.
  induction l as [|x l IH] using rev_ind; [intros _; apply ascending_nil|].
  rewrite fmap_snoc, ascending_snoc. intros [Hl Hx].
  specialize (IH Hl). rewrite merged_snoc.
  pose proof (merged_elem l) as Hel.
  destruct (merged add l) as [|cl o _] using rev_ind.
  - rewrite push_nil. change (pos <$> [x]) with ([] ++ [pos x]).
    apply ascending_snoc. split; [apply ascending_nil|].
    intros y Hy. apply elem_of_nil in Hy. contradiction.
  - rewrite push_snoc.
    destruct ((row cl =? row x) && (col cl =? col x)) eqn:E.
    + rewrite fmap_snoc in *. exact IH.
    + rewrite (fmap_snoc pos (o ++ [cl])). apply ascending_snoc.
      split; [exact IH|]. intros y Hy.
      assert (pos cl ≠ pos x) as Hne.
      { intros Heq. apply same_position_spec in Heq. congruence. }
      apply pos_le_neq_lt; [apply Hx, Hel, Hy|]. intros ->.
      rewrite fmap_snoc in Hy, IH, Hel. apply ascending_snoc in IH as [_ IH].
      apply elem_of_app in Hy as [Hy | Hy].
      * apply (pos_lt_irrefl (pos cl)).
        eapply pos_le_lt_trans; [|apply IH, Hy].
        apply Hx, Hel, elem_of_app. right. apply list_elem_of_singleton. reflexivity.
      * apply list_elem_of_singleton in Hy. congruence.
Qed.

Lemma merged_sums (l : list coord) :
  ascending pos_le (pos <$> l) →
  ∀ e, e ∈ merged add l →
    ∃ v0 vs, val <$> filter (λ x, pos x = pos e) l = v0 :: vs ∧
             val e = fold_left add vs v0.
Proof.
  induction l as [|x l IH] using rev_ind.
  { intros _ e He. apply elem_of_nil in He. contradiction. }
  intros Hs. pose proof (merged_sorted _ Hs) as Hasc.
  rewrite fmap_snoc, ascending_snoc in Hs. destruct Hs as [Hl Hx].
  specialize (IH Hl). pose proof (merged_sorted _ Hl) as Hasc'.
  pose proof (merged_elem l) as Hel.
  pose proof (merged_nonempty l) as Hne.
  rewrite merged_snoc in *.
  intros e He. rewrite filter_app, fmap_app.
  destruct (merged add l) as [|cl o _] using rev_ind.
  - rewrite push_nil in He. apply list_elem_of_singleton in He as ->.
    destruct l; [|exfalso; apply Hne; [discriminate | reflexivity]].
    exists (val x), []. rewrite filter_nil, filter_cons_True, filter_nil by reflexivity.
    split; reflexivity.
  - rewrite push_snoc in He, Hasc.
    destruct ((row cl =? row x) && (col cl =? col x)) eqn:E.
    + apply same_position_spec in E.
      apply elem_of_app in He as [He | He].
      * destruct (IH e) as (v0 & vs & Hf & Hv).
        { apply elem_of_app. left. assumption. }
        exists v0, vs. rewrite Hf. split; [|assumption].
        rewrite filter_cons_False, filter_nil; [apply app_nil_r|].
        intros Heq. rewrite fmap_snoc in Hasc'.
        apply ascending_snoc in Hasc' as [_ Hlt].
        apply (pos_lt_irrefl (pos e)). rewrite <- Heq at 2. rewrite <- E.
        apply Hlt. apply list_elem_of_fmap. exists e. auto.
      * apply list_elem_of_singleton in He as ->.
        change (pos (Coord (row cl) (col cl) (add (val cl) (val x)))) with (pos cl).
        destruct (IH cl) as (v0 & vs & Hf & Hv).
        { apply elem_of_app. right. apply list_elem_of_singleton. reflexivity. }
        exists v0, (vs ++ [val x]). rewrite Hf.
        rewrite filter_cons_True, filter_nil by (symmetry; exact E).
        split; [reflexivity|].
        rewrite fold_left_app. cbn. rewrite <- Hv. reflexivity.
    + rewrite (fmap_snoc pos (o ++ [cl])) in Hasc.
      apply ascending_snoc in Hasc as [_ Hlt].
      apply elem_of_app in He as [He | He].
      * destruct (IH e He) as (v0 & vs & Hf & Hv).
        exists v0, vs. rewrite Hf. split; [|assumption].
        rewrite filter_cons_False, filter_nil; [apply app_nil_r|].
        intros Heq. apply (pos_lt_irrefl (pos e)). rewrite <- Heq at 2.
        apply Hlt. apply list_elem_of_fmap. exists e. auto.
      * apply list_elem_of_singleton in He as ->.
        exists (val x), [].
        rewrite filter_cons_True, filter_nil by reflexivity.
        rewrite filter_none; [split; reflexivity|].
        intros y Hy Heq. apply (pos_lt_irrefl (pos x)). rewrite <- Heq at 1.
        apply Hlt, Hel. apply list_elem_of_fmap. exists y. auto.
Qed.

(** X28. The first loop of [csr_from_sorted_coords]: on an array
    whose first [nnz_in] entries are sorted by position, the loop keeps
    [n] entries at the front of the array, [0 < n <= nnz_in], and leaves
    the array beyond [nnz_in] alone; the kept entries have strictly
    ascending positions (so no position twice), the same positions as the
    input, and each carries the sum, from left to right, of the values
    the input has at its position. *)
Theorem merge_duplicates_sums (coord0 : list coord) (nnz_in : nat) :
  (0 < nnz_in ≤ length coord0)%nat →
  ascending pos_le (pos <$> take nnz_in coord0) →
  ∃ c n, merge_duplicates add coord0 nnz_in = (c, n) ∧
    (0 < n ≤ nnz_in)%nat ∧
    length c = length coord0 ∧
    drop nnz_in c = drop nnz_in coord0 ∧
    ascending pos_lt (pos <$> take n c) ∧
    (∀ p, p ∈ pos <$> take n c ↔ p ∈ pos <$> take nnz_in coord0) ∧
    (∀ e, e ∈ take n c →
       ∃ v0 vs,
         val <$> filter (λ x, pos x = pos e) (take nnz_in coord0) = v0 :: vs ∧
         val e = fold_left add vs v0).
Proof.
  intros Hn Hs.
  destruct (merge_duplicates_refines coord0 nnz_in) as (c & n & E & Hlen & Hle & Hrest & Ht);
    [lia|].
  exists c, n. split; [exact E|]. rewrite Ht. split_and!.
  - assert (merged add (take nnz_in coord0) ≠ []) as Hne.
    { apply merged_nonempty. intros E0. apply (f_equal length) in E0.
      rewrite length_take_le in E0 by lia. cbn in E0. lia. }
    rewrite <- Ht in Hne. destruct n; [contradiction Hne; reflexivity | lia].
  - assumption.
  - assumption.
  - apply list_eq. intros j. rewrite !lookup_drop. apply Hrest. lia.
  - apply merged_sorted. assumption.
  - apply merged_elem.
  - apply merged_sums. assumption.
Qed.

(** *** The row pointers *)

Lemma skip_row_spec (c : list coord) (n : nat) (i : Z) (fuel k : nat) :
  (k ≤ n ≤ length c)%nat → (n - k ≤ fuel)%nat →
  (k ≤ skip_row fuel c n i k ≤ n)%nat ∧
  (∀ j e, (k ≤ j < skip_row fuel c n i k)%nat → c !! j = Some e → row e = i) ∧
  (∀ e, c !! skip_row fuel c n i k = Some e →
        (skip_row fuel c n i k < n)%nat → row e ≠ i).
Proof.
  revert k. induction fuel as [|fuel IH]; intros k Hk Hf.
  - cbn. split_and!; intros; lia.
  - cbn [skip_row]. destruct (Nat.ltb_spec k n) as [Hlt | Hge].
    2:{ split_and!; intros; lia. }
    destruct (lookup_lt_is_Some_2 c k ltac:(lia)) as [ek Hek]. rewrite Hek.
    destruct (Z.eqb_spec (row ek) i) as [Hrow | Hrow].
    + destruct (IH (S k)) as (H1 & H2 & H3); [lia | lia |].
      split_and!; [lia | lia | | assumption].
      intros j e Hj He. destruct (decide (j = k)) as [-> | Hjk].
      * congruence.
      * apply (H2 j); [lia | assumption].
    + split_and!; [lia | lia | intros; lia |].
      intros e He _. congruence.
Qed.

Lemma skip_row_splits (c : list coord) (n : nat) (i : Z) (k : nat) :
  (n ≤ length c)%nat → rows_ascend c n →
  splits_at c n i k → splits_at c n (i + 1) (skip_row n c n i k).
Proof.
  intros Hn Hasc [Hk Hsplit].
  destruct (skip_row_spec c n i n k) as (H1 & H2 & H3); [lia | lia |].
  split; [lia|]. intros j e Hj He. split.
  - intros Hlt. destruct (decide (j < k)%nat) as [Hjk | Hjk].
    + apply (Hsplit j e Hj He) in Hjk. lia.
    + rewrite (H2 j e) by (lia || assumption). lia.
  - intros Hrow.
    destruct (decide (j < skip_row n c n i k)%nat) as [|Hge]; [assumption|].
    exfalso.
    destruct (lookup_lt_is_Some_2 c (skip_row n c n i k) ltac:(lia)) as [e' He'].
    pose proof (H3 e' He' ltac:(lia)) as Hne.
    pose proof (Hsplit (skip_row n c n i k) e' ltac:(lia) He') as Hk'.
    pose proof (Hasc (skip_row n c n i k) j e' e ltac:(lia) He' He).
    assert (¬ row e' < i) by (rewrite <- Hk'; lia). lia.
Qed.

Lemma row_ptr_loop (c : list coord) (n m : nat) :
  (n ≤ length c)%nat → rows_ascend c n →
  (∀ j e, (j < n)%nat → c !! j = Some e → 0 ≤ row e) →
  ∃ rp k, fold_left (row_ptr_step c n) (seq 0 m) ([0], 0%nat) = (rp, k) ∧
    length rp = S m ∧
    splits_at c n (Z.of_nat m) k ∧
    ∀ i, (i ≤ m)%nat → ∃ ki, rp !! i = Some (Z.of_nat ki) ∧
                              splits_at c n (Z.of_nat i) ki.
Proof.
  intros Hn Hasc Hnonneg.
  assert (splits_at c n 0 0) as H0.
  { split; [lia|]. intros j e Hj He. specialize (Hnonneg j e Hj He). lia. }
  induction m as [|m IH].
  - exists [0], 0%nat. split_and!; auto.
    intros i Hi. assert (i = 0%nat) as -> by lia. exists 0%nat. auto.
  - destruct IH as (rp & k & E & Hlen & Hk & Hall).
    rewrite seq_S, fold_left_app, E. cbn [fold_left row_ptr_step Nat.add].
    eexists _, _. split; [reflexivity|].
    assert (splits_at c n (Z.of_nat (S m)) (skip_row n c n (Z.of_nat m) k)) as Hk'.
    { replace (Z.of_nat (S m)) with (Z.of_nat m + 1) by lia.
      apply skip_row_splits; assumption. }
    split_and!.
    + rewrite length_app. cbn. lia.
    + exact Hk'.
    + intros i Hi. destruct (decide (i ≤ m)%nat) as [Him | Him].
      * destruct (Hall i Him) as (ki & Hki & Hs). exists ki.
        split; [|assumption]. apply lookup_app_l_Some. assumption.
      * assert (i = S m) as -> by lia. eexists. split; [|exact Hk'].
        rewrite lookup_app_r by lia. rewrite Hlen, Nat.sub_diag. reflexivity.
Qed.

(** X29. The last loop of [csr_from_sorted_coords]: when the rows of
    the [n] kept entries are non-negative and never decrease, the loop
    fills [row_ptr[0..M]], and [row_ptr[i]] is the number of kept entries
    of rows below [i]: an entry's index is below [row_ptr[i]] exactly when
    its row is below [i]. *)
Theorem row_ptr_counts_rows_below (c : list coord) (n : nat) (M : Z) :
  0 ≤ M →
  (n ≤ length c)%nat →
  rows_ascend c n →
  (∀ j e, (j < n)%nat → c !! j = Some e → 0 ≤ row e) →
  length (fill_row_ptr c n M) = S (Z.to_nat M) ∧
  ∀ i, 0 ≤ i ≤ M →
    ∃ k, fill_row_ptr c n M !! Z.to_nat i = Some (Z.of_nat k) ∧
         (k ≤ n)%nat ∧
         ∀ j e, (j < n)%nat → c !! j = Some e → (j < k)%nat ↔ row e < i.
Proof.
  intros HM Hn Hasc Hnonneg.
  destruct (row_ptr_loop c n (Z.to_nat M) Hn Hasc Hnonneg)
    as (rp & k & E & Hlen & _ & Hall).
  unfold fill_row_ptr. rewrite E. cbn [fst]. split; [assumption|].
  intros i Hi. destruct (Hall (Z.to_nat i) ltac:(lia)) as (ki & Hki & Hle & Hs).
  exists ki. rewrite Z2Nat.id in Hs by lia. auto.
Qed.

(** *** The whole conversion *)

Lemma kept_rows_ascend (c : list coord) (n : nat) :
  ascending pos_lt (pos <$> take n c) → rows_ascend c n.
Proof.
  intros H a b ea eb Hab Ha Hb.
  destruct (decide (a = b)) as [-> | Hne].
  - assert (ea = eb) as -> by congruence. lia.
  - assert (pos_lt (pos ea) (pos eb)) as Hlt.
    { apply (H a b); [lia | |];
        rewrite list_lookup_fmap, lookup_take_lt by lia;
        [rewrite Ha | rewrite Hb]; reflexivity. }
    unfold pos_lt, pos in Hlt. cbn in Hlt. lia.
Qed.

(** X30. [csr_from_sorted_coords] as a whole: given at least
    one entry, the entries sorted by position and their rows within
    [0, M), the function returns a matrix of [M] rows and [N] columns
    with [0 < nnz <= nnz_in], [nnz] values and column indices, and
    [M + 1] row pointers that start at 0 and end at [nnz]; the entry kept
    at index [j] of the array has its column and value at index [j] of
    [col_idx] and [val], and [j] lies in the range
    [row_ptr[r], row_ptr[r + 1]) of its row [r], the range that [spmm]
    walks for row [r]. *)
Theorem csr_from_sorted_coords_layout (M N : Z) (coord0 : list coord) (nnz_in : Z) :
  0 < nnz_in →
  (Z.to_nat nnz_in ≤ length coord0)%nat →
  ascending pos_le (pos <$> take (Z.to_nat nnz_in) coord0) →
  (∀ j e, (j < Z.to_nat nnz_in)%nat → coord0 !! j = Some e → 0 ≤ row e < M) →
  ∃ A c, csr_from_sorted_coords add M N coord0 nnz_in = Some (A, c) ∧
    rows A = M ∧ cols A = N ∧
    0 < nnz A ≤ nnz_in ∧
    length (csr_val A) = Z.to_nat (nnz A) ∧
    length (col_idx A) = Z.to_nat (nnz A) ∧
    length (row_ptr A) = S (Z.to_nat M) ∧
    row_ptr A !! 0%nat = Some 0 ∧
    row_ptr A !! Z.to_nat M = Some (nnz A) ∧
    ∀ j e, (j < Z.to_nat (nnz A))%nat → c !! j = Some e →
      col_idx A !! j = Some (col e) ∧
      csr_val A !! j = Some (val e) ∧
      ∃ lo hi, row_ptr A !! Z.to_nat (row e) = Some lo ∧
               row_ptr A !! S (Z.to_nat (row e)) = Some hi ∧
               lo ≤ Z.of_nat j < hi.
Proof.
  intros Hpos Hlen Hs Hrows.
  unfold csr_from_sorted_coords.
  destruct (Z.leb_spec nnz_in 0) as [|_]; [lia|].
  destruct (merge_duplicates_refines coord0 (Z.to_nat nnz_in) Hlen)
    as (c & n & E & Hlc & Hle & _ & Ht).
  rewrite E.
  assert (0 < n)%nat as Hn0.
  { assert (merged add (take (Z.to_nat nnz_in) coord0) ≠ []) as Hne.
    { apply merged_nonempty. intros E0. apply (f_equal length) in E0.
      rewrite length_take_le in E0 by lia. cbn in E0. lia. }
    rewrite <- Ht in Hne. destruct n; [contradiction Hne; reflexivity | lia]. }
  assert (ascending pos_lt (pos <$> take n c)) as Hasc
    by (rewrite Ht; apply merged_sorted; assumption).
  assert (∀ j e, (j < n)%nat → c !! j = Some e → 0 ≤ row e < M) as Hrng.
  { intros j e Hj He.
    assert (pos e ∈ pos <$> take n c) as Hin.
    { apply list_elem_of_fmap. exists e. split; [reflexivity|].
      apply (list_elem_of_lookup_2 _ j). rewrite lookup_take_lt by lia. assumption. }
    rewrite Ht in Hin. apply (proj1 (merged_elem _ _)) in Hin.
    apply list_elem_of_fmap in Hin as (e0 & Hp & Hin).
    apply list_elem_of_lookup_1 in Hin as [j0 Hj0].
    apply lookup_take_Some in Hj0 as [Hj0 Hlt].
    specialize (Hrows j0 e0 Hlt Hj0).
    unfold pos in Hp. injection Hp as Hr _. lia. }
  destruct (row_ptr_loop c n (Z.to_nat M)) as (rp & k & Erp & Hlrp & _ & Hall).
  { lia. }
  { apply kept_rows_ascend. assumption. }
  { intros j e Hj He. apply (Hrng j e Hj He). }
  destruct (lookup_lt_is_Some_2 c 0 ltac:(lia)) as [e0 He0].
  destruct (lookup_lt_is_Some_2 c (n - 1) ltac:(lia)) as [e1 He1].
  pose proof (Hrng 0%nat e0 ltac:(lia) He0) as Hr0.
  pose proof (Hrng (n - 1)%nat e1 ltac:(lia) He1) as Hr1.
  eexists _, _. split; [reflexivity|].
  cbn [rows cols nnz csr_val col_idx row_ptr].
  unfold fill_row_ptr. rewrite Erp. cbn [fst]. rewrite Nat2Z.id.
  split_and!.
  - reflexivity.
  - reflexivity.
  - lia.
  - lia.
  - rewrite length_fmap, length_take_le by lia. reflexivity.
  - rewrite length_fmap, length_take_le by lia. reflexivity.
  - assumption.
  - destruct (Hall 0%nat ltac:(lia)) as (ki & Hki & Hkn & Hsp).
    rewrite Hki. f_equal.
    pose proof (Hsp 0%nat e0 ltac:(lia) He0). cbn in *. lia.
  - destruct (Hall (Z.to_nat M) ltac:(lia)) as (ki & Hki & Hkn & Hsp).
    rewrite Hki. f_equal.
    pose proof (Hsp (n - 1)%nat e1 ltac:(lia) He1) as Hlast.
    rewrite Z2Nat.id in Hlast by lia. lia.
  - intros j e Hj He. pose proof (Hrng j e Hj He) as Hr.
    split_and!.
    + rewrite list_lookup_fmap, lookup_take_lt, He by lia. reflexivity.
    + rewrite list_lookup_fmap, lookup_take_lt, He by lia. reflexivity.
    + destruct (Hall (Z.to_nat (row e)) ltac:(lia)) as (klo & Hklo & _ & Hlo).
      destruct (Hall (S (Z.to_nat (row e))) ltac:(lia)) as (khi & Hkhi & _ & Hhi).
      exists (Z.of_nat klo), (Z.of_nat khi). split_and!; [assumption | assumption | |].
      * pose proof (Hlo j e Hj He) as H1. rewrite Z2Nat.id in H1 by lia. lia.
      * pose proof (Hhi j e Hj He) as H1. lia.
Qed.

End Facts.

Lemma ascending_example :
  ascending pos_le
    (pos <$> take 3 [Coord 0 1 10; Coord 0 1 5; Coord 2 0 7]).
Proof.
  intros a b p q Hab Ha Hb.
  destruct a as [|[|[|a]]]; destruct b as [|[|[|b]]];
    cbn in Ha, Hb; try discriminate; try lia;
    injection Ha as <-; injection Hb as <-;
    unfold pos_le, pos_lt; cbn; first [left; lia | right; reflexivity].
Qed.

Lemma merge_duplicates_sums_witness :
  ∃ c n,
    merge_duplicates Z.add [Coord 0 1 10; Coord 0 1 5; Coord 2 0 7] 3 = (c, n) ∧
    (0 < n ≤ 3)%nat.
Proof.
  destruct (merge_duplicates_sums Z.add
              [Coord 0 1 10; Coord 0 1 5; Coord 2 0 7] 3)
    as (c & n & E & Hn & _).
  - cbn. lia.
  - exact ascending_example.
  - exists c, n. auto.
Defined.

Lemma row_ptr_counts_rows_below_witness :
  length (fill_row_ptr [Coord 0 1 15; Coord 2 0 7; Coord 2 0 7] 2 3) = 4%nat.
Proof.
  apply (row_ptr_counts_rows_below [Coord 0 1 15; Coord 2 0 7; Coord 2 0 7] 2 3).
  - lia.
  - cbn. lia.
  - intros a b ea eb Hab Ha Hb.
    destruct a as [|[|a]]; destruct b as [|[|b]]; try lia;
      cbn in Ha, Hb; injection Ha as <-; injection Hb as <-; cbn; lia.
  - intros j e Hj He.
    destruct j as [|[|j]]; try lia; cbn in He; injection He as <-; cbn; lia.
Defined.

Lemma csr_from_sorted_coords_layout_witness :
  ∃ A c,
    csr_from_sorted_coords Z.add 3 2
      [Coord 0 1 10; Coord 0 1 5; Coord 2 0 7] 3 = Some (A, c) ∧
    row_ptr A !! 0%nat = Some 0 ∧ row_ptr A !! 3%nat = Some (nnz A).
Proof.
  destruct (csr_from_sorted_coords_layout Z.add 3 2
              [Coord 0 1 10; Coord 0 1 5; Coord 2 0 7] 3)
    as (A & c & E & _ & _ & _ & _ & _ & _ & H0 & HM & _).
  - lia.
  - cbn. lia.
  - exact ascending_example.
  - intros j e Hj He.
    destruct j as [|[|[|j]]]; cbn in Hj; try lia;
      cbn in He; injection He as <-; cbn; lia.
  - exists A, c. auto.
Defined.

End SpMatrixFacts.
